(** * Secret reconstruction by exact Lagrange interpolation and majority vote

    A shallow embedding of [index.js] (decoding, rational arithmetic on
    BigInt pairs, interpolation at zero, subset enumeration, majority
    vote) and of [LagrangePolynomial] (Java: the [Fraction] class, the
    [SimpleJSON] reader, [convertBase] and [main]), followed by the
    properties of these programs.

    BigInt and BigInteger values are [Z]; the Numbers that count (indices,
    tallies, lengths) are [nat], and the Numbers [base] and [k], which the
    caller supplies, are [Z]; arrays are lists; a string is a [string] of the
    characters U+0000..U+00FF; a call that can throw returns a [completion]. *)

From Stdlib Require Import ZArith List Bool Ascii String Lia Znumtheory.
From Stdlib Require Import QArith Qreduction Qcanon Qfield Qabs.
From Stdlib Require Import Permutation Sorted FinFun DecimalString DecimalZ.
Import ListNotations.

Local Open Scope Z_scope.

(** ** Completions: a call either returns normally or throws *)

(** The exceptions the modelled code can raise, named after the operation of
    the run time that raises them. *)
Inductive exception : Type :=
  | RangeError_NaNToBigInt      (* BigInt(NaN) *)
  | RangeError_DivisionByZero   (* a BigInt division whose divisor is 0n *)
  | RangeError_CallStack        (* recursion that never reaches a return *)
  | TypeError_NullToBigInt      (* BigInt(null) *)
  | SyntaxError_StringToBigInt  (* BigInt(s), s not a numeral *)
  | ArithmeticException_DenominatorZero  (* Java: thrown by Fraction's constructor *)
  | ArithmeticException_DivideByZero.   (* Java: BigInteger.divide by zero *)

Inductive completion (A : Type) : Type :=
  | Normal (a : A)
  | Throw (e : exception).
Arguments Normal {A} a.
Arguments Throw {A} e.

(** A run of the interpolation code is observed through its completion and
    through the number of BigInt divisions ([/]) it has evaluated, the
    throwing one included. *)
Record run (A : Type) : Type := mkRun { divisions : nat; outcome : completion A }.
Arguments mkRun {A} divisions outcome.
Arguments divisions {A} r.
Arguments outcome {A} r.

Class Monad (m : Type -> Type) : Type :=
  { ret : forall {A}, A -> m A;
    bind : forall {A B}, m A -> (A -> m B) -> m B }.

#[export] Instance completion_monad : Monad completion :=
  { ret := fun A a => Normal a;
    bind := fun A B c f => match c with Normal a => f a | Throw e => Throw e end }.

#[export] Instance run_monad : Monad run :=
  { ret := fun A a => mkRun 0 (Normal a);
    bind := fun A B r f =>
      match outcome r with
      | Normal a => let r' := f a in mkRun (divisions r + divisions r') (outcome r')
      | Throw e => mkRun (divisions r) (Throw e)
      end }.

Notation "x <- c ;; k" := (bind c (fun x => k))
  (at level 61, c at next level, right associativity).
Notation "' pat <- c ;; k" := (bind c (fun x => match x with pat => k end))
  (at level 61, pat pattern, c at next level, right associativity).

(** A step that performs no division. *)
Definition lift {A} (c : completion A) : run A := mkRun 0 c.

(** [a / b] on BigInt: truncates toward zero, throws on [b = 0n]. *)
Definition bigint_div (a b : Z) : run Z :=
  mkRun 1 (if b =? 0 then Throw RangeError_DivisionByZero else Normal (Z.quot a b)).

Module IndexJs.

(** *** [decodeValue] *)

(** [String.prototype.toLowerCase] on the code points U+0000..U+00FF, the
    characters a [string] of [ascii] holds: 'A'..'Z' and the Latin-1 capitals
    U+00C0..U+00DE (U+00D7 apart) move 32 places up. *)
Definition toLowerCase_char (c : ascii) : ascii :=
  let n := N_of_ascii c in
  if ((65 <=? n) && (n <=? 90) ||
      (192 <=? n) && (n <=? 222) && negb (n =? 215))%N
  then ascii_of_N (n + 32) else c.

Fixpoint toLowerCase (s : string) : string :=
  match s with
  | EmptyString => EmptyString
  | String c s' => String (toLowerCase_char c) (toLowerCase s')
  end.

(** The value of a character as a digit of [parseInt]: '0'..'9', 'a'..'z' and
    'A'..'Z'. *)
Definition parseInt_digit (c : ascii) : option Z :=
  let n := Z.of_N (N_of_ascii c) in
  if (48 <=? n) && (n <=? 57) then Some (n - 48)
  else if (97 <=? n) && (n <=? 122) then Some (n - 87)
  else if (65 <=? n) && (n <=? 90) then Some (n - 55)
  else None.

Definition ToInt32 (n : Z) : Z := (n + 2 ^ 31) mod 2 ^ 32 - 2 ^ 31.

(** [parseInt(char, radix)] for a string [char] of one character; [None] is
    NaN. White space and a sign are skipped and leave no digit, a radix of 0
    reads as 10, a radix outside 2..36 gives NaN, and the one character must be
    a digit below the radix. *)
Definition parseInt (char : ascii) (radix : Z) : option Z :=
  let R := ToInt32 radix in
  let R' := if R =? 0 then 10 else R in
  if (R' <? 2) || (36 <? R') then None
  else match parseInt_digit char with
       | Some v => if v <? R' then Some v else None
       | None => None
       end.

(** [BigInt(n)] for a Number [n] that is an integer or NaN. *)
Definition BigInt_of_Number (n : option Z) : completion Z :=
  match n with
  | Some v => Normal v
  | None => Throw RangeError_NaNToBigInt
  end.

(** The [for ... of] loop of [decodeValue]. [base] is an integer Number, and
    [parseInt(base)], which reads the numeral of [base], is taken to be [base]
    again: this holds where the numeral has no exponent, below 1e21 in
    absolute value, and the theorems on [decodeValue] bound [base]
    within that range. *)
Fixpoint decodeValue_loop (base bigBase : Z) (chars : string) (result : Z)
  : completion Z :=
  match chars with
  | EmptyString => Normal result
  | String char rest =>
      digit <- BigInt_of_Number (parseInt char base) ;;
      decodeValue_loop base bigBase rest (result * bigBase + digit)
  end.

Definition decodeValue (base : Z) (valueStr : string) : completion Z :=
  let bigBase := base in
  decodeValue_loop base bigBase (toLowerCase valueStr) 0.

(** *** [lagrangeAtZero] and its local functions *)

Record point : Type := mkPoint { x : Z; y : Z }.

(** [while (b !== 0n) { [a, b] = [b, a % b]; }]: [fuel] bounds the number of
    turns; [gcd] below supplies more turns than the loop can take. *)
Fixpoint gcd_loop (fuel : nat) (a b : Z) : Z :=
  match fuel with
  | O => a
  | S fuel' => if b =? 0 then a else gcd_loop fuel' b (Z.rem a b)
  end.

Definition gcd (a b : Z) : Z :=
  let a := if a <? 0 then - a else a in
  let b := if b <? 0 then - b else b in
  gcd_loop (S (Z.to_nat b)) a b.

(** A fraction is the array [[n, d]] of two BigInts. *)
Abbreviation frac := (Z * Z)%type.

Definition simplify (n d : Z) : run frac :=
  let '(n, d) := if d <? 0 then (- n, - d) else (n, d) in
  let g := gcd (if n <? 0 then - n else n) d in
  n' <- bigint_div n g ;;
  d' <- bigint_div d g ;;
  ret (n', d').

Definition addFrac (f1 f2 : frac) : run frac :=
  let '(n1, d1) := f1 in
  let '(n2, d2) := f2 in
  simplify (n1 * d2 + n2 * d1) (d1 * d2).

Definition mulFrac (f1 f2 : frac) : run frac :=
  let '(n1, d1) := f1 in
  let '(n2, d2) := f2 in
  simplify (n1 * n2) (d1 * d2).

(** The inner loop: [j] runs over the indices of [points]; [ps] is what is
    left of [points] from index [j] on. *)
Fixpoint basis_loop (xi : Z) (i j : nat) (ps : list point) (num den : Z)
  : Z * Z :=
  match ps with
  | [] => (num, den)
  | pj :: ps' =>
      if negb (Nat.eqb i j)
      then basis_loop xi i (S j) ps' (num * (0 - x pj)) (den * (xi - x pj))
      else basis_loop xi i (S j) ps' num den
  end.

(** The outer loop: [ps] is what is left of [points] from index [i] on. *)
Fixpoint sum_loop (points : list point) (i : nat) (ps : list point)
  (result : frac) : run frac :=
  match ps with
  | [] => ret result
  | pi :: ps' =>
      let xi := x pi in
      let yi := y pi in
      let '(num, den) := basis_loop xi i 0 points 1 1 in
      s <- simplify num den ;;
      t <- mulFrac (yi, 1) s ;;
      result' <- addFrac result t ;;
      sum_loop points (S i) ps' result'
  end.

Definition lagrangeAtZero (points : list point) : run Z :=
  result <- sum_loop points 0 points (0, 1) ;;
  bigint_div (fst result) (snd result).

(** *** [combinations] *)

(** [r] is an integer Number. With [arr] empty and [r] negative neither guard
    fires, [first] is undefined, [rest] is empty again and the call repeats
    itself on [([], r - 1)]: no guard can fire any more and the recursion ends
    with the call stack exhausted. This is the [[]] branch below. *)
Fixpoint combinations {A : Type} (arr : list A) (r : Z)
  : completion (list (list A)) :=
  if r =? 0 then Normal [[]]
  else if Z.of_nat (List.length arr) <? r then Normal []
  else match arr with
       | [] => Throw RangeError_CallStack
       | first :: rest =>
           withFirst <- combinations rest (r - 1) ;;
           without <- combinations rest r ;;
           Normal (map (fun c => first :: c) withFirst ++ without)
       end.

(** *** [findSecret] *)

(** [n.toString()] of a BigInt, and [BigInt(s)] on the decimal numerals that
    [toString] produces (the keys of [freq] are nothing else). *)
Definition toString (n : Z) : string := NilZero.string_of_int (Z.to_int n).

Definition BigInt_of_string (s : string) : completion Z :=
  match NilZero.int_of_string s with
  | Some d => Normal (Z.of_int d)
  | None => Throw SyntaxError_StringToBigInt
  end.

(** A [Map] from strings to counts: its entries in insertion order. [set] on a
    key that is present replaces the value where the key stands. *)
Definition Map : Type := list (string * nat).

Fixpoint Map_get (m : Map) (key : string) : option nat :=
  match m with
  | [] => None
  | (k, v) :: m' => if String.eqb k key then Some v else Map_get m' key
  end.

Fixpoint Map_set (m : Map) (key : string) (value : nat) : Map :=
  match m with
  | [] => [(key, value)]
  | (k, v) :: m' =>
      if String.eqb k key then (k, value) :: m' else (k, v) :: Map_set m' key value
  end.

(** [freq.get(secret) || 0]: an absent key and a count of 0 both give 0. *)
Definition get_or_0 (m : Map) (key : string) : nat :=
  match Map_get m key with
  | Some v => v
  | None => 0%nat
  end.

Fixpoint tally_loop (combos : list (list point)) (freq : Map) : run Map :=
  match combos with
  | [] => ret freq
  | combo :: combos' =>
      v <- lagrangeAtZero combo ;;
      let secret := toString v in
      tally_loop combos' (Map_set freq secret (get_or_0 freq secret + 1))
  end.

(** [best] is [null] ([None]) until an entry beats [bestCount]. *)
Fixpoint best_loop (entries : list (string * nat)) (best : option string)
  (bestCount : nat) : option string * nat :=
  match entries with
  | [] => (best, bestCount)
  | (val, count) :: entries' =>
      if (bestCount <? count)%nat
      then best_loop entries' (Some val) count
      else best_loop entries' best bestCount
  end.

(** [BigInt(best)] *)
Definition BigInt_of_best (best : option string) : completion Z :=
  match best with
  | None => Throw TypeError_NullToBigInt
  | Some s => BigInt_of_string s
  end.

Record RecoveryResult : Type :=
  mkResult { secret : Z; count : nat; total : nat }.

Definition findSecret (points : list point) (k : Z) : run RecoveryResult :=
  allCombos <- lift (combinations points k) ;;
  freq <- tally_loop allCombos [] ;;
  let '(best, bestCount) := best_loop freq None 0 in
  secret <- lift (BigInt_of_best best) ;;
  ret (mkResult secret bestCount (List.length allCombos)).

End IndexJs.

(** ** The [Fraction] class of [LagrangePolynomial] *)

Module LagrangePolynomial.

Record Fraction : Type := mkFraction { num : Z; den : Z }.

(** [BigInteger.divide]: truncates toward zero, throws on a zero divisor. *)
Definition BigInteger_divide (a b : Z) : completion Z :=
  if b =? 0 then Throw ArithmeticException_DivideByZero else Normal (Z.quot a b).

(** The constructor [Fraction(n, d)]. [BigInteger.gcd] is the greatest common
    divisor of the absolute values, and 0 when both are 0: [Z.gcd]. *)
Definition new_Fraction (n d : Z) : completion Fraction :=
  if Z.sgn d =? 0 then Throw ArithmeticException_DenominatorZero
  else
    let '(n, d) := if Z.sgn d <? 0 then (- n, - d) else (n, d) in
    let gcd := Z.gcd n d in
    num <- BigInteger_divide n gcd ;;
    den <- BigInteger_divide d gcd ;;
    Normal (mkFraction num den).

Definition add (this f : Fraction) : completion Fraction :=
  let n := num this * den f + num f * den this in
  let d := den this * den f in
  new_Fraction n d.

Definition multiply (this f : Fraction) : completion Fraction :=
  new_Fraction (num this * num f) (den this * den f).

Definition subtract (this f : Fraction) : completion Fraction :=
  negated <- new_Fraction (- num f) (den f) ;;
  add this negated.

Definition divide (this f : Fraction) : completion Fraction :=
  new_Fraction (num this * den f) (den this * num f).

(** [Fraction.ZERO] and [Fraction.ONE]: what [new Fraction(0, 1)] and
    [new Fraction(1, 1)] construct when the class is loaded. *)
Definition ZERO : Fraction := mkFraction 0 1.
Definition ONE : Fraction := mkFraction 1 1.

(** [toString]; [BigInteger.toString()] is the decimal numeral. *)
Definition toString (this : Fraction) : string :=
  if den this =? 1 then IndexJs.toString (num this)
  else (IndexJs.toString (num this) ++ "/" ++ IndexJs.toString (den this))%string.

(** The computation of [main] between the parsing of its input and the
    printing of its result, on the list [roots] of the entries (x, y) and the
    threshold [k]. *)

(** [roots.sort(Map.Entry.comparingByKey())]: the entries in ascending order
    of x, entries of equal x in the order they had (the library's sort is
    stable); written here as an insertion sort. *)
Fixpoint insert_by_key (e : Z * Z) (sorted : list (Z * Z)) : list (Z * Z) :=
  match sorted with
  | [] => [e]
  | e' :: sorted' =>
      if fst e <=? fst e' then e :: sorted else e' :: insert_by_key e sorted'
  end.

Fixpoint sort_by_key (roots : list (Z * Z)) : list (Z * Z) :=
  match roots with
  | [] => []
  | e :: roots' => insert_by_key e (sort_by_key roots')
  end.

(** The inner loop over [j]: [used] is what is left, from index [j] on, of
    the first [pointsToUse] roots. *)
Fixpoint li_loop (xi : Z) (i j : nat) (used : list (Z * Z)) (li : Fraction)
  : completion Fraction :=
  match used with
  | [] => Normal li
  | (xj, _) :: used' =>
      if Nat.eqb i j then li_loop xi i (S j) used' li
      else
        numerator <- new_Fraction (- xj) 1 ;;
        denominator <- new_Fraction (xi - xj) 1 ;;
        product <- multiply li numerator ;;
        li' <- divide product denominator ;;
        li_loop xi i (S j) used' li'
  end.

(** The outer loop over [i]: [rest] is what is left of [used] from index [i]
    on. *)
Fixpoint constantTerm_loop (used : list (Z * Z)) (i : nat) (rest : list (Z * Z))
  (constantTerm : Fraction) : completion Fraction :=
  match rest with
  | [] => Normal constantTerm
  | (xi, yi) :: rest' =>
      li <- li_loop xi i 0 used ONE ;;
      yiFraction <- new_Fraction yi 1 ;;
      term <- multiply yiFraction li ;;
      constantTerm' <- add constantTerm term ;;
      constantTerm_loop used (S i) rest' constantTerm'
  end.

(** [pointsToUse = Math.min(k, roots.size())]; a [k] below 1 leaves both
    loops without a turn. *)
Definition used_roots (roots : list (Z * Z)) (k : Z) : list (Z * Z) :=
  let sorted := sort_by_key roots in
  let pointsToUse := Z.min k (Z.of_nat (List.length sorted)) in
  firstn (Z.to_nat pointsToUse) sorted.

Definition constantTerm (roots : list (Z * Z)) (k : Z) : completion Fraction :=
  let used := used_roots roots k in
  constantTerm_loop used 0 used ZERO.

End LagrangePolynomial.

(** ** The [SimpleJSON] class of [LagrangePolynomial] *)

Module SimpleJSON.

(** A Java [String] is the list of its chars, here U+0000..U+00FF. *)
Definition JavaString : Type := list ascii.

Definition str (s : string) : JavaString := list_ascii_of_string s.

(** The double quote, U+0022, and the backslash, U+005C. *)
Definition quote : ascii := "034"%char.
Definition backslash : ascii := "092"%char.

(** What a call of this class can throw. [StackOverflowError] is what a
    recursion deeper than the stack throws. *)
Inductive throwable : Type :=
  | RuntimeException_InvalidJSON
  | RuntimeException_NotAnObject (key : JavaString)
  | StringIndexOutOfBoundsException
  | NumberFormatException
  | NullPointerException
  | StackOverflowError.

Inductive call (A : Type) : Type :=
  | Returns (a : A)
  | Throws (e : throwable).
Arguments Returns {A} a.
Arguments Throws {A} e.

#[export] Instance call_monad : Monad call :=
  { ret := fun A a => Returns a;
    bind := fun A B c f => match c with Returns a => f a | Throws e => Throws e end }.

(** *** The methods of [java.lang.String] that the class calls *)

(** [trim] removes the chars up to U+0020 from both ends. *)
Definition is_whitespace (c : ascii) : bool := (N_of_ascii c <=? 32)%N.

Fixpoint trim_leading (s : JavaString) : JavaString :=
  match s with
  | [] => []
  | c :: s' => if is_whitespace c then trim_leading s' else s
  end.

Definition trim (s : JavaString) : JavaString :=
  rev (trim_leading (rev (trim_leading s))).

Definition substring (s : JavaString) (beginIndex endIndex : nat) : call JavaString :=
  if (beginIndex <=? endIndex)%nat && (endIndex <=? List.length s)%nat
  then Returns (firstn (endIndex - beginIndex) (skipn beginIndex s))
  else Throws StringIndexOutOfBoundsException.

(** [indexOf(ch)]: [None] is the -1 of no occurrence. *)
Fixpoint indexOf (s : JavaString) (ch : ascii) : option nat :=
  match s with
  | [] => None
  | c :: s' => if Ascii.eqb c ch then Some 0%nat else option_map S (indexOf s' ch)
  end.

Fixpoint startsWith (s prefix : JavaString) {struct prefix} : bool :=
  match prefix, s with
  | [], _ => true
  | _ :: _, [] => false
  | p :: prefix', c :: s' => Ascii.eqb c p && startsWith s' prefix'
  end.

Definition endsWith (s suffix : JavaString) : bool :=
  startsWith (rev s) (rev suffix).

Definition equals (s t : JavaString) : bool :=
  if list_eq_dec ascii_dec s t then true else false.

Definition isEmpty (s : JavaString) : bool :=
  match s with [] => true | _ :: _ => false end.

(** [Integer.parseInt] and [Long.parseLong]: an optional sign, then one or
    more of the digits 0..9, the value within the range of the type. *)
Definition decimal (s : JavaString) : option Z :=
  match s with
  | [] => None
  | c :: digits =>
      if Ascii.eqb c "+" then
        option_map Z.of_uint (NilZero.uint_of_string (string_of_list_ascii digits))
      else option_map Z.of_int (NilZero.int_of_string (string_of_list_ascii s))
  end.

Definition Integer_parseInt (s : JavaString) : call Z :=
  match decimal s with
  | Some n =>
      if (- 2 ^ 31 <=? n) && (n <? 2 ^ 31) then Returns n
      else Throws NumberFormatException
  | None => Throws NumberFormatException
  end.

Definition Long_parseLong (s : JavaString) : call Z :=
  match decimal s with
  | Some n =>
      if (- 2 ^ 63 <=? n) && (n <? 2 ^ 63) then Returns n
      else Throws NumberFormatException
  | None => Throws NumberFormatException
  end.

(** *** Values and maps *)

(** The [Object]s that [parse] builds. *)
#[warnings="-register-all"] Inductive Object : Type :=
  | ONull
  | OBoolean (b : bool)
  | OInteger (n : Z)
  | OLong (n : Z)
  | OString (s : JavaString)
  | OMap (entries : list (JavaString * Object)).

(** A [LinkedHashMap]: its entries in insertion order. [put] on a key that is
    present replaces the value where the key stands; [get] of an absent key
    is [null]. *)
Definition Map : Type := list (JavaString * Object).

Fixpoint put (map : Map) (key : JavaString) (value : Object) : Map :=
  match map with
  | [] => [(key, value)]
  | (k, v) :: map' =>
      if equals k key then (k, value) :: map' else (k, v) :: put map' key value
  end.

Fixpoint get (map : Map) (key : JavaString) : Object :=
  match map with
  | [] => ONull
  | (k, v) :: map' => if equals k key then v else get map' key
  end.

(** *** [addPair] and [parse] *)

(** [addPair(map, pair)], which calls [parse] on a value that starts with a
    brace: [parse] is the function to call there. The map is returned
    instead of being updated in place. *)
Definition addPair (parse : JavaString -> call Map) (map : Map) (pair : JavaString)
  : call Map :=
  match indexOf pair ":" with
  | None => Returns map
  | Some colonIndex =>
      key <- substring pair 0 colonIndex ;;
      let key := trim key in
      value <- substring pair (colonIndex + 1) (List.length pair) ;;
      let value := trim value in
      key <- (if startsWith key [quote] && endsWith key [quote]
              then substring key 1 (List.length key - 1)
              else Returns key) ;;
      parsedValue <-
        (if startsWith value (str "{") then
           object <- parse value ;; Returns (OMap object)
         else if startsWith value [quote] then
           s <- substring value 1 (List.length value - 1) ;; Returns (OString s)
         else if equals value (str "true") then Returns (OBoolean true)
         else if equals value (str "false") then Returns (OBoolean false)
         else if equals value (str "null") then Returns ONull
         else
           match Integer_parseInt value with
           | Returns n => Returns (OInteger n)
           | Throws _ =>
               match Long_parseLong value with
               | Returns n => Returns (OLong n)
               | Throws _ => Returns (OString value)
               end
           end) ;;
      Returns (put map key parsedValue)
  end.

(** The variables of the loop of [parse]. *)
Record scanner : Type :=
  mkScanner { braceCount : Z; start : nat; inString : bool; escape : bool;
              result : Map }.

(** The loop of [parse] from index [i] on; [rest] holds the chars of [json]
    from index [i] to the last but one. *)
Fixpoint parse_loop (addPair : Map -> JavaString -> call Map) (json : JavaString)
  (i : nat) (rest : JavaString) (st : scanner) : call scanner :=
  match rest with
  | [] => Returns st
  | c :: rest' =>
      if escape st then
        parse_loop addPair json (S i) rest'
          (mkScanner (braceCount st) (start st) (inString st) false (result st))
      else if Ascii.eqb c backslash then
        parse_loop addPair json (S i) rest'
          (mkScanner (braceCount st) (start st) (inString st) true (result st))
      else if Ascii.eqb c quote then
        parse_loop addPair json (S i) rest'
          (mkScanner (braceCount st) (start st) (negb (inString st)) false (result st))
      else if inString st then parse_loop addPair json (S i) rest' st
      else
        let braceCount := if Ascii.eqb c "{" then braceCount st + 1 else braceCount st in
        let braceCount := if Ascii.eqb c "}" then braceCount - 1 else braceCount in
        if Ascii.eqb c "," && (braceCount =? 0) then
          pair <- substring json (start st) i ;;
          result <- addPair (result st) (trim pair) ;;
          parse_loop addPair json (S i) rest'
            (mkScanner braceCount (i + 1) false false result)
        else
          parse_loop addPair json (S i) rest'
            (mkScanner braceCount (start st) false false (result st))
  end.

(** The body of [parse(json)], with the function [parse] to call on nested
    objects. *)
Definition parse_body (parse : JavaString -> call Map) (json : JavaString) : call Map :=
  let json := trim json in
  if negb (startsWith json (str "{")) || negb (endsWith json (str "}")) then
    Throws RuntimeException_InvalidJSON
  else
    let interior := firstn (List.length json - 2) (skipn 1 json) in
    st <- parse_loop (addPair parse) json 1 interior (mkScanner 0 1 false false []) ;;
    lastPair <- substring json (start st) (List.length json - 1) ;;
    let lastPair := trim lastPair in
    if negb (isEmpty lastPair) then addPair parse (result st) lastPair
    else Returns (result st).

(** [parse]: a nested object is a proper part of the text, so a depth of
    recursion of the length of the text is never exceeded
    ([parse_unfold]). *)
Fixpoint parse_depth (depth : nat) (json : JavaString) : call Map :=
  match depth with
  | O => Throws StackOverflowError
  | S depth' => parse_body (parse_depth depth') json
  end.

Definition parse (json : JavaString) : call Map :=
  parse_depth (S (List.length json)) json.

(** *** The accessors *)

(** [String.valueOf(obj)]: "null" for [null], and [obj.toString()] otherwise;
    a map is written {key=value, ...}. *)
Fixpoint String_valueOf (obj : Object) : JavaString :=
  match obj with
  | ONull => str "null"
  | OBoolean b => str (if b then "true" else "false")
  | OInteger n | OLong n => str (IndexJs.toString n)
  | OString s => s
  | OMap entries =>
      "{"%char
      :: (fix entries_text (entries : list (JavaString * Object)) : JavaString :=
            match entries with
            | [] => []
            | (key, value) :: entries' =>
                key ++ "="%char :: String_valueOf value
                ++ match entries' with
                   | [] => []
                   | _ :: _ => str ", " ++ entries_text entries'
                   end
            end) entries
      ++ ["}"%char]
  end.

(** [obj.toString()]: on [null] it throws. *)
Definition Object_toString (obj : Object) : call JavaString :=
  match obj with
  | ONull => Throws NullPointerException
  | _ => Returns (String_valueOf obj)
  end.

(** [intValue()] of a [Long]: its low 32 bits, signed. *)
Definition Long_intValue (n : Z) : Z := (n + 2 ^ 31) mod 2 ^ 32 - 2 ^ 31.

Definition getObject (map : Map) (key : JavaString) : call Map :=
  match get map key with
  | OMap object => Returns object
  | _ => Throws (RuntimeException_NotAnObject key)
  end.

Definition getInt (map : Map) (key : JavaString) : call Z :=
  match get map key with
  | OInteger n => Returns n
  | OLong n => Returns (Long_intValue n)
  | obj => s <- Object_toString obj ;; Integer_parseInt s
  end.

Definition getString (map : Map) (key : JavaString) : call JavaString :=
  Object_toString (get map key).

End SimpleJSON.

(** ** [convertBase] and [main] of [LagrangePolynomial] *)

Module Main.
Import SimpleJSON.

(** [Character.digit(c, radix)] for a radix in 2..36: '0'..'9' are 0..9 and
    the letters, in either case, 10..35; [None] is the -1 of a char that is no
    digit of the radix. *)
Definition Character_digit (c : ascii) (radix : Z) : option Z :=
  let n := Z.of_N (N_of_ascii c) in
  let value :=
    if (48 <=? n) && (n <=? 57) then Some (n - 48)
    else if (97 <=? n) && (n <=? 122) then Some (n - 97 + 10)
    else if (65 <=? n) && (n <=? 90) then Some (n - 65 + 10)
    else None in
  match value with
  | Some v => if v <? radix then Some v else None
  | None => None
  end.

Fixpoint magnitude_loop (radix : Z) (digits : JavaString) (magnitude : Z) : call Z :=
  match digits with
  | [] => Returns magnitude
  | c :: digits' =>
      match Character_digit c radix with
      | Some digit => magnitude_loop radix digits' (magnitude * radix + digit)
      | None => Throws NumberFormatException
      end
  end.

Definition magnitude (radix : Z) (digits : JavaString) : call Z :=
  match digits with
  | [] => Throws NumberFormatException
  | _ :: _ => magnitude_loop radix digits 0
  end.

(** [new BigInteger(val, radix)]: the radix is in 2..36 and [val] is an
    optional sign followed by one or more digits of the radix, or it throws a
    NumberFormatException. *)
Definition new_BigInteger (val : JavaString) (radix : Z) : call Z :=
  if (radix <? 2) || (36 <? radix) then Throws NumberFormatException
  else
    match val with
    | [] => Throws NumberFormatException
    | c :: digits =>
        if Ascii.eqb c "-" then m <- magnitude radix digits ;; Returns (- m)
        else if Ascii.eqb c "+" then magnitude radix digits
        else magnitude radix val
    end.

Definition convertBase (value : JavaString) (base : Z) : call Z :=
  new_BigInteger value base.

(** The loop of [main] over [json.keySet()]. *)
Fixpoint roots_loop (json : Map) (keySet : list JavaString) (roots : list (Z * Z))
  : call (list (Z * Z)) :=
  match keySet with
  | [] => Returns roots
  | key :: keySet' =>
      if equals key (str "keys") then roots_loop json keySet' roots
      else
        x <- new_BigInteger key 10 ;;
        root <- getObject json key ;;
        baseString <- getString root (str "base") ;;
        base <- Integer_parseInt baseString ;;
        value <- getString root (str "value") ;;
        y <- convertBase value base ;;
        roots_loop json keySet' (roots ++ [(x, y)])
  end.

(** How a run of [main] ends: it prints a line, or an exception leaves it. *)
Inductive termination : Type :=
  | Prints (line : string)
  | Uncaught (e : throwable)
  | UncaughtArithmetic (e : exception).

(** [main] on the lines of the standard input. *)
Definition main (lines : list JavaString) : termination :=
  let jsonInput := List.concat lines in
  match
    (json <- parse jsonInput ;;
     keys <- getObject json (str "keys") ;;
     k <- getInt keys (str "k") ;;
     roots <- roots_loop json (List.map fst json) [] ;;
     Returns (roots, k))
  with
  | Throws e => Uncaught e
  | Returns (roots, k) =>
      match LagrangePolynomial.constantTerm roots k with
      | Normal constantTerm => Prints (LagrangePolynomial.toString constantTerm)
      | Throw e => UncaughtArithmetic e
      end
  end.

End Main.

Import IndexJs.

(** ** Notions of the specification *)

(** The digit value of a character: '0'..'9' are 0..9, and 'a'..'z', in either
    case, are 10..35; no other character has one. *)
Definition digitValue (c : ascii) : option Z :=
  let n := Z.of_nat (nat_of_ascii c) in
  if (Z.of_nat (nat_of_ascii "0") <=? n) && (n <=? Z.of_nat (nat_of_ascii "9"))
  then Some (n - Z.of_nat (nat_of_ascii "0"))
  else if (Z.of_nat (nat_of_ascii "a") <=? n) && (n <=? Z.of_nat (nat_of_ascii "z"))
  then Some (10 + (n - Z.of_nat (nat_of_ascii "a")))
  else if (Z.of_nat (nat_of_ascii "A") <=? n) && (n <=? Z.of_nat (nat_of_ascii "Z"))
  then Some (10 + (n - Z.of_nat (nat_of_ascii "A")))
  else None.


(** A character that is a digit of the base. *)
Definition valid_digit (base : Z) (c : ascii) : Prop :=
  exists v, digitValue c = Some v /\ v < base.

(** A character whose digit value is undefined, or not below the base. *)
Definition invalid_digit (base : Z) (c : ascii) : Prop :=
  match digitValue c with
  | None => True
  | Some v => base <= v
  end.

(** Canonical form of a fraction: positive denominator, lowest terms. *)
Definition canonical (n d : Z) : Prop :=
  0 < d /\ Z.gcd (Z.abs n) d = 1.

(** A run, or a Java call, that produces a fraction in canonical form. *)
Definition produces_canonical (r : run frac) : Prop :=
  exists n d, outcome r = Normal (n, d) /\ canonical n d.

Definition constructs_canonical (c : completion LagrangePolynomial.Fraction) : Prop :=
  exists f, c = Normal f /\
            canonical (LagrangePolynomial.num f) (LagrangePolynomial.den f).

(** The number of [k]-element subsets of an [n]-element set, by Pascal's
    rule; [binomial_factorial] below relates it to the factorials. *)
Fixpoint binomial (n k : nat) : nat :=
  match n, k with
  | _, O => 1
  | O, S _ => 0
  | S n', S k' => binomial n' k' + binomial n' k
  end.

(** [subseq s l]: [s] is [l] with some elements left out, the others in the
    order they have in [l]. *)
Inductive subseq {A : Type} : list A -> list A -> Prop :=
  | subseq_nil : subseq [] []
  | subseq_skip (a : A) (s l : list A) : subseq s l -> subseq s (a :: l)
  | subseq_take (a : A) (s l : list A) : subseq s l -> subseq (a :: s) (a :: l).

(** Lexicographic order on lists of array indices. *)
Fixpoint lex_lt (a b : list nat) : Prop :=
  match a, b with
  | _, [] => False
  | [], _ :: _ => True
  | i :: a', j :: b' => (i < j)%nat \/ (i = j /\ lex_lt a' b')
  end.

(** The points have pairwise distinct abscissas. *)
Definition distinct_x (points : list point) : Prop := NoDup (map x points).

(** Two points of the list, at different indices, share their abscissa. *)
Definition duplicate_x (points : list point) : Prop :=
  exists i j pi pj, i <> j /\ nth_error points i = Some pi /\
                    nth_error points j = Some pj /\ x pi = x pj.

(** The exact rational Lagrange sum at zero: the factor of point [j] in the
    basis value of a point with abscissa [xi], the basis value
    [L_i(0) = prod_(j <> i) (0 - x_j) / (x_i - x_j)] as a product over the
    indices [j] of the list, and the sum of [y_i * L_i(0)] over the indices
    [i]. *)
Definition basis_factor (xi : Z) (pj : point) : Q :=
  (inject_Z (0 - x pj) / inject_Z (xi - x pj))%Q.

Fixpoint basis_product (xi : Z) (i j : nat) (ps : list point) : Q :=
  match ps with
  | [] => 1%Q
  | pj :: ps' =>
      ((if Nat.eqb j i then 1 else basis_factor xi pj)
       * basis_product xi i (S j) ps')%Q
  end.

Fixpoint sum_from (points : list point) (i : nat) (ps : list point) : Q :=
  match ps with
  | [] => 0%Q
  | pi :: ps' =>
      (inject_Z (y pi) * basis_product (x pi) i 0 points
       + sum_from points (S i) ps')%Q
  end.

Definition lagrange_sum (points : list point) : Q := sum_from points 0 points.

(** The same sum with the other points told apart by their abscissa instead of
    their index; the two agree on distinct abscissas. *)
Fixpoint basis_by_value (xi : Z) (ps : list point) : Q :=
  match ps with
  | [] => 1%Q
  | pj :: ps' =>
      ((if x pj =? xi then 1 else basis_factor xi pj) * basis_by_value xi ps')%Q
  end.

Fixpoint sum_by_value (points ps : list point) : Q :=
  match ps with
  | [] => 0%Q
  | pi :: ps' =>
      (inject_Z (y pi) * basis_by_value (x pi) points + sum_by_value points ps')%Q
  end.

(** The rational number a pair of BigInts stands for. *)
Definition toQ (f : frac) : Q := (inject_Z (fst f) / inject_Z (snd f))%Q.

(** A rational number in lowest terms with its numerator divided by its
    denominator as BigInt division does it: truncated toward zero. *)
Definition truncated (q : Q) : Z :=
  Z.quot (Qnum (Qred q)) (Z.pos (Qden (Qred q))).

(** The rational number is an integer: its denominator in lowest terms is 1. *)
Definition integer_valued (q : Q) : Prop := Qden (Qred q) = 1%positive.

(** A run of the rational arithmetic that is lost to a zero denominator: it
    has thrown the division's RangeError, or its fraction has denominator 0. *)
Definition zero_denominator (r : run frac) : Prop :=
  outcome r = Throw RangeError_DivisionByZero \/ exists n, outcome r = Normal (n, 0).

(** The distinct values of a list, in the order of their first occurrence. *)
Fixpoint firsts (vs : list Z) : list Z :=
  match vs with
  | [] => []
  | v :: vs' => v :: filter (fun w => negb (w =? v)) (firsts vs')
  end.

(** The frequency map after the values [vs] were tallied one by one: a key
    for each distinct value, in the order of first occurrence, with the number
    of occurrences. *)
Definition tally_of (vs : list Z) : Map :=
  map (fun v => (toString v, count_occ Z.eq_dec vs v)) (firsts vs).

(** A polynomial with integer coefficients, lowest degree first, and its
    value at [t]; the shared secret is its value at 0. *)
Fixpoint eval_poly (coeffs : list Z) (t : Z) : Z :=
  match coeffs with
  | [] => 0
  | c :: coeffs' => c + t * eval_poly coeffs' t
  end.

(** The point lies on the polynomial. *)
Definition on_poly (coeffs : list Z) (p : point) : Prop :=
  y p = eval_poly coeffs (x p).

Definition on_polyb (coeffs : list Z) (p : point) : bool :=
  y p =? eval_poly coeffs (x p).

(** The quotient of the polynomial by [t - a] (synthetic division); the
    remainder is the value at [a]. *)
Fixpoint quotient_poly (coeffs : list Z) (a : Z) : list Z :=
  match coeffs with
  | [] => []
  | _ :: coeffs' =>
      match coeffs' with
      | [] => []
      | _ :: _ => eval_poly coeffs' a :: quotient_poly coeffs' a
      end
  end.

(** The basis value at zero of the abscissa [xi] among the abscissas [xs], and
    the sum of the basis values of [xs] among [all], weighted by [f]. *)
Fixpoint basis_of (xi : Z) (xs : list Z) : Q :=
  match xs with
  | [] => 1%Q
  | xj :: xs' =>
      ((if xj =? xi then 1 else inject_Z (0 - xj) / inject_Z (xi - xj))
       * basis_of xi xs')%Q
  end.

Fixpoint weighted_sum (f : Z -> Q) (all xs : list Z) : Q :=
  match xs with
  | [] => 0%Q
  | xi :: xs' => (f xi * basis_of xi all + weighted_sum f all xs')%Q
  end.

(** An entry (x, y) of the Java program as a point, and the rational number a
    [Fraction] stands for. *)
Definition point_of (e : Z * Z) : point := mkPoint (fst e) (snd e).

Definition ratio (f : LagrangePolynomial.Fraction) : Q :=
  toQ (LagrangePolynomial.num f, LagrangePolynomial.den f).

(** Entries in ascending order of abscissa. *)
Definition le_key (a b : Z * Z) : Prop := fst a <= fst b.

(** ** JSON texts *)

Module JsonText.
Import SimpleJSON.

(** The JSON values without arrays and fractions. *)
#[warnings="-register-all"] Inductive json_value : Type :=
  | JNull
  | JBool (b : bool)
  | JNumber (n : Z)
  | JString (s : JavaString)
  | JObject (members : list (JavaString * json_value)).

(** The texts, one after the other, with commas between them. *)
Fixpoint join (texts : list JavaString) : JavaString :=
  match texts with
  | [] => []
  | [text] => text
  | text :: texts' => text ++ ","%char :: join texts'
  end.

(** The text of a member: a pair of a key and a value, [ws] around each of
    its tokens. *)
Definition pair_text (ws key value : JavaString) : JavaString :=
  quote :: key ++ quote :: ws ++ ":"%char :: ws ++ value.

Definition member (ws key value : JavaString) : JavaString :=
  ws ++ pair_text ws key value ++ ws.

(** The text of a value: strings are written as they are between quotes,
    numbers in decimal, and [ws] stands around every key, colon and member
    value. *)
Fixpoint render (ws : JavaString) (v : json_value) : JavaString :=
  match v with
  | JNull => str "null"
  | JBool true => str "true"
  | JBool false => str "false"
  | JNumber n => str (IndexJs.toString n)
  | JString s => quote :: s ++ [quote]
  | JObject members =>
      "{"%char :: join (map (fun kv => member ws (fst kv) (render ws (snd kv))) members)
      ++ ["}"%char]
  end.

Definition member_text (ws : JavaString) (kv : JavaString * json_value) : JavaString :=
  member ws (fst kv) (render ws (snd kv)).

(** The object a value stands for: a number is an [Integer] when it fits
    in 32 bits and a [Long] otherwise; the members of an object are put in
    their order. *)
Definition collect (entries : list (JavaString * Object)) : Map :=
  fold_left (fun map kv => put map (fst kv) (snd kv)) entries [].

Fixpoint value_of (v : json_value) : Object :=
  match v with
  | JNull => ONull
  | JBool b => OBoolean b
  | JNumber n => if (- 2 ^ 31 <=? n) && (n <? 2 ^ 31) then OInteger n else OLong n
  | JString s => OString s
  | JObject members =>
      OMap (collect (map (fun kv => (fst kv, value_of (snd kv))) members))
  end.

(** A string that can stand between quotes: each backslash is followed by a
    char, and a quote only follows a backslash. A key has no colon. *)
Fixpoint escaped (s : JavaString) : bool :=
  match s with
  | [] => true
  | c :: s' =>
      if Ascii.eqb c backslash then
        match s' with
        | [] => false
        | _ :: s'' => escaped s''
        end
      else negb (Ascii.eqb c quote) && escaped s'
  end.

Definition plain_key (s : JavaString) : bool :=
  escaped s && forallb (fun c => negb (Ascii.eqb c ":")) s.

(** The values whose text [parse] reads back: strings and keys are escaped,
    numbers fit in 64 bits. *)
Fixpoint readable (v : json_value) : bool :=
  match v with
  | JNull | JBool _ => true
  | JNumber n => (- 2 ^ 63 <=? n) && (n <? 2 ^ 63)
  | JString s => escaped s
  | JObject members =>
      forallb (fun kv => plain_key (fst kv) && readable (snd kv)) members
  end.

(** The text of a test case: the object ["keys"] with [n] and [k], then one
    object per share, named by the decimal numeral of its abscissa, with the
    base, in decimal, and the digits of the ordinate as strings. *)
Definition share_member (share : Z * Z * JavaString) : JavaString * json_value :=
  let '(x, base, digits) := share in
  (str (IndexJs.toString x),
   JObject [(str "base", JString (str (IndexJs.toString base)));
            (str "value", JString digits)]).

Definition testcase (n k : Z) (shares : list (Z * Z * JavaString)) : json_value :=
  JObject ((str "keys", JObject [(str "n", JNumber n); (str "k", JNumber k)])
           :: List.map share_member shares).

(** Induction on a value with the members of an object at hand. *)
Fixpoint json_value_induction (P : json_value -> Prop)
  (Hnull : P JNull) (Hbool : forall b, P (JBool b)) (Hnumber : forall n, P (JNumber n))
  (Hstring : forall s, P (JString s))
  (Hobject : forall members, Forall (fun kv => P (snd kv)) members -> P (JObject members))
  (v : json_value) : P v :=
  match v with
  | JNull => Hnull
  | JBool b => Hbool b
  | JNumber n => Hnumber n
  | JString s => Hstring s
  | JObject members =>
      Hobject members
        ((fix all (ms : list (JavaString * json_value))
            : Forall (fun kv => P (snd kv)) ms :=
            match ms with
            | [] => Forall_nil _
            | kv :: ms' =>
                Forall_cons kv
                  (json_value_induction P Hnull Hbool Hnumber Hstring Hobject (snd kv))
                  (all ms')
            end) members)
  end.

(** The chars the loop of [parse] reacts to outside a string. *)
Definition special (c : ascii) : bool :=
  Ascii.eqb c backslash || Ascii.eqb c quote || Ascii.eqb c "{" || Ascii.eqb c "}"
  || Ascii.eqb c ",".

(** The chars of a decimal numeral. *)
Definition numeral_char (c : ascii) : bool :=
  Ascii.eqb c "-" || ((48 <=? N_of_ascii c)%N && (N_of_ascii c <=? 57)%N).

(** A text that [trim] leaves as it is: not empty, no whitespace at its
    ends. *)
Definition first_is (p : ascii -> bool) (s : JavaString) : bool :=
  match s with
  | [] => false
  | c :: _ => p c
  end.

Definition tight (s : JavaString) : bool :=
  first_is (fun c => negb (is_whitespace c)) s
  && first_is (fun c => negb (is_whitespace c)) (rev s).

(** A text over which the loop of [parse], outside a string and with a brace
    count of [depth] or more, goes without an effect on its variables. *)
Definition neutral (depth : Z) (text : JavaString) : Prop :=
  forall addPair json i rest braceCount start result,
    depth <= braceCount ->
    parse_loop addPair json i (text ++ rest)
      (mkScanner braceCount start false false result)
    = parse_loop addPair json (i + List.length text) rest
        (mkScanner braceCount start false false result).

End JsonText.

(** ** Decoding *)

Section Decode.

Lemma ToInt32_small (n : Z) : - 2 ^ 31 <= n < 2 ^ 31 -> ToInt32 n = n.
Proof.
  intros H. unfold ToInt32. rewrite Z.mod_small; lia.
Qed.

Lemma parseInt_in_range (c : ascii) (base : Z) :
  2 <= base <= 36 ->
  parseInt c base =
  match parseInt_digit c with
  | Some v => if v <? base then Some v else None
  | None => None
  end.
Proof.
  intros H. unfold parseInt. rewrite ToInt32_small by lia.
  destruct (Z.eqb_spec base 0); [lia|].
  destruct (Z.ltb_spec base 2); [lia|].
  destruct (Z.ltb_spec 36 base); [lia|]. reflexivity.
Qed.

(** Lower-casing and then reading a digit is the digit value of the
    specification, on every character. *)
Lemma parseInt_digit_toLowerCase (c : ascii) :
  parseInt_digit (toLowerCase_char c) = digitValue c.
Proof.
  destruct c as [b0 b1 b2 b3 b4 b5 b6 b7].
  destruct b0, b1, b2, b3, b4, b5, b6, b7; vm_compute; reflexivity.
Qed.


(** The loop throws exactly when it meets a character that is no digit of the
    base, and nothing else can make it throw. *)
Lemma decodeValue_loop_throws (base : Z) (s : string) :
  2 <= base <= 36 ->
  forall acc,
    (exists e, decodeValue_loop base base (toLowerCase s) acc = Throw e) <->
    Exists (fun c => ~ valid_digit base c) (list_ascii_of_string s).
Proof.
  intros Hb. induction s as [|c s IH]; simpl; intros acc.
  - split; [intros [e He]; discriminate | intros H; inversion H].
  - rewrite parseInt_in_range, parseInt_digit_toLowerCase by assumption.
    destruct (digitValue c) as [v|] eqn:Hc.
    + destruct (Z.ltb_spec v base) as [Hlt|Hge]; simpl.
      * rewrite IH. split; [intros H; now apply Exists_cons_tl|].
        intros H. inversion H as [? ? Hbad|]; subst; [|assumption].
        exfalso. apply Hbad. now exists v.
      * split; [intros _|intros _; now eexists].
        apply Exists_cons_hd. intros [v' [Hv' Hlt]]. rewrite Hc in Hv'.
        inversion Hv'; subst. lia.
    + simpl. split; [intros _|intros _; now eexists].
      apply Exists_cons_hd. intros [v' [Hv' _]]. rewrite Hc in Hv'. discriminate.
Qed.

Lemma decodeValue_loop_exception (base : Z) (s : string) :
  forall acc e,
    decodeValue_loop base base s acc = Throw e -> e = RangeError_NaNToBigInt.
Proof.
  induction s as [|c s IH]; simpl; intros acc e H; [discriminate|].
  destruct (parseInt c base); simpl in H; [eauto | congruence].
Qed.

Lemma invalid_digit_iff (base : Z) (c : ascii) :
  invalid_digit base c <-> ~ valid_digit base c.
Proof.
  unfold invalid_digit, valid_digit. destruct (digitValue c) as [v|].
  - split.
    + intros Hge [v' [Hv' Hlt]]. inversion Hv'; subst. lia.
    + intros Hn. destruct (Z_le_gt_dec base v); [assumption|].
      exfalso. apply Hn. exists v. split; [reflexivity | lia].
  - split; [intros _ [v [Hv _]]; discriminate | trivial].
Qed.

(** C8: for a base in 2..36, [decodeValue] fails, with the RangeError of
    [BigInt(NaN)] (the specification's InvalidDigit), if and only if some
    character has an undefined digit value or one that is not below the
    base; it fails in no other way; [decodeValue 2 "2"] fails. *)
Theorem decodeValue_invalid_digit (base : Z) (digits : string) :
  2 <= base <= 36 ->
  (decodeValue base digits = Throw RangeError_NaNToBigInt <->
   Exists (invalid_digit base) (list_ascii_of_string digits))
  /\ (forall e, decodeValue base digits = Throw e -> e = RangeError_NaNToBigInt)
  /\ decodeValue 2 "2" = Throw RangeError_NaNToBigInt.
Proof.
  intros Hb. split; [|split]; [| |reflexivity].
  - rewrite (Exists_exists (invalid_digit base)).
    setoid_rewrite invalid_digit_iff.
    rewrite <- Exists_exists.
    rewrite <- (decodeValue_loop_throws base digits Hb 0). unfold decodeValue.
    split; [intros H; eexists; exact H|].
    intros [e He]. cbv zeta. rewrite He. f_equal.
    eapply decodeValue_loop_exception, He.
  - intros e He. eapply decodeValue_loop_exception, He.
Qed.

Lemma decodeValue_invalid_digit_witness :
  2 <= 8 <= 36 /\
  Exists (invalid_digit 8) (list_ascii_of_string "17 8") /\
  decodeValue 8 "17 8" = Throw RangeError_NaNToBigInt.
Proof.
  assert (Hb : 2 <= 8 <= 36) by lia.
  assert (Hx : Exists (invalid_digit 8) (list_ascii_of_string "17 8")).
  { simpl list_ascii_of_string.
    apply Exists_cons_tl, Exists_cons_tl, Exists_cons_hd. exact I. }
  split; [exact Hb | split; [exact Hx|]].
  exact (proj2 (proj1 (decodeValue_invalid_digit 8 "17 8" Hb)) Hx).
Defined.

End Decode.

(** ** Fractions *)

Section Fractions.

(** The loop of [gcd] ends before its turns run out and computes the greatest
    common divisor. *)
Lemma gcd_loop_correct (fuel : nat) :
  forall a b, 0 <= a -> 0 <= b -> (Z.to_nat b < fuel)%nat ->
              gcd_loop fuel a b = Z.gcd a b.
Proof.
  induction fuel as [|fuel IH]; intros a b Ha Hb Hfuel; [lia|].
  simpl. destruct (Z.eqb_spec b 0) as [->|Hnz].
  - rewrite Z.gcd_0_r, Z.abs_eq; lia.
  - assert (Hr : 0 <= Z.rem a b < b) by (apply Z.rem_bound_pos; lia).
    rewrite IH by lia.
    rewrite Z.rem_mod_nonneg by lia.
    rewrite (Z.gcd_comm b (a mod b)), Z.gcd_mod by lia. apply Z.gcd_comm.
Qed.

Lemma negate_if_negative (a : Z) : (if a <? 0 then - a else a) = Z.abs a.
Proof. destruct (Z.ltb_spec a 0); lia. Qed.

Lemma gcd_correct (a b : Z) : gcd a b = Z.gcd a b.
Proof.
  unfold gcd.
  rewrite !negate_if_negative, gcd_loop_correct by lia.
  now rewrite Z.gcd_abs_l, Z.gcd_abs_r.
Qed.

(** Dividing two numbers, the second positive, by their greatest common
    divisor leaves a canonical pair of the same ratio. *)
Lemma quot_gcd_canonical (n d : Z) :
  0 < d ->
  let g := Z.gcd n d in
  g <> 0 /\ canonical (Z.quot n g) (Z.quot d g) /\
  Z.quot n g * d = n * Z.quot d g.
Proof.
  intros Hd g.
  assert (Hg : 0 < g).
  { pose proof (Z.gcd_nonneg n d) as Hnn.
    destruct (Z.eq_dec g 0) as [H0|]; [|subst g; lia].
    apply Z.gcd_eq_0_r in H0. lia. }
  destruct (Z.gcd_divide_l n d) as [q Hq].
  destruct (Z.gcd_divide_r n d) as [q' Hq'].
  fold g in Hq, Hq'.
  assert (Hqn : Z.quot n g = q) by (rewrite Hq at 1; apply Z.quot_mul; lia).
  assert (Hqd : Z.quot d g = q') by (rewrite Hq' at 1; apply Z.quot_mul; lia).
  rewrite Hqn, Hqd. split; [lia|]. split; [split|].
  - nia.
  - rewrite Z.gcd_abs_l.
    assert (H : g = Z.gcd q q' * g).
    { unfold g at 1. rewrite Hq at 1. rewrite Hq' at 1.
      apply Z.gcd_mul_mono_r_nonneg. lia. }
    pose proof (Z.gcd_nonneg q q'). nia.
  - clearbody g. subst n d. ring.
Qed.

(** [simplify] on a nonzero denominator: two divisions, no exception, a
    canonical pair of the same ratio. *)
Lemma simplify_nonzero (n d : Z) :
  d <> 0 ->
  exists n' d', simplify n d = mkRun 2 (Normal (n', d')) /\
                canonical n' d' /\ n' * d = n * d'.
Proof.
  intros Hd. unfold simplify.
  destruct (Z.ltb_spec d 0) as [Hneg|Hpos].
  - rewrite negate_if_negative, gcd_correct, Z.gcd_abs_l.
    destruct (quot_gcd_canonical (- n) (- d)) as [Hg [Hc He]]; [lia|].
    exists (Z.quot (- n) (Z.gcd (- n) (- d))), (Z.quot (- d) (Z.gcd (- n) (- d))).
    unfold bigint_div. apply Z.eqb_neq in Hg. rewrite Hg. simpl.
    split; [reflexivity|]. split; [assumption | lia].
  - rewrite negate_if_negative, gcd_correct, Z.gcd_abs_l.
    destruct (quot_gcd_canonical n d) as [Hg [Hc He]]; [lia|].
    exists (Z.quot n (Z.gcd n d)), (Z.quot d (Z.gcd n d)).
    unfold bigint_div. apply Z.eqb_neq in Hg. rewrite Hg. simpl.
    split; [reflexivity|]. split; assumption.
Qed.

Lemma addFrac_nonzero (n1 d1 n2 d2 : Z) :
  d1 <> 0 -> d2 <> 0 ->
  exists n' d', addFrac (n1, d1) (n2, d2) = mkRun 2 (Normal (n', d')) /\
                canonical n' d' /\ n' * (d1 * d2) = (n1 * d2 + n2 * d1) * d'.
Proof.
  intros H1 H2. unfold addFrac. apply simplify_nonzero. nia.
Qed.

Lemma mulFrac_nonzero (n1 d1 n2 d2 : Z) :
  d1 <> 0 -> d2 <> 0 ->
  exists n' d', mulFrac (n1, d1) (n2, d2) = mkRun 2 (Normal (n', d')) /\
                canonical n' d' /\ n' * (d1 * d2) = (n1 * n2) * d'.
Proof.
  intros H1 H2. unfold mulFrac. apply simplify_nonzero. nia.
Qed.

(** The Java constructor on a nonzero denominator. *)
Lemma new_Fraction_nonzero (n d : Z) :
  d <> 0 ->
  exists f, LagrangePolynomial.new_Fraction n d = Normal f /\
            canonical (LagrangePolynomial.num f) (LagrangePolynomial.den f) /\
            LagrangePolynomial.num f * d = n * LagrangePolynomial.den f.
Proof.
  intros Hd. unfold LagrangePolynomial.new_Fraction.
  destruct (Z.eqb_spec (Z.sgn d) 0) as [H0|_]; [apply Z.sgn_null_iff in H0; lia|].
  destruct (Z.ltb_spec (Z.sgn d) 0) as [Hneg|Hpos].
  - apply Z.sgn_neg_iff in Hneg.
    destruct (quot_gcd_canonical (- n) (- d)) as [Hg [Hc He]]; [lia|].
    eexists. unfold LagrangePolynomial.BigInteger_divide.
    apply Z.eqb_neq in Hg. rewrite Hg. simpl.
    split; [reflexivity|]. simpl. split; [assumption | lia].
  - assert (0 < d) by (destruct (Z.sgn_spec d) as [[? ?]|[[? ?]|[? ?]]]; lia).
    destruct (quot_gcd_canonical n d) as [Hg [Hc He]]; [lia|].
    eexists. unfold LagrangePolynomial.BigInteger_divide.
    apply Z.eqb_neq in Hg. rewrite Hg. simpl.
    split; [reflexivity|]. simpl. split; assumption.
Qed.

Lemma new_Fraction_zero (n : Z) :
  LagrangePolynomial.new_Fraction n 0 = Throw ArithmeticException_DenominatorZero.
Proof. reflexivity. Qed.

(** C6: every fraction that construction or an arithmetic operation produces
    from operands with nonzero denominators is canonical (positive
    denominator, numerator and denominator coprime): [simplify], [addFrac]
    and [mulFrac] of [index.js], and the constructor, [add], [multiply],
    [subtract] and [divide] of the Java [Fraction]; (4,8) gives (1,2), and
    (-4,8) and (4,-8) give (-1,2). *)
Theorem fractions_canonical (n1 d1 n2 d2 : Z) :
  d1 <> 0 -> d2 <> 0 ->
  let f1 := LagrangePolynomial.mkFraction n1 d1 in
  let f2 := LagrangePolynomial.mkFraction n2 d2 in
  produces_canonical (simplify n1 d1)
  /\ produces_canonical (addFrac (n1, d1) (n2, d2))
  /\ produces_canonical (mulFrac (n1, d1) (n2, d2))
  /\ constructs_canonical (LagrangePolynomial.new_Fraction n1 d1)
  /\ constructs_canonical (LagrangePolynomial.add f1 f2)
  /\ constructs_canonical (LagrangePolynomial.multiply f1 f2)
  /\ constructs_canonical (LagrangePolynomial.subtract f1 f2)
  /\ (n2 <> 0 -> constructs_canonical (LagrangePolynomial.divide f1 f2))
  /\ (n2 = 0 -> LagrangePolynomial.divide f1 f2 =
                 Throw ArithmeticException_DenominatorZero)
  /\ outcome (simplify 4 8) = Normal (1, 2)
  /\ outcome (simplify (-4) 8) = Normal (-1, 2)
  /\ outcome (simplify 4 (-8)) = Normal (-1, 2)
  /\ LagrangePolynomial.new_Fraction 4 8 = Normal (LagrangePolynomial.mkFraction 1 2)
  /\ LagrangePolynomial.new_Fraction (-4) 8 = Normal (LagrangePolynomial.mkFraction (-1) 2)
  /\ LagrangePolynomial.new_Fraction 4 (-8) = Normal (LagrangePolynomial.mkFraction (-1) 2).
Proof.
  intros H1 H2 f1 f2.
  assert (Hnew : forall n d, d <> 0 ->
                 constructs_canonical (LagrangePolynomial.new_Fraction n d)).
  { intros n d Hd. destruct (new_Fraction_nonzero n d Hd) as [f [Hf [Hc _]]].
    now exists f. }
  repeat split; try reflexivity.
  - destruct (simplify_nonzero n1 d1 H1) as [n [d [Hs [Hc _]]]].
    exists n, d. now rewrite Hs.
  - destruct (addFrac_nonzero n1 d1 n2 d2 H1 H2) as [n [d [Hs [Hc _]]]].
    exists n, d. now rewrite Hs.
  - destruct (mulFrac_nonzero n1 d1 n2 d2 H1 H2) as [n [d [Hs [Hc _]]]].
    exists n, d. now rewrite Hs.
  - now apply Hnew.
  - apply Hnew. simpl. nia.
  - apply Hnew. simpl. nia.
  - unfold LagrangePolynomial.subtract. simpl.
    destruct (new_Fraction_nonzero (- n2) d2 H2) as [f [Hf [[Hpos _] _]]].
    rewrite Hf. apply Hnew. simpl. nia.
  - intros Hn2. apply Hnew. simpl. nia.
  - intros ->. unfold LagrangePolynomial.divide. simpl.
    rewrite Z.mul_0_r. apply new_Fraction_zero.
Qed.

Lemma fractions_canonical_witness :
  6 <> 0 /\ -4 <> 0 /\
  produces_canonical (addFrac (9, 6) (10, -4)) /\
  constructs_canonical
    (LagrangePolynomial.divide (LagrangePolynomial.mkFraction 9 6)
                               (LagrangePolynomial.mkFraction 10 (-4))).
Proof.
  assert (H1 : 6 <> 0) by lia.
  assert (H2 : -4 <> 0) by lia.
  assert (H3 : 10 <> 0) by lia.
  pose proof (fractions_canonical 9 6 10 (-4) H1 H2) as H.
  split; [exact H1 | split; [exact H2 | split]].
  - exact (proj1 (proj2 H)).
  - exact (proj1 (proj2 (proj2 (proj2 (proj2 (proj2 (proj2 (proj2 H))))))) H3).
Defined.

End Fractions.

(** ** Interpolation on distinct abscissas *)

Section Interpolation.

Lemma inject_Z_nonzero (a : Z) : a <> 0 -> ~ (inject_Z a == 0)%Q.
Proof. intros Ha H. apply Ha. unfold Qeq in H. simpl in H. lia. Qed.

Lemma toQ_cross (a b c d : Z) :
  b <> 0 -> d <> 0 -> a * d = c * b -> (toQ (a, b) == toQ (c, d))%Q.
Proof.
  intros Hb Hd H. unfold toQ. simpl.
  apply inject_Z_nonzero in Hb as Hb', Hd as Hd'.
  field_simplify_eq; [|split; assumption].
  rewrite <- !inject_Z_mult. rewrite H, (Z.mul_comm c b). reflexivity.
Qed.

Lemma canonical_nonzero (n d : Z) : canonical n d -> d <> 0.
Proof. intros [H _]. lia. Qed.

(** A canonical pair is the reduced form of the rational it stands for. *)
Lemma canonical_Qred (n d : Z) (q : Q) :
  canonical n d -> (toQ (n, d) == q)%Q ->
  Qnum (Qred q) = n /\ Z.pos (Qden (Qred q)) = d.
Proof.
  intros [Hpos Hgcd] Heq.
  assert (Hq : (n # Z.to_pos d == q)%Q).
  { rewrite <- Heq. unfold toQ. simpl. rewrite Qmake_Qdiv.
    rewrite Z2Pos.id by assumption. reflexivity. }
  apply Qred_complete in Hq.
  rewrite <- Hq, Qred_identity.
  - simpl. split; [reflexivity | now apply Z2Pos.id].
  - simpl. rewrite Z2Pos.id by assumption.
    now rewrite Z.gcd_abs_l in Hgcd.
Qed.

Lemma simplify_exact (n d : Z) :
  d <> 0 ->
  exists n' d', simplify n d = mkRun 2 (Normal (n', d')) /\
                canonical n' d' /\ (toQ (n', d') == toQ (n, d))%Q.
Proof.
  intros Hd. destruct (simplify_nonzero n d Hd) as [n' [d' [E [Hc Hx]]]].
  exists n', d'. split; [exact E | split; [exact Hc|]].
  apply toQ_cross; [now apply canonical_nonzero in Hc | assumption | assumption].
Qed.

Lemma mulFrac_exact (n1 d1 n2 d2 : Z) :
  d1 <> 0 -> d2 <> 0 ->
  exists n' d', mulFrac (n1, d1) (n2, d2) = mkRun 2 (Normal (n', d')) /\
                canonical n' d' /\
                (toQ (n', d') == toQ (n1, d1) * toQ (n2, d2))%Q.
Proof.
  intros H1 H2. unfold mulFrac.
  destruct (simplify_exact (n1 * n2) (d1 * d2)) as [n' [d' [E [Hc Hq]]]]; [nia|].
  exists n', d'. split; [exact E | split; [exact Hc|]].
  rewrite Hq. unfold toQ. simpl. rewrite !inject_Z_mult.
  apply inject_Z_nonzero in H1, H2. field. split; assumption.
Qed.

Lemma addFrac_exact (n1 d1 n2 d2 : Z) :
  d1 <> 0 -> d2 <> 0 ->
  exists n' d', addFrac (n1, d1) (n2, d2) = mkRun 2 (Normal (n', d')) /\
                canonical n' d' /\
                (toQ (n', d') == toQ (n1, d1) + toQ (n2, d2))%Q.
Proof.
  intros H1 H2. unfold addFrac.
  destruct (simplify_exact (n1 * d2 + n2 * d1) (d1 * d2))
    as [n' [d' [E [Hc Hq]]]]; [nia|].
  exists n', d'. split; [exact E | split; [exact Hc|]].
  rewrite Hq. unfold toQ. simpl. rewrite inject_Z_plus, !inject_Z_mult.
  apply inject_Z_nonzero in H1, H2. field. split; assumption.
Qed.

(** Moves a run past the steps whose outcome is known. *)
Ltac run_step := cbn [bind ret run_monad lift outcome divisions].

(** The inner loop multiplies the ratio it starts from by the basis value, as
    long as no other point has the abscissa [xi]. *)
Lemma basis_loop_exact (xi : Z) (i : nat) (ps : list point) :
  forall j num den,
    den <> 0 ->
    (forall k q, nth_error ps k = Some q -> (j + k)%nat <> i -> x q <> xi) ->
    exists num' den',
      basis_loop xi i j ps num den = (num', den') /\ den' <> 0 /\
      (toQ (num', den') == toQ (num, den) * basis_product xi i j ps)%Q.
Proof.
  induction ps as [|pj ps IH]; intros j num den Hden Hother; simpl.
  - exists num, den. split; [reflexivity | split; [assumption|]]. ring.
  - assert (Hrest : forall k q, nth_error ps k = Some q ->
                                (S j + k)%nat <> i -> x q <> xi).
    { intros k q Hk Hne. apply (Hother (S k) q); [exact Hk | lia]. }
    rewrite (Nat.eqb_sym j i).
    destruct (Nat.eqb_spec i j) as [Heq|Hne]; simpl.
    + destruct (IH (S j) num den Hden Hrest) as [num' [den' [E [Hd Hq]]]].
      exists num', den'. split; [exact E | split; [exact Hd|]].
      rewrite Hq. ring.
    + assert (Hx : xi - x pj <> 0).
      { specialize (Hother 0%nat pj eq_refl). lia. }
      destruct (IH (S j) (num * (0 - x pj)) (den * (xi - x pj)))
        as [num' [den' [E [Hd Hq]]]]; [nia | exact Hrest |].
      exists num', den'. split; [exact E | split; [exact Hd|]].
      rewrite Hq. unfold toQ, basis_factor. simpl.
      rewrite !inject_Z_mult.
      apply inject_Z_nonzero in Hden, Hx. field. split; assumption.
Qed.

(** The outer loop adds the Lagrange terms of the points it runs over, six
    divisions a point, and keeps its running total canonical. *)
Lemma sum_loop_exact (points : list point) :
  (forall i j pi pj, nth_error points i = Some pi -> nth_error points j = Some pj ->
                     i <> j -> x pi <> x pj) ->
  forall ps i n d,
    (forall k q, nth_error ps k = Some q -> nth_error points (i + k) = Some q) ->
    canonical n d ->
    exists n' d',
      sum_loop points i ps (n, d) = mkRun (6 * List.length ps) (Normal (n', d')) /\
      canonical n' d' /\
      (toQ (n', d') == toQ (n, d) + sum_from points i ps)%Q.
Proof.
  intros Hdistinct. induction ps as [|pi ps IH]; intros i n d Hps Hc.
  - exists n, d. split; [reflexivity | split; [assumption|]]. simpl. ring.
  - assert (Hi : nth_error points i = Some pi).
    { rewrite <- (Nat.add_0_r i). now apply Hps. }
    destruct (basis_loop_exact (x pi) i points 0 1 1) as [num [den [Eb [Hden Hb]]]].
    { lia. }
    { intros k q Hk Hne Hx. apply (Hdistinct k i q pi Hk Hi); [lia | exact Hx]. }
    destruct (simplify_exact num den Hden) as [sn [sd [Es [Hsc Hs]]]].
    destruct (mulFrac_exact (y pi) 1 sn sd) as [tn [td [Et [Htc Ht]]]];
      [lia | now apply canonical_nonzero in Hsc |].
    destruct (addFrac_exact n d tn td) as [rn [rd [Er [Hrc Hr]]]];
      [now apply canonical_nonzero in Hc | now apply canonical_nonzero in Htc |].
    destruct (IH (S i) rn rd) as [n' [d' [E [Hc' Hq]]]]; [|exact Hrc|].
    { intros k q Hk. replace (S i + k)%nat with (i + S k)%nat by lia.
      now apply Hps. }
    exists n', d'. split; [|split; [exact Hc'|]].
    + cbn [sum_loop]. rewrite Eb, Es. run_step. rewrite Et. run_step.
      rewrite Er. run_step. rewrite E. run_step.
      f_equal. simpl List.length. lia.
    + rewrite Hq, Hr, Ht, Hs, Hb. simpl sum_from. unfold toQ. simpl.
      field. apply inject_Z_nonzero. now apply canonical_nonzero in Hc.
Qed.

Lemma distinct_x_nth (points : list point) :
  distinct_x points ->
  forall i j pi pj, nth_error points i = Some pi -> nth_error points j = Some pj ->
                    i <> j -> x pi <> x pj.
Proof.
  unfold distinct_x. intros Hnd i j pi pj Hi Hj Hne Hx. apply Hne.
  rewrite NoDup_nth_error in Hnd. apply Hnd.
  - rewrite length_map. apply nth_error_Some. congruence.
  - rewrite (map_nth_error x i points Hi), (map_nth_error x j points Hj).
    now rewrite Hx.
Qed.

(** On distinct abscissas [lagrangeAtZero] throws nothing and returns the
    exact Lagrange sum, reduced and then truncated toward zero. *)
Lemma lagrangeAtZero_exact (points : list point) :
  distinct_x points ->
  lagrangeAtZero points =
  mkRun (6 * List.length points + 1) (Normal (truncated (lagrange_sum points))).
Proof.
  intros Hd. unfold lagrangeAtZero.
  destruct (sum_loop_exact points (distinct_x_nth points Hd) points 0%nat 0 1)
    as [n [d [E [Hc Hq]]]].
  - intros k q Hk. exact Hk.
  - split; [lia | reflexivity].
  - assert (Hs : (toQ (n, d) == lagrange_sum points)%Q).
    { rewrite Hq. unfold lagrange_sum, toQ. simpl. field. }
    destruct (canonical_Qred n d _ Hc Hs) as [Hn Hden].
    rewrite E. run_step. unfold bigint_div. simpl fst. simpl snd.
    apply canonical_nonzero in Hc as Hnz. apply Z.eqb_neq in Hnz. rewrite Hnz.
    run_step. unfold truncated. rewrite Hn, Hden. f_equal.
Qed.

(** Telling the other points apart by index or by abscissa is the same when
    exactly the index [i] carries the abscissa [xi]. *)
Lemma basis_product_by_value (xi : Z) (i : nat) (ps : list point) :
  forall j,
    (forall k q, nth_error ps k = Some q -> ((j + k)%nat = i <-> x q = xi)) ->
    (basis_product xi i j ps == basis_by_value xi ps)%Q.
Proof.
  induction ps as [|pj ps IH]; intros j H; simpl; [reflexivity|].
  rewrite (IH (S j)).
  - destruct (H 0%nat pj eq_refl) as [H1 H2]. rewrite Nat.add_0_r in H1, H2.
    destruct (Nat.eqb_spec j i) as [Hji|Hji], (Z.eqb_spec (x pj) xi) as [Hx|Hx];
      try reflexivity; exfalso; auto.
  - intros k q Hk. rewrite <- (H (S k) q Hk). lia.
Qed.

Lemma sum_from_by_value (points : list point) :
  distinct_x points ->
  forall ps i,
    (forall k q, nth_error ps k = Some q -> nth_error points (i + k) = Some q) ->
    (sum_from points i ps == sum_by_value points ps)%Q.
Proof.
  intros Hd. induction ps as [|pi ps IH]; intros i Hps; simpl; [reflexivity|].
  assert (Hi : nth_error points i = Some pi).
  { rewrite <- (Nat.add_0_r i). now apply Hps. }
  rewrite (IH (S i)).
  - rewrite basis_product_by_value; [reflexivity|].
    intros k q Hk. simpl. split.
    + intros ->. congruence.
    + intros Hx. destruct (Nat.eq_dec k i) as [|Hne]; [assumption|].
      exfalso. exact (distinct_x_nth points Hd k i q pi Hk Hi Hne Hx).
  - intros k q Hk. replace (S i + k)%nat with (i + S k)%nat by lia.
    now apply Hps.
Qed.

Lemma basis_by_value_perm (xi : Z) (ps ps' : list point) :
  Permutation ps ps' -> (basis_by_value xi ps == basis_by_value xi ps')%Q.
Proof.
  induction 1 as [|p l l' _ IH|p q l|l l' l'' _ IH1 _ IH2]; simpl.
  - reflexivity.
  - now rewrite IH.
  - ring.
  - now rewrite IH1.
Qed.

Lemma sum_by_value_perm_points (points points' ps : list point) :
  Permutation points points' ->
  (sum_by_value points ps == sum_by_value points' ps)%Q.
Proof.
  intros Hp. induction ps as [|p ps IH]; simpl; [reflexivity|].
  now rewrite IH, (basis_by_value_perm (x p) points points' Hp).
Qed.

Lemma sum_by_value_perm (points ps ps' : list point) :
  Permutation ps ps' -> (sum_by_value points ps == sum_by_value points ps')%Q.
Proof.
  induction 1 as [|p l l' _ IH|p q l|l l' l'' _ IH1 _ IH2]; simpl.
  - reflexivity.
  - now rewrite IH.
  - ring.
  - now rewrite IH1.
Qed.

Lemma distinct_x_perm (points points' : list point) :
  Permutation points points' -> distinct_x points -> distinct_x points'.
Proof.
  unfold distinct_x. intros Hp Hd.
  eapply Permutation_NoDup; [|exact Hd]. now apply Permutation_map.
Qed.

(** The exact sum does not depend on the order of the points. *)
Lemma lagrange_sum_perm (points points' : list point) :
  distinct_x points -> Permutation points points' ->
  (lagrange_sum points == lagrange_sum points')%Q.
Proof.
  intros Hd Hp. unfold lagrange_sum.
  rewrite (sum_from_by_value points Hd points 0%nat) by (intros k q Hk; exact Hk).
  rewrite (sum_from_by_value points' (distinct_x_perm _ _ Hp Hd) points' 0%nat)
    by (intros k q Hk; exact Hk).
  rewrite (sum_by_value_perm_points points points' points Hp).
  now apply sum_by_value_perm.
Qed.

(** C2: on points with pairwise distinct abscissas, [lagrangeAtZero] of a
    permutation of the list runs to the same end: it returns, and returns the
    same integer. *)
Theorem lagrangeAtZero_order_invariant (points points' : list point) :
  distinct_x points -> Permutation points points' ->
  lagrangeAtZero points' = lagrangeAtZero points
  /\ exists v, outcome (lagrangeAtZero points) = Normal v
               /\ outcome (lagrangeAtZero points') = Normal v.
Proof.
  intros Hd Hp.
  rewrite (lagrangeAtZero_exact points Hd).
  rewrite (lagrangeAtZero_exact points' (distinct_x_perm _ _ Hp Hd)).
  assert (Ht : truncated (lagrange_sum points') = truncated (lagrange_sum points)).
  { unfold truncated.
    now rewrite (Qred_complete _ _ (lagrange_sum_perm points points' Hd Hp)). }
  rewrite Ht, (Permutation_length Hp). split; [reflexivity|].
  eexists. split; reflexivity.
Qed.

Lemma lagrangeAtZero_order_invariant_witness :
  distinct_x [mkPoint 1 4; mkPoint 2 9; mkPoint 5 48] /\
  Permutation [mkPoint 1 4; mkPoint 2 9; mkPoint 5 48]
              [mkPoint 5 48; mkPoint 1 4; mkPoint 2 9] /\
  lagrangeAtZero [mkPoint 5 48; mkPoint 1 4; mkPoint 2 9]
  = lagrangeAtZero [mkPoint 1 4; mkPoint 2 9; mkPoint 5 48].
Proof.
  assert (Hd : distinct_x [mkPoint 1 4; mkPoint 2 9; mkPoint 5 48]).
  { unfold distinct_x. simpl.
    repeat (apply NoDup_cons; [simpl; lia|]). apply NoDup_nil. }
  assert (Hp : Permutation [mkPoint 1 4; mkPoint 2 9; mkPoint 5 48]
                           [mkPoint 5 48; mkPoint 1 4; mkPoint 2 9]).
  { apply Permutation_sym.
    apply (Permutation_cons_app [mkPoint 1 4; mkPoint 2 9] [] (mkPoint 5 48)).
    rewrite app_nil_r. apply Permutation_refl. }
  split; [exact Hd | split; [exact Hp|]].
  exact (proj1 (lagrangeAtZero_order_invariant _ _ Hd Hp)).
Defined.

(** C4: the exact sum of a subset that is not an integer is to be reported,
    never rounded, and [index.js] announces an exact computation; yet
    [lagrangeAtZero] ends with a BigInt division and tests no denominator.
    On (1,1), (3,2) the exact sum is 1/2 and the run returns 0 without an
    error. The vote is changed by it: on (1,5), (2,7), (3,9), (4,12), (5,14)
    with [k = 2] the exact sums of the ten subsets hold 3 three times and no
    other value twice, whereas the truncated ones hold 2 four times, and
    [findSecret] returns 2. *)
Theorem lagrangeAtZero_non_integer_sum :
  distinct_x [mkPoint 1 1; mkPoint 3 2]
  /\ (lagrange_sum [mkPoint 1 1; mkPoint 3 2] == 1 # 2)%Q
  /\ ~ integer_valued (lagrange_sum [mkPoint 1 1; mkPoint 3 2])
  /\ lagrangeAtZero [mkPoint 1 1; mkPoint 3 2] = mkRun 13 (Normal 0)
  /\ match combinations [mkPoint 1 5; mkPoint 2 7; mkPoint 3 9;
                         mkPoint 4 12; mkPoint 5 14] 2 with
     | Normal combos =>
         List.map (fun combo => Qred (lagrange_sum combo)) combos
         = [3; 3; 8 # 3; 11 # 4; 3; 2; 7 # 3; 0; 3 # 2; 4]%Q
         /\ List.map (fun combo => outcome (lagrangeAtZero combo)) combos
            = List.map Normal [3; 3; 2; 2; 3; 2; 2; 0; 1; 4]
     | Throw _ => False
     end
  /\ outcome (findSecret [mkPoint 1 5; mkPoint 2 7; mkPoint 3 9;
                          mkPoint 4 12; mkPoint 5 14] 2)
     = Normal (mkResult 2 4 10).
Proof.
  split; [|split; [|split; [|split; [|split]]]].
  - unfold distinct_x. simpl.
    repeat (apply NoDup_cons; [simpl; lia|]). apply NoDup_nil.
  - vm_compute. reflexivity.
  - unfold integer_valued. vm_compute. discriminate.
  - vm_compute. reflexivity.
  - vm_compute. split; reflexivity.
  - vm_compute. reflexivity.
Qed.

End Interpolation.

(** ** Interpolation on a repeated abscissa *)

Section DuplicateAbscissa.

Lemma outcome_bind {A B : Type} (r : run A) (f : A -> run B) :
  outcome (bind r f) =
  match outcome r with
  | Normal a => outcome (f a)
  | Throw e => Throw e
  end.
Proof. simpl. destruct (outcome r); reflexivity. Qed.

Lemma divisions_bind {A B : Type} (r : run A) (f : A -> run B) :
  (divisions r <= divisions (bind r f))%nat.
Proof. simpl. destruct (outcome r); simpl; lia. Qed.

(** [simplify] always divides, and the only exception it raises is the
    division's. *)
Lemma simplify_divides (n d : Z) : (1 <= divisions (simplify n d))%nat.
Proof.
  unfold simplify. destruct (d <? 0);
    (eapply Nat.le_trans; [|apply divisions_bind]); simpl; lia.
Qed.

Lemma simplify_throws (n d : Z) (e : exception) :
  outcome (simplify n d) = Throw e -> e = RangeError_DivisionByZero.
Proof.
  unfold simplify, bigint_div.
  destruct (d <? 0); simpl;
    match goal with |- context [?g =? 0] => destruct (g =? 0) end;
    simpl; congruence.
Qed.

(** A zero denominator survives [simplify], unless the division by a zero
    greatest common divisor throws first. *)
Lemma simplify_zero (n : Z) : zero_denominator (simplify n 0).
Proof.
  unfold zero_denominator, simplify, bigint_div. simpl.
  destruct (gcd (if n <? 0 then - n else n) 0 =? 0) eqn:Hg; simpl.
  - now left.
  - right. eexists. rewrite Z.quot_0_l; [reflexivity|].
    now apply Z.eqb_neq in Hg.
Qed.

(** The inner loop ends on a zero denominator when it starts from one or
    meets, at an index other than [i], a point of abscissa [xi]. *)
Lemma basis_loop_zero (xi : Z) (i : nat) (ps : list point) :
  forall j num den,
    den = 0 \/
    (exists k q, nth_error ps k = Some q /\ (j + k)%nat <> i /\ x q = xi) ->
    snd (basis_loop xi i j ps num den) = 0.
Proof.
  induction ps as [|pj ps IH]; intros j num den H; simpl.
  - destruct H as [H|[k [q [Hk _]]]]; [assumption|].
    destruct k; discriminate Hk.
  - destruct (Nat.eqb_spec i j) as [Heq|Hne]; simpl.
    + apply IH. destruct H as [H|[k [q [Hk [Hne Hx]]]]]; [now left|].
      destruct k as [|k]; [lia|]. right. exists k, q.
      split; [exact Hk | split; [lia | exact Hx]].
    + apply IH. destruct H as [H|[k [q [Hk [Hne' Hx]]]]]; [left; subst; lia|].
      destruct k as [|k].
      * left. inversion Hk; subst. lia.
      * right. exists k, q. split; [exact Hk | split; [lia | exact Hx]].
Qed.

(** One turn of the outer loop, as far as its outcome goes. *)
Lemma sum_loop_cons_outcome (points : list point) (i : nat) (pi : point)
  (ps : list point) (result : frac) :
  outcome (sum_loop points i (pi :: ps) result) =
  match outcome (simplify (fst (basis_loop (x pi) i 0 points 1 1))
                          (snd (basis_loop (x pi) i 0 points 1 1))) with
  | Throw e => Throw e
  | Normal s =>
      match outcome (mulFrac (y pi, 1) s) with
      | Throw e => Throw e
      | Normal t =>
          match outcome (addFrac result t) with
          | Throw e => Throw e
          | Normal result' => outcome (sum_loop points (S i) ps result')
          end
      end
  end.
Proof.
  cbn [sum_loop]. destruct (basis_loop (x pi) i 0 points 1 1) as [num den].
  rewrite outcome_bind. simpl fst. simpl snd.
  destruct (outcome (simplify num den)); [|reflexivity].
  rewrite outcome_bind. destruct (outcome (mulFrac (y pi, 1) a)); [|reflexivity].
  rewrite outcome_bind. reflexivity.
Qed.

Lemma mulFrac_throws (f1 f2 : frac) (e : exception) :
  outcome (mulFrac f1 f2) = Throw e -> e = RangeError_DivisionByZero.
Proof. destruct f1, f2. apply simplify_throws. Qed.

Lemma addFrac_throws (f1 f2 : frac) (e : exception) :
  outcome (addFrac f1 f2) = Throw e -> e = RangeError_DivisionByZero.
Proof. destruct f1, f2. apply simplify_throws. Qed.

Lemma mulFrac_zero (n1 d1 n2 : Z) : zero_denominator (mulFrac (n1, d1) (n2, 0)).
Proof. unfold mulFrac. rewrite (Z.mul_0_r d1). apply simplify_zero. Qed.

Lemma addFrac_zero_r (n1 d1 n2 : Z) : zero_denominator (addFrac (n1, d1) (n2, 0)).
Proof. unfold addFrac. rewrite (Z.mul_0_r d1). apply simplify_zero. Qed.

Lemma addFrac_zero_l (n1 n2 d2 : Z) : zero_denominator (addFrac (n1, 0) (n2, d2)).
Proof. unfold addFrac. rewrite (Z.mul_0_l d2). apply simplify_zero. Qed.

(** Once the running total has denominator 0 it keeps it, or a division
    throws. *)
Lemma sum_loop_zero (points : list point) (ps : list point) :
  forall i n, zero_denominator (sum_loop points i ps (n, 0)).
Proof.
  induction ps as [|pi ps IH]; intros i n.
  - right. now exists n.
  - unfold zero_denominator. rewrite sum_loop_cons_outcome.
    destruct (outcome (simplify _ _)) as [s|e] eqn:Es;
      [|left; f_equal; eapply simplify_throws, Es].
    destruct (outcome (mulFrac (y pi, 1) s)) as [[tn td]|e] eqn:Et;
      [|left; f_equal; eapply mulFrac_throws, Et].
    destruct (addFrac_zero_l n tn td) as [Ea|[rn Ea]]; rewrite Ea.
    + now left.
    + apply IH.
Qed.

(** A point of the rest of the loop that shares its abscissa with another
    point of the list brings the zero denominator in. *)
Lemma sum_loop_duplicate (points : list point) (ps : list point) :
  forall i result,
    (exists k pk j pj, nth_error ps k = Some pk /\ nth_error points j = Some pj /\
                       j <> (i + k)%nat /\ x pj = x pk) ->
    zero_denominator (sum_loop points i ps result).
Proof.
  induction ps as [|pi ps IH]; intros i result [k [pk [j [pj [Hk [Hj [Hne Hx]]]]]]].
  - destruct k; discriminate Hk.
  - unfold zero_denominator. rewrite sum_loop_cons_outcome.
    destruct k as [|k].
    + inversion Hk; subst pk.
      rewrite (basis_loop_zero (x pi) i points 0 1 1).
      2:{ right. exists j, pj. split; [exact Hj | split; [simpl; lia | exact Hx]]. }
      destruct (simplify_zero (fst (basis_loop (x pi) i 0 points 1 1)))
        as [Es|[sn Es]]; rewrite Es; [now left|].
      destruct (mulFrac_zero (y pi) 1 sn) as [Et|[tn Et]]; rewrite Et; [now left|].
      destruct result as [n d].
      destruct (addFrac_zero_r n d tn) as [Ea|[rn Ea]]; rewrite Ea; [now left|].
      apply sum_loop_zero.
    + destruct (outcome (simplify _ _)) as [s|e] eqn:Es;
        [|left; f_equal; eapply simplify_throws, Es].
      destruct (outcome (mulFrac (y pi, 1) s)) as [t|e] eqn:Et;
        [|left; f_equal; eapply mulFrac_throws, Et].
      destruct (outcome (addFrac result t)) as [result'|e] eqn:Ea;
        [|left; f_equal; eapply addFrac_throws, Ea].
      apply IH. exists k, pk, j, pj.
      split; [exact Hk | split; [exact Hj | split; [lia | exact Hx]]].
Qed.

(** The interpolation raises no exception but the division's. *)
Lemma sum_loop_throws (points ps : list point) :
  forall i result e,
    outcome (sum_loop points i ps result) = Throw e -> e = RangeError_DivisionByZero.
Proof.
  induction ps as [|pi ps IH]; intros i result e H; [discriminate H|].
  rewrite sum_loop_cons_outcome in H.
  destruct (outcome (simplify _ _)) as [s|e'] eqn:Es;
    [|injection H as <-; eapply simplify_throws, Es].
  destruct (outcome (mulFrac (y pi, 1) s)) as [t|e'] eqn:Et;
    [|injection H as <-; eapply mulFrac_throws, Et].
  destruct (outcome (addFrac result t)) as [result'|e'] eqn:Ea;
    [|injection H as <-; eapply addFrac_throws, Ea].
  eapply IH, H.
Qed.

Lemma lagrangeAtZero_throws (points : list point) (e : exception) :
  outcome (lagrangeAtZero points) = Throw e -> e = RangeError_DivisionByZero.
Proof.
  unfold lagrangeAtZero. rewrite outcome_bind.
  destruct (outcome (sum_loop points 0 points (0, 1))) as [[n d]|e'] eqn:E.
  - unfold bigint_div. simpl. destruct (d =? 0); congruence.
  - intros H. injection H as <-. eapply sum_loop_throws, E.
Qed.

(** C3 as stated fails on (1,5), (1,7): eleven divisions are evaluated, the
    eleventh throws, and nothing is signalled before the first. *)
Lemma lagrangeAtZero_duplicate_counterexample :
  duplicate_x [mkPoint 1 5; mkPoint 1 7]
  /\ lagrangeAtZero [mkPoint 1 5; mkPoint 1 7]
     = mkRun 11 (Throw RangeError_DivisionByZero)
  /\ ~ (exists e, lagrangeAtZero [mkPoint 1 5; mkPoint 1 7] = mkRun 0 (Throw e)).
Proof.
  split; [|split].
  - exists 0%nat, 1%nat, (mkPoint 1 5), (mkPoint 1 7). repeat split. lia.
  - vm_compute. reflexivity.
  - intros [e H]. vm_compute in H. discriminate H.
Qed.

(** C3, amended: on a point list in which two points share their abscissa,
    [lagrangeAtZero] never returns a result; what it throws is the
    RangeError of a BigInt division by zero, raised by a division itself (of
    [simplify], or the final one) and not by a check made before dividing. *)
Theorem lagrangeAtZero_duplicate (points : list point) :
  duplicate_x points ->
  outcome (lagrangeAtZero points) = Throw RangeError_DivisionByZero
  /\ (forall v, outcome (lagrangeAtZero points) <> Normal v)
  /\ (1 <= divisions (lagrangeAtZero points))%nat.
Proof.
  intros [i [j [pi [pj [Hne [Hi [Hj Hx]]]]]]].
  assert (Ho : outcome (lagrangeAtZero points) = Throw RangeError_DivisionByZero).
  { unfold lagrangeAtZero. rewrite outcome_bind.
    destruct (sum_loop_duplicate points points 0%nat (0, 1)) as [E|[n E]].
    - exists i, pi, j, pj.
      split; [exact Hi | split; [exact Hj | split; [simpl; lia | now symmetry]]].
    - now rewrite E.
    - rewrite E. reflexivity. }
  split; [exact Ho | split].
  - intros v Hv. rewrite Ho in Hv. discriminate Hv.
  - unfold lagrangeAtZero.
    eapply Nat.le_trans; [|apply divisions_bind].
    destruct points as [|p ps]; [destruct i; discriminate Hi|].
    cbn [sum_loop]. destruct (basis_loop (x p) 0 0 (p :: ps) 1 1) as [num den].
    eapply Nat.le_trans; [|apply divisions_bind]. apply simplify_divides.
Qed.

Lemma lagrangeAtZero_duplicate_witness :
  duplicate_x [mkPoint 2 7; mkPoint 3 9; mkPoint 2 8] /\
  outcome (lagrangeAtZero [mkPoint 2 7; mkPoint 3 9; mkPoint 2 8])
  = Throw RangeError_DivisionByZero.
Proof.
  assert (H : duplicate_x [mkPoint 2 7; mkPoint 3 9; mkPoint 2 8]).
  { exists 0%nat, 2%nat, (mkPoint 2 7), (mkPoint 2 8). repeat split. lia. }
  split; [exact H|].
  exact (proj1 (lagrangeAtZero_duplicate _ H)).
Defined.

End DuplicateAbscissa.

(** ** Subset enumeration *)

Section Combinations.

Context {A : Type}.

Lemma binomial_small (n k : nat) : (n < k)%nat -> binomial n k = 0%nat.
Proof.
  revert k. induction n as [|n IH]; intros [|k] H; simpl; try lia.
  rewrite !IH by lia. reflexivity.
Qed.

(** [binomial] is the quotient of factorials. *)
Lemma binomial_factorial (n k : nat) :
  (k <= n)%nat -> (binomial n k * (fact k * fact (n - k)) = fact n)%nat.
Proof.
  revert k. induction n as [|n IH]; intros [|k] H; simpl binomial; try lia.
  - simpl. lia.
  - rewrite Nat.sub_0_r. simpl fact at 1. lia.
  - replace (S n - S k)%nat with (n - k)%nat by lia.
    assert (H1 : (binomial n k * (fact k * fact (n - k)) = fact n)%nat)
      by (apply IH; lia).
    destruct (Nat.eq_dec k n) as [->|Hne].
    + rewrite (binomial_small n (S n)) by lia.
      rewrite Nat.sub_diag in *. change (fact (S n)) with (S n * fact n)%nat.
      simpl fact in *. nia.
    + assert (H2 : (binomial n (S k) * (fact (S k) * fact (n - S k)) = fact n)%nat)
        by (apply IH; lia).
      replace (n - k)%nat with (S (n - S k)) in * by lia.
      change (fact (S n)) with (S n * fact n)%nat.
      change (fact (S k)) with (S k * fact k)%nat in *.
      change (fact (S (n - S k))) with (S (n - S k) * fact (n - S k))%nat in *.
      nia.
Qed.

Lemma subseq_nil_l (l : list A) : subseq [] l.
Proof. induction l; constructor; assumption. Qed.

Lemma subseq_In (s l : list A) (a : A) : subseq s l -> In a s -> In a l.
Proof.
  induction 1 as [|b s l _ IH|b s l _ IH]; simpl; intros Hin; [assumption| |].
  - right. now apply IH.
  - destruct Hin as [->|Hin]; [now left | right; now apply IH].
Qed.

(** The body of [combinations] on a nonempty array and a positive [r]. *)
Lemma combinations_cons (first : A) (rest : list A) (r : Z) :
  0 < r ->
  combinations (first :: rest) r =
  if Z.of_nat (S (List.length rest)) <? r then Normal []
  else
    withFirst <- combinations rest (r - 1) ;;
    without <- combinations rest r ;;
    Normal (map (fun c => first :: c) withFirst ++ without).
Proof.
  intros Hr. simpl combinations.
  destruct (Z.eqb_spec r 0); [lia | reflexivity].
Qed.

Lemma combinations_zero (arr : list A) : combinations arr 0 = Normal [[]].
Proof. destruct arr; reflexivity. Qed.

Lemma combinations_too_many (arr : list A) (r : Z) :
  Z.of_nat (List.length arr) < r -> combinations arr r = Normal [].
Proof.
  intros H. assert (Hr : 0 < r) by lia.
  destruct arr as [|first rest].
  - simpl. destruct (Z.eqb_spec r 0); [lia|].
    destruct (Z.ltb_spec 0 r); [reflexivity | lia].
  - rewrite combinations_cons by assumption.
    destruct (Z.ltb_spec (Z.of_nat (S (List.length rest))) r); [reflexivity|].
    simpl List.length in H. lia.
Qed.

(** A negative [r] never returns: the recursion runs off the end of the
    array and goes on. *)
Lemma combinations_negative (arr : list A) :
  forall r, r < 0 -> combinations arr r = Throw RangeError_CallStack.
Proof.
  induction arr as [|first rest IH]; intros r Hr; simpl.
  - destruct (Z.eqb_spec r 0); [lia|].
    destruct (Z.ltb_spec 0 r); [lia | reflexivity].
  - destruct (Z.eqb_spec r 0); [lia|].
    destruct (Z.ltb_spec (Z.pos (Pos.of_succ_nat (List.length rest))) r); [lia|].
    rewrite IH by lia. reflexivity.
Qed.

(** For [r >= 0] the enumeration returns; it has [binomial n r] members, each
    of length [r] and a subsequence of the array, and no member twice when the
    array has no element twice. *)
Lemma combinations_nonneg (arr : list A) :
  forall r, 0 <= r ->
  exists combos,
    combinations arr r = Normal combos /\
    List.length combos = binomial (List.length arr) (Z.to_nat r) /\
    Forall (fun c => List.length c = Z.to_nat r /\ subseq c arr) combos /\
    (NoDup arr -> NoDup combos).
Proof.
  induction arr as [|first rest IH]; intros r Hr.
  - destruct (Z.eq_dec r 0) as [->|Hnz].
    + exists [[]]. repeat split; try reflexivity.
      * repeat constructor.
      * intros _. repeat constructor. intros [].
    + exists []. rewrite combinations_too_many by (simpl; lia).
      repeat split; try constructor.
      simpl. destruct (Z.to_nat r) eqn:E; [lia | reflexivity].
  - destruct (Z.eq_dec r 0) as [->|Hnz].
    + exists [[]]. rewrite combinations_zero. repeat split; try reflexivity.
      * repeat constructor. apply subseq_nil_l.
      * intros _. repeat constructor. intros [].
    + rewrite combinations_cons by lia.
      destruct (Z.ltb_spec (Z.of_nat (S (List.length rest))) r) as [Hbig|Hfit].
      * exists []. repeat split; try constructor.
        simpl List.length. rewrite binomial_small by lia. reflexivity.
      * destruct (IH (r - 1)) as [c1 [E1 [L1 [F1 N1]]]]; [lia|].
        destruct (IH r) as [c2 [E2 [L2 [F2 N2]]]]; [lia|].
        rewrite E1, E2. simpl bind.
        exists (map (fun c => first :: c) c1 ++ c2).
        split; [reflexivity|]. split; [|split].
        -- rewrite length_app, length_map, L1, L2. simpl List.length.
           replace (Z.to_nat r) with (S (Z.to_nat (r - 1))) by lia.
           reflexivity.
        -- apply Forall_app. split.
           ++ apply Forall_forall. intros c Hc. apply in_map_iff in Hc.
              destruct Hc as [c' [<- Hc']].
              rewrite Forall_forall in F1. destruct (F1 c' Hc') as [Hl Hs].
              split; [simpl; lia | now constructor].
           ++ eapply Forall_impl; [|exact F2].
              intros c [Hl Hs]. split; [assumption | now constructor].
        -- intros Hnd. inversion Hnd as [|? ? Hnotin Hrest]; subst.
           apply NoDup_app.
           ++ apply Injective_map_NoDup; [|now apply N1].
              intros c c' Heq. now inversion Heq.
           ++ now apply N2.
           ++ intros c Hc Hc2. apply in_map_iff in Hc.
              destruct Hc as [c' [<- _]].
              rewrite Forall_forall in F2. destruct (F2 _ Hc2) as [_ Hs].
              apply Hnotin. eapply subseq_In; [exact Hs | now left].
Qed.

(** The enumeration works on positions: renaming the elements renames the
    subsets. *)
Lemma combinations_map {B : Type} (f : A -> B) (arr : list A) :
  forall r,
    combinations (map f arr) r =
    match combinations arr r with
    | Normal combos => Normal (map (map f) combos)
    | Throw e => Throw e
    end.
Proof.
  induction arr as [|first rest IH]; intros r; simpl.
  - destruct (r =? 0); [reflexivity|]. destruct (0 <? r); reflexivity.
  - destruct (r =? 0); [reflexivity|]. rewrite length_map.
    destruct (Z.pos (Pos.of_succ_nat (List.length rest)) <? r); [reflexivity|].
    rewrite (IH (r - 1)), (IH r).
    destruct (combinations rest (r - 1)) as [c1|e]; [|reflexivity].
    destruct (combinations rest r) as [c2|e]; [|reflexivity].
    simpl. rewrite map_app, !map_map. reflexivity.
Qed.

Lemma nth_error_indices (arr : list A) :
  map (nth_error arr) (seq 0 (List.length arr)) = map Some arr.
Proof.
  induction arr as [|a arr IH]; simpl; [reflexivity|].
  rewrite <- seq_shift, map_map. f_equal. rewrite <- IH.
  apply map_ext. reflexivity.
Qed.

End Combinations.

(** On the indices [j, j+1, ...] the subsets come out in lexicographic
    order. *)
Lemma combinations_seq_sorted (n : nat) :
  forall j r, 0 <= r ->
  exists idx,
    combinations (seq j n) r = Normal idx /\
    StronglySorted lex_lt idx /\
    Forall (fun c => List.length c = Z.to_nat r /\ Forall (fun i => (j <= i)%nat) c) idx.
Proof.
  induction n as [|n IH]; intros j r Hr.
  - simpl seq. destruct (Z.eq_dec r 0) as [->|Hnz].
    + exists [[]]. repeat constructor.
    + exists []. rewrite combinations_too_many by (simpl; lia).
      repeat constructor.
  - simpl seq. destruct (Z.eq_dec r 0) as [->|Hnz].
    + exists [[]]. rewrite combinations_zero. repeat constructor.
    + rewrite combinations_cons by lia. rewrite length_seq.
      destruct (Z.ltb_spec (Z.of_nat (S n)) r) as [Hbig|Hfit].
      * exists []. repeat constructor.
      * destruct (IH (S j) (r - 1)) as [c1 [E1 [S1 F1]]]; [lia|].
        destruct (IH (S j) r) as [c2 [E2 [S2 F2]]]; [lia|].
        rewrite E1, E2. simpl bind.
        exists (map (fun c => j :: c) c1 ++ c2).
        rewrite Forall_forall in F1, F2.
        split; [reflexivity|]. split.
        -- clear E1 E2 F1. induction c1 as [|a c1 IHc]; simpl.
           ++ exact S2.
           ++ inversion S1 as [|? ? Hs Ha]; subst. constructor; [now apply IHc|].
              apply Forall_app. split.
              ** apply Forall_forall. intros c Hc. apply in_map_iff in Hc.
                 destruct Hc as [b [<- Hb]]. simpl. right. split; [reflexivity|].
                 rewrite Forall_forall in Ha. now apply Ha.
              ** apply Forall_forall. intros c Hc.
                 destruct (F2 c Hc) as [Hl Hge].
                 destruct c as [|i c]; [simpl in Hl; lia|].
                 inversion Hge; subst. simpl. left. lia.
        -- apply Forall_app. split; apply Forall_forall; intros c Hc.
           ++ apply in_map_iff in Hc. destruct Hc as [b [<- Hb]].
              destruct (F1 b Hb) as [Hl Hge]. split; [simpl; lia|].
              constructor; [lia|]. eapply Forall_impl; [|exact Hge].
              simpl. intros; lia.
           ++ destruct (F2 c Hc) as [Hl Hge]. split; [assumption|].
              eapply Forall_impl; [|exact Hge]. simpl. intros; lia.
Qed.

(** C9, amended: for every array of [n] elements and every integer
    [k >= 0], [combinations] returns exactly [binomial n k] subsets, each of
    length [k] and each keeping the order of the array (and all different when
    the elements are), in a fixed order: the lexicographic order of the
    indices [idx] the subsets take from the array; [k = 0] gives the one empty
    subset and [k > n] gives none. *)
Theorem combinations_enumerates {A : Type} (arr : list A) (k : Z) :
  0 <= k ->
  exists combos,
    combinations arr k = Normal combos /\
    List.length combos = binomial (List.length arr) (Z.to_nat k) /\
    Forall (fun c => List.length c = Z.to_nat k /\ subseq c arr) combos /\
    (NoDup arr -> NoDup combos) /\
    (exists idx,
        combinations (seq 0 (List.length arr)) k = Normal idx /\
        StronglySorted lex_lt idx /\
        map (map Some) combos = map (map (nth_error arr)) idx) /\
    (k = 0 -> combos = [[]]) /\
    (Z.of_nat (List.length arr) < k -> combos = []).
Proof.
  intros Hk.
  destruct (combinations_nonneg arr k Hk) as [combos [E [L [F N]]]].
  exists combos. repeat (split; [assumption|]). split; [|split].
  - destruct (combinations_seq_sorted (List.length arr) 0 k Hk) as [idx [Ei [Si _]]].
    exists idx. split; [exact Ei | split; [exact Si|]].
    pose proof (combinations_map Some arr k) as H1. rewrite E in H1.
    pose proof (combinations_map (nth_error arr) (seq 0 (List.length arr)) k) as H2.
    rewrite Ei, nth_error_indices, H1 in H2. now injection H2.
  - intros ->. rewrite combinations_zero in E. now inversion E.
  - intros Hbig. rewrite combinations_too_many in E by assumption.
    now inversion E.
Qed.

Lemma combinations_enumerates_witness :
  0 <= 2 /\
  exists combos,
    combinations [10; 20; 30; 40] 2 = Normal combos /\
    List.length combos = 6%nat.
Proof.
  assert (Hk : 0 <= 2) by lia.
  split; [exact Hk|].
  destruct (combinations_enumerates [10; 20; 30; 40] 2 Hk)
    as [combos [E [L _]]].
  exists combos. split; [exact E | exact L].
Defined.

(** C9 as stated fails for a negative [k]: the call never returns, where
    the claim has it return no subset. *)
Lemma combinations_negative_counterexample :
  combinations [mkPoint 1 5; mkPoint 2 7] (-1) = Throw RangeError_CallStack /\
  ~ (exists combos, combinations [mkPoint 1 5; mkPoint 2 7] (-1) = Normal combos).
Proof.
  split; [reflexivity|]. intros [combos H]. discriminate H.
Qed.

(** ** Majority vote *)

Section MajorityVote.

(** [BigInt] reads back what [toString] wrote, so that no two integers share
    a key. *)
Lemma BigInt_of_toString (n : Z) : BigInt_of_string (toString n) = Normal n.
Proof.
  unfold BigInt_of_string, toString. rewrite NilZero.isi.
  - now rewrite DecimalZ.of_to.
  - destruct n; simpl; try discriminate.
    intros H. inversion H as [H']. now apply DecimalPos.Unsigned.to_uint_nonnil in H'.
  - destruct n; simpl; try discriminate.
    intros H. inversion H as [H']. now apply DecimalPos.Unsigned.to_uint_nonnil in H'.
Qed.

Lemma toString_inj (n m : Z) : toString n = toString m -> n = m.
Proof.
  intros H. pose proof (BigInt_of_toString n) as Hn.
  rewrite H, BigInt_of_toString in Hn. now inversion Hn.
Qed.

Lemma toString_eqb (n m : Z) : String.eqb (toString n) (toString m) = (n =? m).
Proof.
  destruct (Z.eqb_spec n m) as [->|Hne].
  - apply String.eqb_refl.
  - apply String.eqb_neq. intros H. now apply toString_inj in H.
Qed.

Lemma In_firsts (vs : list Z) (v : Z) : In v (firsts vs) <-> In v vs.
Proof.
  induction vs as [|a vs IH]; simpl; [reflexivity|].
  rewrite filter_In, IH. destruct (Z.eqb_spec v a) as [->|Hne]; simpl.
  - split; auto.
  - split; [intros [H|[H _]]; auto | intros [H|H]; auto].
Qed.

Lemma NoDup_firsts (vs : list Z) : NoDup (firsts vs).
Proof.
  induction vs as [|a vs IH]; simpl; constructor.
  - rewrite filter_In. intros [_ H]. now rewrite Z.eqb_refl in H.
  - now apply NoDup_filter.
Qed.

(** A value tallied last joins the end of the distinct values, unless it is
    among them already. *)
Lemma firsts_snoc (vs : list Z) (v : Z) :
  firsts (vs ++ [v]) = if in_dec Z.eq_dec v vs then firsts vs else firsts vs ++ [v].
Proof.
  induction vs as [|a vs IH]; simpl; [reflexivity|].
  rewrite IH. destruct (Z.eq_dec a v) as [->|Hne].
  - destruct (in_dec Z.eq_dec v vs) as [Hin|Hnin]; [reflexivity|].
    rewrite filter_app. simpl. rewrite Z.eqb_refl. simpl.
    now rewrite app_nil_r.
  - destruct (in_dec Z.eq_dec v vs) as [Hin|Hnin]; [reflexivity|].
    rewrite filter_app. simpl.
    destruct (Z.eqb_spec v a) as [->|_]; [contradiction | reflexivity].
Qed.

Lemma count_occ_snoc (vs : list Z) (v w : Z) :
  count_occ Z.eq_dec (vs ++ [v]) w =
  (count_occ Z.eq_dec vs w + if (w =? v)%Z then 1 else 0)%nat.
Proof.
  rewrite count_occ_app. simpl.
  destruct (Z.eq_dec v w) as [->|Hne].
  - now rewrite Z.eqb_refl.
  - destruct (Z.eqb_spec w v); [congruence | reflexivity].
Qed.

(** Reading and writing the map of a tally. *)
Lemma Map_get_tally (f : Z -> nat) (l : list Z) (v : Z) :
  Map_get (map (fun w => (toString w, f w)) l) (toString v) =
  if in_dec Z.eq_dec v l then Some (f v) else None.
Proof.
  induction l as [|a l IH]; simpl; [reflexivity|].
  rewrite toString_eqb, IH.
  destruct (Z.eqb_spec a v) as [->|Hne].
  - destruct (Z.eq_dec v v); [reflexivity | contradiction].
  - destruct (Z.eq_dec a v); [contradiction|].
    destruct (in_dec Z.eq_dec v l); reflexivity.
Qed.

Lemma Map_set_tally_present (f : Z -> nat) (l : list Z) (v : Z) (c : nat) :
  In v l -> NoDup l ->
  Map_set (map (fun w => (toString w, f w)) l) (toString v) c =
  map (fun w => (toString w, if w =? v then c else f w)) l.
Proof.
  induction l as [|a l IH]; simpl; intros Hin Hnd; [contradiction|].
  inversion Hnd as [|? ? Hnotin Hnd']; subst.
  rewrite toString_eqb. destruct (Z.eqb_spec a v) as [->|Hne].
  - f_equal. apply map_ext_in. intros w Hw.
    destruct (Z.eqb_spec w v) as [->|_]; [contradiction | reflexivity].
  - f_equal. apply IH; [|assumption]. destruct Hin; [contradiction | assumption].
Qed.

Lemma Map_set_tally_absent (f : Z -> nat) (l : list Z) (v : Z) (c : nat) :
  ~ In v l ->
  Map_set (map (fun w => (toString w, f w)) l) (toString v) c =
  map (fun w => (toString w, f w)) l ++ [(toString v, c)].
Proof.
  induction l as [|a l IH]; simpl; intros Hnin; [reflexivity|].
  rewrite toString_eqb. destruct (Z.eqb_spec a v) as [->|Hne].
  - exfalso. apply Hnin. now left.
  - f_equal. apply IH. intros H. apply Hnin. now right.
Qed.

(** One turn of the tallying loop. *)
Lemma tally_step (vs : list Z) (v : Z) :
  Map_set (tally_of vs) (toString v) (get_or_0 (tally_of vs) (toString v) + 1)
  = tally_of (vs ++ [v]).
Proof.
  unfold tally_of, get_or_0. rewrite Map_get_tally, firsts_snoc.
  destruct (in_dec Z.eq_dec v (firsts vs)) as [Hin|Hnin];
    destruct (in_dec Z.eq_dec v vs) as [Hin'|Hnin'];
    try (exfalso; rewrite In_firsts in *; tauto).
  - rewrite Map_set_tally_present by (auto using NoDup_firsts).
    apply map_ext. intros w. rewrite count_occ_snoc.
    destruct (Z.eqb_spec w v) as [->|_]; [reflexivity|].
    now rewrite Nat.add_0_r.
  - rewrite Map_set_tally_absent by assumption.
    rewrite map_app. simpl. f_equal.
    + apply map_ext_in. intros w Hw. rewrite count_occ_snoc.
      destruct (Z.eqb_spec w v) as [->|_]; [contradiction|].
      now rewrite Nat.add_0_r.
    + rewrite count_occ_snoc, Z.eqb_refl.
      apply (count_occ_not_In Z.eq_dec) in Hnin'. now rewrite Hnin'.
Qed.

Lemma tally_loop_outcome (combos : list (list point)) (results : list Z) :
  Forall2 (fun combo v => outcome (lagrangeAtZero combo) = Normal v) combos results ->
  forall seen,
    outcome (tally_loop combos (tally_of seen)) = Normal (tally_of (seen ++ results)).
Proof.
  induction 1 as [|combo v combos results Hv _ IH]; intros seen.
  - now rewrite app_nil_r.
  - cbn [tally_loop]. rewrite outcome_bind, Hv, tally_step, IH.
    now rewrite <- app_assoc.
Qed.

(** The selection loop keeps what it holds when no entry beats it, and
    otherwise ends on the first entry whose count no later entry beats. *)
Lemma best_loop_spec (entries : list (string * nat)) :
  forall best bestCount,
    (best_loop entries best bestCount = (best, bestCount) /\
     Forall (fun e => (snd e <= bestCount)%nat) entries)
    \/
    (exists pre val c post,
        entries = pre ++ (val, c) :: post /\
        best_loop entries best bestCount = (Some val, c) /\
        (bestCount < c)%nat /\
        Forall (fun e => (snd e < c)%nat) pre /\
        Forall (fun e => (snd e <= c)%nat) post).
Proof.
  induction entries as [|[val count] entries IH]; intros best bestCount; simpl.
  - left. split; [reflexivity | constructor].
  - destruct (Nat.ltb_spec bestCount count) as [Hlt|Hge].
    + right. destruct (IH (Some val) count) as [[E F]|[pre [val' [c [post [E [B [L [Fpre Fpost]]]]]]]]].
      * exists [], val, count, entries. repeat split; auto.
      * exists ((val, count) :: pre), val', c, post. subst entries.
        repeat split; auto; try lia.
    + destruct (IH best bestCount) as [[E F]|[pre [val' [c [post [E [B [L [Fpre Fpost]]]]]]]]].
      * left. split; [exact E | constructor; [simpl; lia | exact F]].
      * right. exists ((val, count) :: pre), val', c, post. subst entries.
        repeat split; auto. constructor; [simpl; lia | exact Fpre].
Qed.

Lemma filter_eq_app_cons {A : Type} (f : A -> bool) (l : list A) :
  forall l1 s l2,
    filter f l = l1 ++ s :: l2 ->
    exists l1' l2', l = l1' ++ s :: l2' /\ filter f l1' = l1 /\ filter f l2' = l2.
Proof.
  induction l as [|a l IH]; simpl; intros l1 s l2 H.
  - destruct l1; discriminate H.
  - destruct (f a) eqn:Hfa.
    + destruct l1 as [|b l1]; simpl in H; inversion H; subst.
      * exists [], l. repeat split; reflexivity.
      * destruct (IH _ _ _ H2) as [m1 [m2 [-> [F1 F2]]]].
        exists (b :: m1), m2. simpl. rewrite Hfa, F1. repeat split; auto.
    + destruct (IH _ _ _ H) as [m1 [m2 [-> [F1 F2]]]].
      exists (a :: m1), m2. simpl. rewrite Hfa. repeat split; auto.
Qed.

(** What stands before a value among the distinct values is all that was
    produced before its first occurrence. *)
Lemma firsts_split (vs : list Z) :
  forall fpre s fpost,
    firsts vs = fpre ++ s :: fpost ->
    exists pre post, vs = pre ++ s :: post /\ ~ In s pre /\
                     forall v, In v pre -> In v fpre.
Proof.
  induction vs as [|a vs IH]; simpl; intros fpre s fpost H.
  - destruct fpre; discriminate H.
  - destruct fpre as [|b fpre]; simpl in H; injection H as Hb Hrest.
    + subst s. exists [], vs. repeat split; auto.
    + subst b. assert (Hsa : s <> a).
      { assert (Hin : In s (filter (fun w => negb (w =? a)) (firsts vs))).
        { rewrite Hrest. apply in_or_app. right. now left. }
        apply filter_In in Hin. destruct Hin as [_ Hin].
        intros ->. now rewrite Z.eqb_refl in Hin. }
      destruct (filter_eq_app_cons _ _ _ _ _ Hrest) as [g1 [g2 [Hg [F1 _]]]].
      destruct (IH _ _ _ Hg) as [pre [post [-> [Hnin Hsub]]]].
      exists (a :: pre), post. repeat split; auto.
      * simpl. intros [Heq|Hin]; [now apply Hsa | now apply Hnin].
      * simpl. intros v [->|Hin]; [now left|].
        destruct (Z.eq_dec a v) as [->|Hne]; [now left | right].
        rewrite <- F1. apply filter_In. split; [now apply Hsub|].
        destruct (Z.eqb_spec v a); [congruence | reflexivity].
Qed.

Lemma binomial_pos (n k : nat) : (k <= n)%nat -> (0 < binomial n k)%nat.
Proof.
  intros H. pose proof (binomial_factorial n k H) as E.
  pose proof (lt_O_fact n). destruct (binomial n k); [simpl in E; lia | lia].
Qed.

(** The selection over the tally of a nonempty list of values: the value
    kept has the highest count, and every value produced before its first
    occurrence has a strictly lower one. *)
Lemma best_loop_tally (results : list Z) :
  results <> [] ->
  exists s c pre post,
    best_loop (tally_of results) None 0 = (Some (toString s), c)
    /\ results = pre ++ s :: post
    /\ ~ In s pre
    /\ c = count_occ Z.eq_dec results s
    /\ (forall v, In v pre -> (count_occ Z.eq_dec results v < c)%nat)
    /\ (forall v, (count_occ Z.eq_dec results v <= c)%nat).
Proof.
  intros Hne.
  destruct (best_loop_spec (tally_of results) None 0)
    as [[_ F]|[epre [val [c [epost [E [B [_ [Fpre Fpost]]]]]]]]].
  - exfalso. destruct results as [|v results]; [now apply Hne|].
    unfold tally_of in F. simpl in F. inversion F as [|? ? Hhead _]; subst.
    simpl in Hhead. destruct (Z.eq_dec v v); [lia | contradiction].
  - unfold tally_of in E.
    apply map_eq_app in E. destruct E as [fpre [ftl [Hf [Hpre Htl]]]].
    apply map_eq_cons in Htl. destruct Htl as [s [fpost [-> [Hs Hpost]]]].
    injection Hs as Hval Hc.
    destruct (firsts_split results fpre s fpost Hf) as [pre [post [Hsplit [Hnin Hsub]]]].
    assert (Hbefore : forall v, In v fpre -> (count_occ Z.eq_dec results v < c)%nat).
    { intros v Hv. rewrite <- Hpre in Fpre. rewrite Forall_forall in Fpre.
      apply (Fpre (toString v, count_occ Z.eq_dec results v)).
      apply in_map_iff. now exists v. }
    assert (Hafter : forall v, In v fpost -> (count_occ Z.eq_dec results v <= c)%nat).
    { intros v Hv. rewrite <- Hpost in Fpost. rewrite Forall_forall in Fpost.
      apply (Fpost (toString v, count_occ Z.eq_dec results v)).
      apply in_map_iff. now exists v. }
    exists s, c, pre, post. split; [|split; [|split; [|split; [|split]]]].
    + now rewrite B, Hval.
    + exact Hsplit.
    + exact Hnin.
    + now symmetry.
    + intros v Hv. apply Hbefore, Hsub, Hv.
    + intros v. destruct (in_dec Z.eq_dec v results) as [Hin|Hnin'].
      * apply In_firsts in Hin. rewrite Hf in Hin.
        apply in_app_or in Hin. destruct Hin as [Hin|[->|Hin]].
        -- apply Nat.lt_le_incl. now apply Hbefore.
        -- lia.
        -- now apply Hafter.
      * apply (count_occ_not_In Z.eq_dec) in Hnin'. lia.
Qed.

(** What [findSecret] returns once the combinations and their values are
    known. *)
Lemma findSecret_outcome (points : list point) (k : Z)
  (combos : list (list point)) (results : list Z) (s : Z) (c : nat) :
  combinations points k = Normal combos ->
  Forall2 (fun combo v => outcome (lagrangeAtZero combo) = Normal v) combos results ->
  best_loop (tally_of results) None 0 = (Some (toString s), c) ->
  outcome (findSecret points k) = Normal (mkResult s c (List.length combos)).
Proof.
  intros Hcombos Hres B.
  pose proof (tally_loop_outcome combos results Hres []) as Htally.
  change (tally_of []) with (@nil (string * nat)) in Htally. simpl app in Htally.
  unfold findSecret. rewrite Hcombos, outcome_bind. cbn [lift outcome].
  rewrite outcome_bind. unfold Map in Htally. rewrite Htally, B.
  rewrite outcome_bind. cbn [lift outcome BigInt_of_best].
  rewrite BigInt_of_toString. reflexivity.
Qed.

(** With [0 <= k <= n] there is a combination to tally. *)
Lemma combinations_nonempty (points : list point) (k : Z) (combos : list (list point)) :
  0 <= k <= Z.of_nat (List.length points) ->
  combinations points k = Normal combos -> combos <> [].
Proof.
  intros Hk Hcombos ->.
  destruct (combinations_nonneg points k) as [combos' [E [L _]]]; [lia|].
  rewrite Hcombos in E. injection E as <-.
  pose proof (binomial_pos (List.length points) (Z.to_nat k)) as Hpos.
  simpl in L. lia.
Qed.

(** C10: with [1 <= k <= n] and every combination interpolating without an
    exception ([results] are the values in enumeration order), [findSecret]
    returns a result and reports no tie: the secret [s] has the highest tally
    [c], every value produced before [s] was first produced ([pre]) has a
    strictly lower tally, and so a value that shares the highest tally is
    first produced after [s]. *)
Theorem findSecret_tie_first_produced (points : list point) (k : Z)
  (combos : list (list point)) (results : list Z) :
  1 <= k <= Z.of_nat (List.length points) ->
  combinations points k = Normal combos ->
  Forall2 (fun combo v => outcome (lagrangeAtZero combo) = Normal v) combos results ->
  exists s c pre post,
    outcome (findSecret points k) = Normal (mkResult s c (List.length combos))
    /\ results = pre ++ s :: post
    /\ ~ In s pre
    /\ c = count_occ Z.eq_dec results s
    /\ (forall v, (count_occ Z.eq_dec results v <= c)%nat)
    /\ (forall v, In v pre -> (count_occ Z.eq_dec results v < c)%nat)
    /\ (forall v, count_occ Z.eq_dec results v = c -> ~ In v pre).
Proof.
  intros Hk Hcombos Hres.
  assert (Hne : results <> []).
  { intros ->. inversion Hres; subst.
    now apply (combinations_nonempty points k []); [lia | |]. }
  destruct (best_loop_tally results Hne)
    as [s [c [pre [post [B [Hsplit [Hnin [Hc [Hbefore Hmax]]]]]]]]].
  exists s, c, pre, post.
  split; [now apply (findSecret_outcome points k combos results)|].
  split; [exact Hsplit | split; [exact Hnin | split; [exact Hc|]]].
  split; [exact Hmax | split; [exact Hbefore|]].
  intros v Hv Hin. specialize (Hbefore v Hin). lia.
Qed.

Lemma findSecret_tie_first_produced_witness :
  1 <= 2 <= Z.of_nat (List.length [mkPoint 1 1; mkPoint 2 3; mkPoint 3 4])
  /\ combinations [mkPoint 1 1; mkPoint 2 3; mkPoint 3 4] 2
     = Normal [[mkPoint 1 1; mkPoint 2 3]; [mkPoint 1 1; mkPoint 3 4];
               [mkPoint 2 3; mkPoint 3 4]]
  /\ Forall2 (fun combo v => outcome (lagrangeAtZero combo) = Normal v)
             [[mkPoint 1 1; mkPoint 2 3]; [mkPoint 1 1; mkPoint 3 4];
              [mkPoint 2 3; mkPoint 3 4]]
             [-1; 0; 1]
  /\ exists s c pre post,
       outcome (findSecret [mkPoint 1 1; mkPoint 2 3; mkPoint 3 4] 2)
       = Normal (mkResult s c 3)
       /\ [-1; 0; 1] = pre ++ s :: post
       /\ ~ In s pre
       /\ c = count_occ Z.eq_dec [-1; 0; 1] s
       /\ (forall v, (count_occ Z.eq_dec [-1; 0; 1]%Z v <= c)%nat)
       /\ (forall v, In v pre -> (count_occ Z.eq_dec [-1; 0; 1]%Z v < c)%nat)
       /\ (forall v, count_occ Z.eq_dec [-1; 0; 1] v = c -> ~ In v pre).
Proof.
  assert (Hk : 1 <= 2 <= Z.of_nat (List.length [mkPoint 1 1; mkPoint 2 3; mkPoint 3 4]))
    by (simpl; lia).
  assert (Hc : combinations [mkPoint 1 1; mkPoint 2 3; mkPoint 3 4] 2
               = Normal [[mkPoint 1 1; mkPoint 2 3]; [mkPoint 1 1; mkPoint 3 4];
                         [mkPoint 2 3; mkPoint 3 4]])
    by reflexivity.
  assert (Hr : Forall2 (fun combo v => outcome (lagrangeAtZero combo) = Normal v)
                       [[mkPoint 1 1; mkPoint 2 3]; [mkPoint 1 1; mkPoint 3 4];
                        [mkPoint 2 3; mkPoint 3 4]]
                       [-1; 0; 1]).
  { repeat (apply Forall2_cons; [vm_compute; reflexivity|]). apply Forall2_nil. }
  split; [exact Hk | split; [exact Hc | split; [exact Hr|]]].
  exact (findSecret_tie_first_produced _ 2 _ _ Hk Hc Hr).
Defined.

(** On that three-way tie the first value produced, -1, is returned. *)
Example findSecret_three_way_tie :
  outcome (findSecret [mkPoint 1 1; mkPoint 2 3; mkPoint 3 4] 2)
  = Normal (mkResult (-1) 1 3).
Proof. vm_compute. reflexivity. Qed.

(** C1: on the points (1,5), (2,7), (3,9) of f(x) = 2x + 3 and the corrupted
    point (4,99), with k = 2, [findSecret] returns the secret 3, found in 3 of
    the 6 combinations. *)
Theorem findSecret_one_corrupted_point :
  outcome (findSecret [mkPoint 1 5; mkPoint 2 7; mkPoint 3 9; mkPoint 4 99] 2)
  = Normal (mkResult 3 3 6).
Proof. vm_compute. reflexivity. Qed.

(** The tallying loop throws the division's exception or ends on the tally of
    the values of all combinations. *)
Lemma tally_loop_cases (combos : list (list point)) :
  forall seen,
    outcome (tally_loop combos (tally_of seen)) = Throw RangeError_DivisionByZero
    \/ exists results,
         Forall2 (fun combo v => outcome (lagrangeAtZero combo) = Normal v)
                 combos results.
Proof.
  induction combos as [|combo combos IH]; intros seen.
  - right. exists []. constructor.
  - cbn [tally_loop]. rewrite outcome_bind.
    destruct (outcome (lagrangeAtZero combo)) as [v|e] eqn:Ev.
    + rewrite tally_step. destruct (IH (seen ++ [v])) as [E|[results Hres]].
      * now left.
      * right. exists (v :: results). now constructor.
    + left. f_equal. eapply lagrangeAtZero_throws, Ev.
Qed.

(** [BigInt(null)] is reached in no other case than [n < k]: this TypeError
    tells a lack of points from every other failure of [findSecret]. *)
Lemma findSecret_null_best (points : list point) (k : Z) :
  outcome (findSecret points k) = Throw TypeError_NullToBigInt ->
  Z.of_nat (List.length points) < k.
Proof.
  intros H. destruct (Z_lt_ge_dec (Z.of_nat (List.length points)) k) as [|Hge];
    [assumption | exfalso].
  destruct (Z_lt_ge_dec k 0) as [Hneg|Hnn].
  - unfold findSecret in H. rewrite combinations_negative in H by assumption.
    discriminate H.
  - destruct (combinations_nonneg points k) as [combos [Hcombos _]]; [lia|].
    assert (Hne : combos <> [])
      by (apply (combinations_nonempty points k); [lia | assumption]).
    destruct (tally_loop_cases combos []) as [E|[results Hres]].
    + unfold findSecret in H. rewrite Hcombos, outcome_bind in H.
      cbn [lift outcome] in H. rewrite outcome_bind in H.
      change (tally_of []) with (@nil (string * nat)) in E.
      unfold Map in E. rewrite E in H. discriminate H.
    + assert (Hr : results <> []).
      { intros ->. inversion Hres; subst. now apply Hne. }
      destruct (best_loop_tally results Hr) as [s [c [pre [post [B _]]]]].
      rewrite (findSecret_outcome points k combos results s c Hcombos Hres B) in H.
      discriminate H.
Qed.

(** C5: with fewer points than the threshold, [findSecret] fails and returns
    no result: no combination exists, [best] stays [null] and [BigInt(best)]
    throws, a failure that [findSecret] has in this case only (the
    specification's InsufficientShares); so for 2 points and k = 3. *)
Theorem findSecret_insufficient_shares (points : list point) (k : Z) :
  Z.of_nat (List.length points) < k ->
  outcome (findSecret points k) = Throw TypeError_NullToBigInt
  /\ (forall r, outcome (findSecret points k) <> Normal r)
  /\ outcome (findSecret [mkPoint 1 5; mkPoint 2 7] 3) = Throw TypeError_NullToBigInt.
Proof.
  intros Hlt.
  assert (E : outcome (findSecret points k) = Throw TypeError_NullToBigInt).
  { unfold findSecret. rewrite combinations_too_many by assumption. reflexivity. }
  split; [exact E | split; [|reflexivity]].
  intros r Hr. rewrite E in Hr. discriminate Hr.
Qed.

Lemma findSecret_insufficient_shares_witness :
  Z.of_nat (List.length [mkPoint 1 5; mkPoint 2 7; mkPoint 3 9]) < 5 /\
  outcome (findSecret [mkPoint 1 5; mkPoint 2 7; mkPoint 3 9] 5)
  = Throw TypeError_NullToBigInt.
Proof.
  assert (H : Z.of_nat (List.length [mkPoint 1 5; mkPoint 2 7; mkPoint 3 9]) < 5)
    by (simpl; lia).
  split; [exact H|].
  exact (proj1 (findSecret_insufficient_shares _ 5 H)).
Defined.

End MajorityVote.

(** ** Reconstruction of a polynomial *)

Section Reconstruction.

Lemma eval_poly_quotient (coeffs : list Z) (a t : Z) :
  eval_poly coeffs t = eval_poly coeffs a + (t - a) * eval_poly (quotient_poly coeffs a) t.
Proof.
  induction coeffs as [|c coeffs IH]; simpl; [ring|].
  destruct coeffs as [|c' coeffs]; [simpl; ring|].
  remember (c' :: coeffs) as cs. simpl eval_poly at 3. rewrite IH. ring.
Qed.

Lemma length_quotient_poly (coeffs : list Z) (a : Z) :
  List.length (quotient_poly coeffs a) = pred (List.length coeffs).
Proof.
  induction coeffs as [|c coeffs IH]; simpl; [reflexivity|].
  destruct coeffs as [|c' coeffs]; [reflexivity|].
  simpl in *. now rewrite IH.
Qed.

Lemma weighted_sum_ext (f g : Z -> Q) (all xs : list Z) :
  (forall t, In t xs -> (f t == g t)%Q) ->
  (weighted_sum f all xs == weighted_sum g all xs)%Q.
Proof.
  induction xs as [|xi xs IH]; simpl; intros H; [reflexivity|].
  rewrite (H xi) by now left. rewrite IH; [reflexivity|].
  intros t Ht. apply H. now right.
Qed.

Lemma weighted_sum_add (f g : Z -> Q) (all xs : list Z) :
  (weighted_sum (fun t => f t + g t) all xs
   == weighted_sum f all xs + weighted_sum g all xs)%Q.
Proof.
  induction xs as [|xi xs IH]; simpl; [ring|]. rewrite IH. ring.
Qed.

Lemma weighted_sum_scale (c : Q) (f : Z -> Q) (all xs : list Z) :
  (weighted_sum (fun t => c * f t) all xs == c * weighted_sum f all xs)%Q.
Proof.
  induction xs as [|xi xs IH]; simpl; [ring|]. rewrite IH. ring.
Qed.

Lemma basis_of_perm (xi : Z) (xs xs' : list Z) :
  Permutation xs xs' -> (basis_of xi xs == basis_of xi xs')%Q.
Proof.
  induction 1 as [|a l l' _ IH|a b l|l l' l'' _ IH1 _ IH2]; simpl.
  - reflexivity.
  - now rewrite IH.
  - ring.
  - now rewrite IH1.
Qed.

Lemma weighted_sum_perm_all (f : Z -> Q) (all all' xs : list Z) :
  Permutation all all' ->
  (weighted_sum f all xs == weighted_sum f all' xs)%Q.
Proof.
  intros Hp. induction xs as [|xi xs IH]; simpl; [reflexivity|].
  now rewrite IH, (basis_of_perm xi all all' Hp).
Qed.

Lemma weighted_sum_perm (f : Z -> Q) (all xs xs' : list Z) :
  Permutation xs xs' ->
  (weighted_sum f all xs == weighted_sum f all xs')%Q.
Proof.
  induction 1 as [|a l l' _ IH|a b l|l l' l'' _ IH1 _ IH2]; simpl.
  - reflexivity.
  - now rewrite IH.
  - ring.
  - now rewrite IH1.
Qed.

(** A weight that vanishes at [a] lets the abscissa [a] go. *)
Lemma weighted_sum_remove_inner (a : Z) (g : Z -> Q) (all xs : list Z) :
  ~ In a xs ->
  (weighted_sum (fun t => inject_Z (t - a) * g t) (a :: all) xs
   == inject_Z (0 - a) * weighted_sum g all xs)%Q.
Proof.
  induction xs as [|xi xs IH]; cbn [weighted_sum basis_of]; intros Hnin; [ring|].
  rewrite IH by (intros H; apply Hnin; now right).
  destruct (Z.eqb_spec a xi) as [->|Hne]; [exfalso; apply Hnin; now left|].
  assert (Hnz : ~ (inject_Z (xi - a) == 0)%Q) by (apply inject_Z_nonzero; lia).
  field. exact Hnz.
Qed.

Lemma weighted_sum_remove (a : Z) (g : Z -> Q) (xs : list Z) :
  ~ In a xs ->
  (weighted_sum (fun t => inject_Z (t - a) * g t) (a :: xs) (a :: xs)
   == inject_Z (0 - a) * weighted_sum g xs xs)%Q.
Proof.
  intros Hnin. cbn [weighted_sum].
  rewrite weighted_sum_remove_inner by assumption.
  rewrite Z.sub_diag. change (inject_Z 0) with 0%Q. ring.
Qed.

Lemma inject_Z_sub (a b : Z) : (inject_Z (a - b) == inject_Z a - inject_Z b)%Q.
Proof. unfold Z.sub. rewrite inject_Z_plus, inject_Z_opp. ring. Qed.

(** The basis values of distinct abscissas add up to 1. *)
Lemma partition_of_unity (n : nat) :
  forall xs, List.length xs = S n -> NoDup xs ->
             (weighted_sum (fun _ => 1) xs xs == 1)%Q.
Proof.
  induction n as [|n IH]; intros xs Hlen Hnd.
  - destruct xs as [|a [|b xs]]; try discriminate Hlen.
    simpl. rewrite Z.eqb_refl. ring.
  - destruct xs as [|a [|b xs]]; try discriminate Hlen.
    inversion Hnd as [|? ? Ha Hnd']; subst.
    inversion Hnd' as [|? ? Hb Hnd'']; subst.
    assert (Hab : a <> b) by (intros ->; apply Ha; now left).
    assert (Hnz : ~ (inject_Z (a - b) == 0)%Q) by (apply inject_Z_nonzero; lia).
    assert (H1 : (weighted_sum (fun t => inject_Z (t - a) * 1) (a :: b :: xs) (a :: b :: xs)
                  == inject_Z (0 - a) * 1)%Q).
    { rewrite weighted_sum_remove by assumption.
      rewrite (IH (b :: xs)); [reflexivity | simpl in *; lia | assumption]. }
    assert (H2 : (weighted_sum (fun t => inject_Z (t - b) * 1) (a :: b :: xs) (a :: b :: xs)
                  == inject_Z (0 - b) * 1)%Q).
    { rewrite (weighted_sum_perm_all _ (a :: b :: xs) (b :: a :: xs)) by constructor.
      rewrite (weighted_sum_perm _ _ (a :: b :: xs) (b :: a :: xs)) by constructor.
      rewrite weighted_sum_remove.
      - rewrite (IH (a :: xs)); [reflexivity | simpl in *; lia|].
        constructor; [|assumption]. intros Hin. apply Ha. now right.
      - intros [Hin|Hin]; [now apply Hab | now apply Hb]. }
    rewrite (weighted_sum_ext (fun _ => 1%Q)
               (fun t => (/ inject_Z (a - b))
                         * (inject_Z (t - b) * 1 + Qopp 1 * (inject_Z (t - a) * 1)))%Q).
    + rewrite weighted_sum_scale, weighted_sum_add, weighted_sum_scale, H1, H2.
      rewrite inject_Z_sub in Hnz. rewrite !inject_Z_sub.
      change (inject_Z 0) with 0%Q. field. exact Hnz.
    + intros t _. rewrite inject_Z_sub in Hnz. rewrite !inject_Z_sub.
      field. exact Hnz.
Qed.

(** Lagrange interpolation at zero is exact on a polynomial that has fewer
    coefficients than there are abscissas. *)
Lemma weighted_sum_poly (xs : list Z) :
  forall coeffs,
    NoDup xs -> (List.length coeffs <= List.length xs)%nat ->
    (weighted_sum (fun t => inject_Z (eval_poly coeffs t)) xs xs
     == inject_Z (eval_poly coeffs 0))%Q.
Proof.
  induction xs as [|a xs IH]; intros coeffs Hnd Hlen.
  - destruct coeffs; [reflexivity | simpl in Hlen; lia].
  - inversion Hnd as [|? ? Ha Hnd']; subst.
    rewrite (weighted_sum_ext _
               (fun t => inject_Z (eval_poly coeffs a) * 1
                         + inject_Z (t - a) * inject_Z (eval_poly (quotient_poly coeffs a) t))%Q).
    + rewrite weighted_sum_add, weighted_sum_scale.
      rewrite (partition_of_unity (List.length xs)) by (auto; constructor; auto).
      rewrite weighted_sum_remove by assumption.
      rewrite IH; [|assumption|].
      * rewrite (eval_poly_quotient coeffs a 0).
        rewrite inject_Z_plus, inject_Z_mult. ring.
      * rewrite length_quotient_poly. simpl in Hlen. lia.
    + intros t _. rewrite (eval_poly_quotient coeffs a t) at 1.
      rewrite inject_Z_plus, inject_Z_mult. ring.
Qed.

Lemma basis_by_value_of (xi : Z) (ps : list point) :
  basis_by_value xi ps = basis_of xi (map x ps).
Proof.
  induction ps as [|pj ps IH]; simpl; [reflexivity|]. now rewrite IH.
Qed.

Lemma sum_by_value_weighted (f : Z -> Q) (points ps : list point) :
  (forall p, In p ps -> (inject_Z (y p) == f (x p))%Q) ->
  (sum_by_value points ps == weighted_sum f (map x points) (map x ps))%Q.
Proof.
  induction ps as [|pi ps IH]; simpl; intros H; [reflexivity|].
  rewrite IH by (intros p Hp; apply H; now right).
  rewrite basis_by_value_of, (H pi) by now left. reflexivity.
Qed.

(** The exact sum of points on a polynomial is the polynomial's value at 0. *)
Lemma lagrange_sum_poly (coeffs : list Z) (points : list point) :
  distinct_x points ->
  Forall (on_poly coeffs) points ->
  (List.length coeffs <= List.length points)%nat ->
  (lagrange_sum points == inject_Z (eval_poly coeffs 0))%Q.
Proof.
  intros Hd Hon Hlen. unfold lagrange_sum.
  rewrite (sum_from_by_value points Hd points 0%nat) by (intros k q Hk; exact Hk).
  rewrite (sum_by_value_weighted (fun t => inject_Z (eval_poly coeffs t))).
  - apply weighted_sum_poly; [exact Hd | now rewrite length_map].
  - intros p Hp. rewrite Forall_forall in Hon. now rewrite (Hon p Hp).
Qed.

Lemma truncated_integer (q : Q) (c : Z) : (q == inject_Z c)%Q -> truncated q = c.
Proof.
  intros H. unfold truncated. rewrite (Qred_complete _ _ H), Qred_identity.
  - simpl. apply Z.quot_1_r.
  - apply Z.gcd_1_r.
Qed.

Lemma lagrangeAtZero_poly (coeffs : list Z) (points : list point) :
  distinct_x points ->
  Forall (on_poly coeffs) points ->
  (List.length coeffs <= List.length points)%nat ->
  lagrangeAtZero points =
  mkRun (6 * List.length points + 1) (Normal (eval_poly coeffs 0)).
Proof.
  intros Hd Hon Hlen. rewrite (lagrangeAtZero_exact points Hd).
  now rewrite (truncated_integer _ _ (lagrange_sum_poly coeffs points Hd Hon Hlen)).
Qed.

End Reconstruction.

(** X1 (reconstruction): on points with pairwise distinct abscissas that lie
    on a polynomial with integer coefficients, fewer coefficients than
    points, [lagrangeAtZero] returns the constant term, exactly. *)
Theorem lagrangeAtZero_recovers_constant_term (coeffs : list Z) (points : list point) :
  distinct_x points ->
  Forall (on_poly coeffs) points ->
  (List.length coeffs <= List.length points)%nat ->
  outcome (lagrangeAtZero points) = Normal (eval_poly coeffs 0)
  /\ eval_poly coeffs 0 = hd 0 coeffs.
Proof.
  intros Hd Hon Hlen. rewrite (lagrangeAtZero_poly coeffs points Hd Hon Hlen).
  split; [reflexivity|]. destruct coeffs; simpl; ring.
Qed.

Lemma lagrangeAtZero_recovers_constant_term_witness :
  distinct_x [mkPoint 1 6; mkPoint (-2) 27; mkPoint 4 57]
  /\ Forall (on_poly [5; -3; 4]) [mkPoint 1 6; mkPoint (-2) 27; mkPoint 4 57]
  /\ (List.length [5; -3; 4]%Z <= List.length [mkPoint 1 6; mkPoint (-2) 27; mkPoint 4 57])%nat
  /\ outcome (lagrangeAtZero [mkPoint 1 6; mkPoint (-2) 27; mkPoint 4 57]) = Normal 5.
Proof.
  assert (Hd : distinct_x [mkPoint 1 6; mkPoint (-2) 27; mkPoint 4 57]).
  { unfold distinct_x. simpl.
    repeat (apply NoDup_cons; [simpl; lia|]). apply NoDup_nil. }
  assert (Hon : Forall (on_poly [5; -3; 4]) [mkPoint 1 6; mkPoint (-2) 27; mkPoint 4 57]).
  { repeat (apply Forall_cons; [reflexivity|]). apply Forall_nil. }
  assert (Hlen : (List.length [5; -3; 4]%Z
                  <= List.length [mkPoint 1 6; mkPoint (-2) 27; mkPoint 4 57])%nat)
    by (simpl; lia).
  split; [exact Hd | split; [exact Hon | split; [exact Hlen|]]].
  exact (proj1 (lagrangeAtZero_recovers_constant_term _ _ Hd Hon Hlen)).
Defined.

(** ** Completeness of the enumeration, and the vote on good and bad points *)

Section Vote.

Lemma subseq_length {A : Type} (s l : list A) :
  subseq s l -> (List.length s <= List.length l)%nat.
Proof. induction 1; simpl; lia. Qed.

Lemma subseq_refl {A : Type} (l : list A) : subseq l l.
Proof. induction l; constructor; assumption. Qed.

Lemma subseq_map {A B : Type} (f : A -> B) (s l : list A) :
  subseq s l -> subseq (map f s) (map f l).
Proof. induction 1; simpl; constructor; assumption. Qed.

Lemma subseq_NoDup {A : Type} (s l : list A) : subseq s l -> NoDup l -> NoDup s.
Proof.
  induction 1 as [|a s l Hs IH|a s l Hs IH]; intros Hnd.
  - constructor.
  - inversion Hnd; subst. now apply IH.
  - inversion Hnd as [|? ? Hnin Hnd']; subst. constructor; [|now apply IH].
    intros Hin. apply Hnin. eapply subseq_In; [exact Hs | exact Hin].
Qed.

Lemma subseq_app_l {A : Type} (l1 s l : list A) : subseq s l -> subseq s (l1 ++ l).
Proof. intros H. induction l1; simpl; [assumption | now constructor]. Qed.

(** Every subsequence of the array with [r] elements is enumerated. *)
Lemma combinations_complete {A : Type} (c arr : list A) :
  subseq c arr ->
  forall combos,
    combinations arr (Z.of_nat (List.length c)) = Normal combos -> In c combos.
Proof.
  induction 1 as [|a s l Hs IH|a s l Hs IH]; intros combos E.
  - simpl in E. injection E as <-. now left.
  - destruct s as [|b s].
    + rewrite combinations_zero in E. injection E as <-. now left.
    + pose proof (subseq_length _ _ Hs) as Hle.
      rewrite combinations_cons in E by (simpl; lia).
      destruct (Z.ltb_spec (Z.of_nat (S (List.length l)))
                           (Z.of_nat (List.length (b :: s)))) as [Hbig|_];
        [simpl in *; lia|].
      destruct (combinations l (Z.of_nat (List.length (b :: s)) - 1)) as [c1|e];
        [|discriminate E].
      destruct (combinations l (Z.of_nat (List.length (b :: s)))) as [c2|e] eqn:E2;
        [|discriminate E].
      simpl in E. injection E as <-. apply in_or_app. right. now apply IH.
  - pose proof (subseq_length _ _ Hs) as Hle.
    rewrite combinations_cons in E by (simpl; lia).
    destruct (Z.ltb_spec (Z.of_nat (S (List.length l)))
                         (Z.of_nat (List.length (a :: s)))) as [Hbig|_];
      [simpl in *; lia|].
    replace (Z.of_nat (List.length (a :: s)) - 1) with (Z.of_nat (List.length s)) in E
      by (simpl List.length; lia).
    destruct (combinations l (Z.of_nat (List.length s))) as [c1|e] eqn:E1;
      [|discriminate E].
    destruct (combinations l (Z.of_nat (List.length (a :: s)))) as [c2|e];
      [|discriminate E].
    simpl in E. injection E as <-. apply in_or_app. left.
    apply in_map. now apply IH.
Qed.

(** X2 (completeness): for [k >= 0] the subsets that [combinations] returns
    are exactly the subsequences of the array that have [k] elements. *)
Theorem combinations_exactly_the_subsequences {A : Type} (arr : list A) (k : Z)
  (combos : list (list A)) (c : list A) :
  0 <= k ->
  combinations arr k = Normal combos ->
  (In c combos <-> subseq c arr /\ List.length c = Z.to_nat k).
Proof.
  intros Hk E. split.
  - intros Hin. destruct (combinations_nonneg arr k Hk) as [combos' [E' [_ [F _]]]].
    rewrite E in E'. injection E' as <-. rewrite Forall_forall in F.
    destruct (F c Hin) as [Hl Hs]. now split.
  - intros [Hs Hl]. apply (combinations_complete c arr Hs).
    rewrite Hl, Z2Nat.id by assumption. exact E.
Qed.

Lemma combinations_exactly_the_subsequences_witness :
  0 <= 2
  /\ combinations [7; 8; 9] 2 = Normal [[7; 8]; [7; 9]; [8; 9]]
  /\ (In [7; 9] [[7; 8]; [7; 9]; [8; 9]]
      <-> subseq [7; 9] [7; 8; 9] /\ List.length [7; 9] = Z.to_nat 2).
Proof.
  assert (Hk : 0 <= 2) by lia.
  assert (E : combinations [7; 8; 9] 2 = Normal [[7; 8]; [7; 9]; [8; 9]])
    by reflexivity.
  split; [exact Hk | split; [exact E|]].
  exact (combinations_exactly_the_subsequences [7; 8; 9] 2 _ [7; 9] Hk E).
Defined.

Lemma binomial_0_r (n : nat) : binomial n 0 = 1%nat.
Proof. destruct n; reflexivity. Qed.

(** The subsets made of good elements only are as many as the subsets of the
    good elements. *)
Lemma combinations_count_good {A : Type} (good : A -> bool) (arr : list A) :
  forall r combos,
    0 <= r ->
    combinations arr r = Normal combos ->
    List.length (filter (forallb good) combos)
    = binomial (List.length (filter good arr)) (Z.to_nat r).
Proof.
  induction arr as [|a arr IH]; intros r combos Hr E.
  - destruct (Z.eq_dec r 0) as [->|Hnz].
    + simpl in E. injection E as <-. reflexivity.
    + rewrite combinations_too_many in E by (simpl; lia). injection E as <-.
      simpl. destruct (Z.to_nat r) eqn:Er; [lia | reflexivity].
  - destruct (Z.eq_dec r 0) as [->|Hnz].
    + rewrite combinations_zero in E. injection E as <-.
      change (Z.to_nat 0) with 0%nat. now rewrite binomial_0_r.
    + rewrite combinations_cons in E by lia.
      destruct (Z.ltb_spec (Z.of_nat (S (List.length arr))) r) as [Hbig|Hfit].
      * injection E as <-. simpl filter at 1. simpl List.length at 1.
        rewrite binomial_small; [reflexivity|].
        pose proof (filter_length_le good (a :: arr)). simpl List.length in *. lia.
      * destruct (combinations arr (r - 1)) as [c1|e] eqn:E1; [|discriminate E].
        destruct (combinations arr r) as [c2|e] eqn:E2; [|discriminate E].
        simpl in E. injection E as <-.
        rewrite filter_app, length_app.
        rewrite (IH r c2) by (auto; lia).
        replace (Z.to_nat r) with (S (Z.to_nat (r - 1))) by lia.
        assert (Hf : filter (forallb good) (map (fun c => a :: c) c1)
                     = if good a then map (fun c => a :: c) (filter (forallb good) c1)
                       else []).
        { clear. induction c1 as [|c c1 IHc]; simpl; [now destruct (good a)|].
          rewrite IHc. destruct (good a); simpl; [|reflexivity].
          destruct (forallb good c); reflexivity. }
        rewrite Hf. simpl filter. destruct (good a); simpl List.length.
        -- rewrite length_map, (IH (r - 1) c1) by (auto; lia). reflexivity.
        -- destruct (List.length (filter good arr)); reflexivity.
Qed.

Lemma count_occ_map_filter {A : Type} (p : A -> bool) (f : A -> Z) (v : Z) (l : list A) :
  (forall a, In a l -> p a = true -> f a = v) ->
  (List.length (filter p l) <= count_occ Z.eq_dec (map f l) v)%nat.
Proof.
  induction l as [|a l IH]; simpl; intros H; [lia|].
  assert (IH' : (List.length (filter p l) <= count_occ Z.eq_dec (map f l) v)%nat)
    by (apply IH; intros b Hb; apply H; now right).
  destruct (p a) eqn:Hp; simpl.
  - rewrite (H a (or_introl eq_refl) Hp). destruct (Z.eq_dec v v); [lia | contradiction].
  - destruct (Z.eq_dec (f a) v); lia.
Qed.

Lemma count_occ_two (l : list Z) (v w : Z) :
  v <> w ->
  (count_occ Z.eq_dec l v + count_occ Z.eq_dec l w <= List.length l)%nat.
Proof.
  intros Hne. induction l as [|a l IH]; simpl; [lia|].
  destruct (Z.eq_dec a v), (Z.eq_dec a w); lia.
Qed.

Lemma Forall2_map_r {A B : Type} (R : A -> B -> Prop) (f : A -> B) (l : list A) :
  Forall (fun a => R a (f a)) l -> Forall2 R l (map f l).
Proof. induction 1; simpl; constructor; assumption. Qed.

(** On distinct abscissas every combination interpolates: its value is the
    truncated exact sum. *)
Lemma combinations_values (points : list point) (k : Z) (combos : list (list point)) :
  distinct_x points -> 0 <= k ->
  combinations points k = Normal combos ->
  Forall2 (fun combo v => outcome (lagrangeAtZero combo) = Normal v) combos
          (map (fun combo => truncated (lagrange_sum combo)) combos)
  /\ Forall (fun combo => distinct_x combo /\ subseq combo points
                          /\ List.length combo = Z.to_nat k) combos.
Proof.
  intros Hd Hk E.
  destruct (combinations_nonneg points k Hk) as [combos' [E' [_ [F _]]]].
  rewrite E in E'. injection E' as <-.
  assert (F' : Forall (fun combo => distinct_x combo /\ subseq combo points
                                    /\ List.length combo = Z.to_nat k) combos).
  { eapply Forall_impl; [|exact F]. intros c [Hl Hs]. split; [|now split].
    unfold distinct_x. eapply subseq_NoDup; [|exact Hd]. now apply subseq_map. }
  split; [|exact F'].
  apply Forall2_map_r. eapply Forall_impl; [|exact F'].
  intros c [Hc _]. now rewrite (lagrangeAtZero_exact c Hc).
Qed.

(** The vote: when the subsets made of points of the polynomial alone are
    more than half of all subsets, the polynomial's constant term wins. *)
Lemma findSecret_good_majority (coeffs : list Z) (points : list point) (k : Z) :
  distinct_x points ->
  0 <= k ->
  (List.length coeffs <= Z.to_nat k)%nat ->
  (binomial (List.length points) (Z.to_nat k)
   < 2 * binomial (List.length (filter (on_polyb coeffs) points)) (Z.to_nat k))%nat ->
  exists c,
    outcome (findSecret points k)
    = Normal (mkResult (eval_poly coeffs 0) c
                       (binomial (List.length points) (Z.to_nat k)))
    /\ (binomial (List.length (filter (on_polyb coeffs) points)) (Z.to_nat k) <= c
        <= binomial (List.length points) (Z.to_nat k))%nat.
Proof.
  intros Hd Hk Hdeg Hmaj.
  destruct (combinations_nonneg points k Hk) as [combos [E [L _]]].
  destruct (combinations_values points k combos Hd Hk E) as [Hres F].
  set (results := map (fun combo => truncated (lagrange_sum combo)) combos) in *.
  pose proof (combinations_count_good (on_polyb coeffs) points k combos Hk E) as Hgood.
  assert (Hcount : (List.length (filter (forallb (on_polyb coeffs)) combos)
                    <= count_occ Z.eq_dec results (eval_poly coeffs 0))%nat).
  { apply count_occ_map_filter. intros c Hc Hall.
    rewrite Forall_forall in F. destruct (F c Hc) as [Hdc [_ Hlc]].
    apply truncated_integer, lagrange_sum_poly; [exact Hdc | | lia].
    rewrite forallb_forall in Hall. apply Forall_forall. intros p Hp.
    specialize (Hall p Hp). unfold on_polyb in Hall. unfold on_poly.
    now apply Z.eqb_eq in Hall. }
  assert (Hlen : List.length results = binomial (List.length points) (Z.to_nat k)).
  { unfold results. now rewrite length_map. }
  assert (Hne : results <> []).
  { intros H0. rewrite H0 in Hcount. simpl in Hcount. lia. }
  destruct (best_loop_tally results Hne) as [s [c [pre [post [B [_ [_ [Hc [_ Hmax]]]]]]]]].
  assert (Hs : s = eval_poly coeffs 0).
  { destruct (Z.eq_dec s (eval_poly coeffs 0)) as [|Hdiff]; [assumption|].
    pose proof (count_occ_two results s (eval_poly coeffs 0) Hdiff).
    specialize (Hmax (eval_poly coeffs 0)). lia. }
  exists c. split.
  - rewrite (findSecret_outcome points k combos results s c E Hres B).
    now rewrite Hs, L.
  - pose proof (count_occ_bound Z.eq_dec s results). subst s. lia.
Qed.

(** X3 (fault tolerance): let the points have pairwise distinct abscissas and
    [g] of them lie on a polynomial with at most [k] integer coefficients. If
    the subsets of these [g] points are more than half of all subsets of size
    [k], [findSecret] returns the polynomial's constant term, with a count
    between the two binomials. *)
Theorem findSecret_tolerates_corrupted_points (coeffs : list Z) (points : list point)
  (k : Z) :
  distinct_x points ->
  0 <= k ->
  (List.length coeffs <= Z.to_nat k)%nat ->
  (binomial (List.length points) (Z.to_nat k)
   < 2 * binomial (List.length (filter (on_polyb coeffs) points)) (Z.to_nat k))%nat ->
  exists c,
    outcome (findSecret points k)
    = Normal (mkResult (eval_poly coeffs 0) c
                       (binomial (List.length points) (Z.to_nat k)))
    /\ (binomial (List.length (filter (on_polyb coeffs) points)) (Z.to_nat k) <= c
        <= binomial (List.length points) (Z.to_nat k))%nat.
Proof. exact (findSecret_good_majority coeffs points k). Qed.

Lemma findSecret_tolerates_corrupted_points_witness :
  distinct_x [mkPoint 1 5; mkPoint 2 7; mkPoint 3 9; mkPoint 4 11; mkPoint 5 0]
  /\ 0 <= 2
  /\ (List.length [3; 2]%Z <= Z.to_nat 2)%nat
  /\ (binomial 5 (Z.to_nat 2) < 2 * binomial 4 (Z.to_nat 2))%nat
  /\ exists c,
       outcome (findSecret [mkPoint 1 5; mkPoint 2 7; mkPoint 3 9; mkPoint 4 11;
                            mkPoint 5 0] 2)
       = Normal (mkResult 3 c 10) /\ (6 <= c <= 10)%nat.
Proof.
  assert (Hd : distinct_x [mkPoint 1 5; mkPoint 2 7; mkPoint 3 9; mkPoint 4 11;
                           mkPoint 5 0]).
  { unfold distinct_x. simpl.
    repeat (apply NoDup_cons; [simpl; lia|]). apply NoDup_nil. }
  assert (Hk : 0 <= 2) by lia.
  assert (Hdeg : (List.length [3; 2]%Z <= Z.to_nat 2)%nat) by (simpl; lia).
  assert (Hmaj : (binomial 5 (Z.to_nat 2) < 2 * binomial 4 (Z.to_nat 2))%nat)
    by (simpl; lia).
  split; [exact Hd | split; [exact Hk | split; [exact Hdeg | split; [exact Hmaj|]]]].
  exact (findSecret_tolerates_corrupted_points [3; 2] _ 2 Hd Hk Hdeg Hmaj).
Defined.

(** X4 (no corruption): when all points, of pairwise distinct abscissas, lie
    on a polynomial with at most [k] integer coefficients and [0 <= k <= n],
    every subset votes for the constant term: [count] and [total] are both
    the binomial of [n] and [k]. *)
Theorem findSecret_unanimous (coeffs : list Z) (points : list point) (k : Z) :
  distinct_x points ->
  Forall (on_poly coeffs) points ->
  0 <= k <= Z.of_nat (List.length points) ->
  (List.length coeffs <= Z.to_nat k)%nat ->
  outcome (findSecret points k)
  = Normal (mkResult (eval_poly coeffs 0)
                     (binomial (List.length points) (Z.to_nat k))
                     (binomial (List.length points) (Z.to_nat k))).
Proof.
  intros Hd Hon Hk Hdeg.
  assert (Hall : filter (on_polyb coeffs) points = points).
  { clear Hd Hk. induction Hon as [|p ps Hp _ IH]; simpl; [reflexivity|].
    unfold on_polyb at 1. unfold on_poly in Hp. rewrite Hp, Z.eqb_refl.
    now rewrite IH. }
  pose proof (binomial_pos (List.length points) (Z.to_nat k)) as Hpos.
  destruct (findSecret_good_majority coeffs points k Hd) as [c [E Hc]];
    [lia | exact Hdeg | rewrite Hall; lia |].
  rewrite Hall in Hc. rewrite E. f_equal. f_equal. lia.
Qed.

Lemma findSecret_unanimous_witness :
  distinct_x [mkPoint 1 5; mkPoint 2 7; mkPoint 3 9]
  /\ Forall (on_poly [3; 2]) [mkPoint 1 5; mkPoint 2 7; mkPoint 3 9]
  /\ 0 <= 3 <= Z.of_nat (List.length [mkPoint 1 5; mkPoint 2 7; mkPoint 3 9])
  /\ (List.length [3; 2]%Z <= Z.to_nat 3)%nat
  /\ outcome (findSecret [mkPoint 1 5; mkPoint 2 7; mkPoint 3 9] 3)
     = Normal (mkResult 3 1 1).
Proof.
  assert (Hd : distinct_x [mkPoint 1 5; mkPoint 2 7; mkPoint 3 9]).
  { unfold distinct_x. simpl.
    repeat (apply NoDup_cons; [simpl; lia|]). apply NoDup_nil. }
  assert (Hon : Forall (on_poly [3; 2]) [mkPoint 1 5; mkPoint 2 7; mkPoint 3 9]).
  { repeat (apply Forall_cons; [reflexivity|]). apply Forall_nil. }
  assert (Hk : 0 <= 3 <= Z.of_nat (List.length [mkPoint 1 5; mkPoint 2 7; mkPoint 3 9]))
    by (simpl; lia).
  assert (Hdeg : (List.length [3; 2]%Z <= Z.to_nat 3)%nat) by (simpl; lia).
  split; [exact Hd | split; [exact Hon | split; [exact Hk | split; [exact Hdeg|]]]].
  exact (findSecret_unanimous [3; 2] _ 3 Hd Hon Hk Hdeg).
Defined.

(** A repeated abscissa makes the interpolation throw. *)
Lemma lagrangeAtZero_duplicate_throws (points : list point) :
  duplicate_x points ->
  outcome (lagrangeAtZero points) = Throw RangeError_DivisionByZero.
Proof.
  intros [i [j [pi [pj [Hne [Hi [Hj Hx]]]]]]].
  unfold lagrangeAtZero. rewrite outcome_bind.
  destruct (sum_loop_duplicate points points 0%nat (0, 1)) as [E|[n E]].
  - exists i, pi, j, pj.
    split; [exact Hi | split; [exact Hj | split; [simpl; lia | now symmetry]]].
  - now rewrite E.
  - rewrite E. reflexivity.
Qed.

(** A subsequence can be grown, inside the list, to any length between its
    own and the list's. *)
Lemma subseq_extend {A : Type} (s l : list A) :
  subseq s l ->
  forall m, (List.length s <= m <= List.length l)%nat ->
            exists c, subseq s c /\ subseq c l /\ List.length c = m.
Proof.
  induction 1 as [|a s l Hs IH|a s l Hs IH]; intros m Hm.
  - exists []. split; [constructor | split; [constructor | simpl in *; lia]].
  - destruct (Nat.eq_dec m (S (List.length l))) as [->|Hlt].
    + exists (a :: l). split; [now constructor | split; [apply subseq_refl | reflexivity]].
    + destruct (IH m) as [c [H1 [H2 H3]]]; [simpl in Hm; lia|].
      exists c. split; [assumption | split; [now constructor | assumption]].
  - destruct m as [|m]; [simpl in Hm; lia|].
    destruct (IH m) as [c [H1 [H2 H3]]]; [simpl in Hm; lia|].
    exists (a :: c). split; [now constructor | split; [now constructor | simpl; lia]].
Qed.

Lemma subseq_cons_split {A : Type} (a : A) (s c : list A) :
  subseq (a :: s) c -> exists l1 c', c = l1 ++ a :: c' /\ subseq s c'.
Proof.
  intros H. remember (a :: s) as s0 eqn:Hs0. revert a s Hs0.
  induction H as [|b s0 l H IH|b s0 l H IH]; intros a s Hs0; [discriminate Hs0| |].
  - destruct (IH a s Hs0) as [l1 [c' [-> Hs]]]. exists (b :: l1), c'. now split.
  - injection Hs0 as -> ->. exists [], l. now split.
Qed.

Lemma subseq_pair_of_indices {A : Type} (l : list A) (i j : nat) (a b : A) :
  (i < j)%nat -> nth_error l i = Some a -> nth_error l j = Some b ->
  subseq [a; b] l.
Proof.
  intros Hlt Hi Hj.
  destruct (nth_error_split l i Hi) as [l1 [l2 [-> Hl1]]].
  rewrite nth_error_app2 in Hj by lia.
  replace (j - List.length l1)%nat with (S (j - S i))%nat in Hj by lia.
  simpl in Hj. destruct (nth_error_split l2 _ Hj) as [l3 [l4 [-> _]]].
  apply subseq_app_l, subseq_take, subseq_app_l, subseq_take, subseq_nil_l.
Qed.

Lemma duplicate_x_of_pair (a b : point) (c : list point) :
  x a = x b -> subseq [a; b] c -> duplicate_x c.
Proof.
  intros Hx Hs.
  destruct (subseq_cons_split a [b] c Hs) as [l1 [c' [-> Hs']]].
  destruct (subseq_cons_split b [] c' Hs') as [l2 [c'' [-> _]]].
  exists (List.length l1), (List.length l1 + S (List.length l2))%nat, a, b.
  split; [lia | split; [|split; [|exact Hx]]].
  - rewrite nth_error_app2 by lia. now rewrite Nat.sub_diag.
  - rewrite nth_error_app2 by lia.
    replace (List.length l1 + S (List.length l2) - List.length l1)%nat
      with (S (List.length l2)) by lia.
    simpl. rewrite nth_error_app2 by lia. now rewrite Nat.sub_diag.
Qed.

(** With a repeated abscissa in the list and room for two, some subset of
    size [m] repeats it. *)
Lemma duplicate_x_subset (points : list point) (m : nat) :
  duplicate_x points ->
  (2 <= m <= List.length points)%nat ->
  exists c, subseq c points /\ List.length c = m /\ duplicate_x c.
Proof.
  intros [i [j [pi [pj [Hne [Hi [Hj Hx]]]]]]] Hm.
  assert (Hpair : exists a b, x a = x b /\ subseq [a; b] points).
  { destruct (Nat.lt_ge_cases i j) as [Hlt|Hge].
    - exists pi, pj. split; [exact Hx|].
      exact (subseq_pair_of_indices points i j pi pj Hlt Hi Hj).
    - exists pj, pi. split; [now symmetry|].
      apply (subseq_pair_of_indices points j i pj pi); [lia | exact Hj | exact Hi]. }
  destruct Hpair as [a [b [Hab Hs]]].
  destruct (subseq_extend _ _ Hs m) as [c [H1 [H2 H3]]]; [simpl; lia|].
  exists c. split; [exact H2 | split; [exact H3|]].
  exact (duplicate_x_of_pair a b c Hab H1).
Qed.

(** One combination that throws makes the tallying loop throw. *)
Lemma tally_loop_throws (combos : list (list point)) (combo : list point) :
  In combo combos ->
  outcome (lagrangeAtZero combo) = Throw RangeError_DivisionByZero ->
  forall seen,
    outcome (tally_loop combos (tally_of seen)) = Throw RangeError_DivisionByZero.
Proof.
  intros Hin Hthrow seen.
  destruct (tally_loop_cases combos seen) as [E|[results Hres]]; [exact E|].
  exfalso. clear seen. induction Hres as [|c v combos results Hv _ IH].
  - contradiction.
  - destruct Hin as [->|Hin]; [congruence | now apply IH].
Qed.

Lemma findSecret_throws_on_duplicate (points : list point) (k : Z) :
  duplicate_x points ->
  2 <= k <= Z.of_nat (List.length points) ->
  outcome (findSecret points k) = Throw RangeError_DivisionByZero.
Proof.
  intros Hdup Hk.
  destruct (combinations_nonneg points k) as [combos [E _]]; [lia|].
  destruct (duplicate_x_subset points (Z.to_nat k) Hdup) as [c [Hs [Hl Hc]]]; [lia|].
  assert (Hin : In c combos).
  { apply (combinations_complete c points Hs). rewrite Hl, Z2Nat.id by lia. exact E. }
  pose proof (tally_loop_throws combos c Hin (lagrangeAtZero_duplicate_throws c Hc) [])
    as Ht.
  change (tally_of []) with (@nil (string * nat)) in Ht.
  unfold findSecret. rewrite E, outcome_bind. cbn [lift outcome].
  rewrite outcome_bind. unfold Map in Ht. now rewrite Ht.
Qed.

(** X5 (a repeated abscissa defeats the vote): when two of the points share
    their abscissa and [2 <= k <= n], [findSecret] returns nothing: the
    subset that holds both makes it throw the division's RangeError, however
    many subsets avoid the pair. *)
Theorem findSecret_duplicate_abscissa (points : list point) (k : Z) :
  duplicate_x points ->
  2 <= k <= Z.of_nat (List.length points) ->
  outcome (findSecret points k) = Throw RangeError_DivisionByZero.
Proof. exact (findSecret_throws_on_duplicate points k). Qed.

Lemma findSecret_duplicate_abscissa_witness :
  duplicate_x [mkPoint 1 5; mkPoint 2 7; mkPoint 3 9; mkPoint 2 7]
  /\ 2 <= 2 <= Z.of_nat (List.length [mkPoint 1 5; mkPoint 2 7; mkPoint 3 9; mkPoint 2 7])
  /\ outcome (findSecret [mkPoint 1 5; mkPoint 2 7; mkPoint 3 9; mkPoint 2 7] 2)
     = Throw RangeError_DivisionByZero.
Proof.
  assert (Hdup : duplicate_x [mkPoint 1 5; mkPoint 2 7; mkPoint 3 9; mkPoint 2 7]).
  { exists 1%nat, 3%nat, (mkPoint 2 7), (mkPoint 2 7). repeat split. lia. }
  assert (Hk : 2 <= 2 <= Z.of_nat (List.length [mkPoint 1 5; mkPoint 2 7; mkPoint 3 9;
                                                 mkPoint 2 7])) by (simpl; lia).
  split; [exact Hdup | split; [exact Hk|]].
  exact (findSecret_duplicate_abscissa _ 2 Hdup Hk).
Defined.

End Vote.

(** ** More on decoding *)

Section DecodeMore.

Lemma toLowerCase_append (s1 s2 : string) :
  toLowerCase (s1 ++ s2) = (toLowerCase s1 ++ toLowerCase s2)%string.
Proof. induction s1 as [|c s1 IH]; simpl; [reflexivity | now rewrite IH]. Qed.

Lemma length_toLowerCase (s : string) : String.length (toLowerCase s) = String.length s.
Proof. induction s as [|c s IH]; simpl; [reflexivity | now rewrite IH]. Qed.

Lemma decodeValue_loop_append (base : Z) (s1 s2 : string) :
  forall acc,
    decodeValue_loop base base (s1 ++ s2) acc =
    match decodeValue_loop base base s1 acc with
    | Normal r => decodeValue_loop base base s2 r
    | Throw e => Throw e
    end.
Proof.
  induction s1 as [|c s1 IH]; intros acc; simpl; [reflexivity|].
  destruct (BigInt_of_Number (parseInt c base)); simpl; [apply IH | reflexivity].
Qed.

(** What the loop has accumulated moves up by one place a character; whether
    it throws does not depend on it. *)
Lemma decodeValue_loop_acc (base : Z) (s : string) :
  forall acc,
    decodeValue_loop base base s acc =
    match decodeValue_loop base base s 0 with
    | Normal v => Normal (acc * base ^ Z.of_nat (String.length s) + v)
    | Throw e => Throw e
    end.
Proof.
  induction s as [|c s IH]; intros acc; simpl decodeValue_loop.
  - simpl. f_equal. ring.
  - destruct (BigInt_of_Number (parseInt c base)) as [d|e]; simpl bind; [|reflexivity].
    rewrite (IH (acc * base + d)), (IH d).
    destruct (decodeValue_loop base base s 0) as [v|e]; [|reflexivity].
    f_equal. cbn [String.length]. rewrite Nat2Z.inj_succ, Z.pow_succ_r by lia. ring.
Qed.

(** X6 (place value): for a base within 32 bits, decoding a concatenation
    decodes both parts, the left one first, and shifts the left value by the
    length of the right part; it throws what the first failing part throws.
    A base outside 2..36 is not excluded. *)
Theorem decodeValue_append (base : Z) (s1 s2 : string) :
  - 2 ^ 31 <= base < 2 ^ 31 ->
  decodeValue base (s1 ++ s2) =
  match decodeValue base s1, decodeValue base s2 with
  | Normal v1, Normal v2 => Normal (v1 * base ^ Z.of_nat (String.length s2) + v2)
  | Throw e, _ => Throw e
  | Normal _, Throw e => Throw e
  end.
Proof.
  intros _. unfold decodeValue. cbv zeta.
  rewrite toLowerCase_append, decodeValue_loop_append.
  destruct (decodeValue_loop base base (toLowerCase s1) 0) as [v1|e]; [|reflexivity].
  rewrite decodeValue_loop_acc, length_toLowerCase.
  destruct (decodeValue_loop base base (toLowerCase s2) 0); reflexivity.
Qed.

Lemma decodeValue_append_witness :
  - 2 ^ 31 <= 16 < 2 ^ 31
  /\ decodeValue 16 ("1f" ++ "F0")
     = Normal (31 * 16 ^ Z.of_nat (String.length "F0") + 240).
Proof.
  assert (Hbase : - 2 ^ 31 <= 16 < 2 ^ 31) by lia.
  split; [exact Hbase|].
  exact (decodeValue_append 16 "1f" "F0" Hbase).
Defined.

Lemma parseInt_bound (c : ascii) (base v : Z) :
  2 <= base <= 36 -> parseInt c base = Some v -> 0 <= v < base.
Proof.
  intros Hb H. rewrite parseInt_in_range in H by assumption.
  unfold parseInt_digit in H.
  pose proof (N2Z.is_nonneg (N_of_ascii c)) as Hn.
  destruct ((48 <=? Z.of_N (N_of_ascii c)) && (Z.of_N (N_of_ascii c) <=? 57)) eqn:E1.
  - apply andb_prop in E1. destruct E1 as [E1 E1'].
    destruct (Z.ltb_spec (Z.of_N (N_of_ascii c) - 48) base); inversion H; lia.
  - destruct ((97 <=? Z.of_N (N_of_ascii c)) && (Z.of_N (N_of_ascii c) <=? 122)) eqn:E2.
    + apply andb_prop in E2. destruct E2 as [E2 E2'].
      destruct (Z.ltb_spec (Z.of_N (N_of_ascii c) - 87) base); inversion H; lia.
    + destruct ((65 <=? Z.of_N (N_of_ascii c)) && (Z.of_N (N_of_ascii c) <=? 90)) eqn:E3;
        [|discriminate H].
      apply andb_prop in E3. destruct E3 as [E3 E3'].
      destruct (Z.ltb_spec (Z.of_N (N_of_ascii c) - 55) base); inversion H; lia.
Qed.

Lemma decodeValue_loop_bound (base : Z) (s : string) :
  2 <= base <= 36 ->
  forall v, decodeValue_loop base base s 0 = Normal v ->
            0 <= v < base ^ Z.of_nat (String.length s).
Proof.
  intros Hb. induction s as [|c s IH]; intros v H.
  - simpl in H. injection H as <-. simpl. lia.
  - simpl decodeValue_loop in H.
    destruct (parseInt c base) as [d|] eqn:Hd; simpl in H; [|discriminate H].
    rewrite decodeValue_loop_acc in H.
    destruct (decodeValue_loop base base s 0) as [w|e]; [|discriminate H].
    injection H as <-. specialize (IH w eq_refl).
    pose proof (parseInt_bound c base d Hb Hd).
    cbn [String.length]. rewrite Nat2Z.inj_succ, Z.pow_succ_r by lia. nia.
Qed.

(** X7 (range): for a base in 2..36, a value decoded from [n] characters is
    at least 0 and below [base ^ n]. *)
Theorem decodeValue_bound (base : Z) (valueStr : string) (v : Z) :
  2 <= base <= 36 ->
  decodeValue base valueStr = Normal v ->
  0 <= v < base ^ Z.of_nat (String.length valueStr).
Proof.
  intros Hb H. rewrite <- length_toLowerCase.
  now apply decodeValue_loop_bound.
Qed.

Lemma decodeValue_bound_witness :
  2 <= 16 <= 36 /\ decodeValue 16 "fF" = Normal 255
  /\ 0 <= 255 < 16 ^ Z.of_nat (String.length "fF").
Proof.
  assert (Hb : 2 <= 16 <= 36) by lia.
  assert (H : decodeValue 16 "fF" = Normal 255) by reflexivity.
  split; [exact Hb | split; [exact H|]].
  exact (decodeValue_bound 16 "fF" 255 Hb H).
Defined.

(** X8 (a base outside 2..36): such a base (0 apart, which [parseInt] reads as
    radix 10) is not rejected as such: the empty string still decodes to 0,
    and any other string throws the RangeError of [BigInt(NaN)] at its first
    character. *)
Theorem decodeValue_base_out_of_range (base : Z) (valueStr : string) :
  - 2 ^ 31 <= base < 2 ^ 31 ->
  base <> 0 ->
  base < 2 \/ 36 < base ->
  decodeValue base valueStr =
  match valueStr with
  | EmptyString => Normal 0
  | String _ _ => Throw RangeError_NaNToBigInt
  end.
Proof.
  intros Hr H0 Hout. destruct valueStr as [|c s]; [reflexivity|].
  unfold decodeValue. cbv zeta. simpl.
  unfold parseInt. rewrite ToInt32_small by assumption.
  destruct (Z.eqb_spec base 0); [contradiction|].
  destruct (Z.ltb_spec base 2), (Z.ltb_spec 36 base); try reflexivity. lia.
Qed.

Lemma decodeValue_base_out_of_range_witness :
  - 2 ^ 31 <= 37 < 2 ^ 31 /\ 37 <> 0 /\ (37 < 2 \/ 36 < 37)
  /\ decodeValue 37 "10" = Throw RangeError_NaNToBigInt.
Proof.
  assert (Hr : - 2 ^ 31 <= 37 < 2 ^ 31) by lia.
  assert (H0 : 37 <> 0) by lia.
  assert (Hout : 37 < 2 \/ 36 < 37) by lia.
  split; [exact Hr | split; [exact H0 | split; [exact Hout|]]].
  exact (decodeValue_base_out_of_range 37 "10" Hr H0 Hout).
Defined.

End DecodeMore.

(** ** More on the rational arithmetic of [lagrangeAtZero] *)

Section FractionsMore.

(** X9 ([gcd]): the loop of [gcd] ends and returns the greatest common divisor
    of its arguments, whatever their signs: a non-negative common divisor
    that every common divisor divides (so 0 for 0 and 0). *)
Theorem gcd_greatest_common_divisor (a b : Z) :
  0 <= gcd a b
  /\ (gcd a b | a) /\ (gcd a b | b)
  /\ (forall d, (d | a) -> (d | b) -> (d | gcd a b))
  /\ gcd a b = gcd b a.
Proof.
  rewrite !gcd_correct. split; [apply Z.gcd_nonneg|].
  split; [apply Z.gcd_divide_l|]. split; [apply Z.gcd_divide_r|].
  split; [intros d; apply Z.gcd_greatest | apply Z.gcd_comm].
Qed.

Lemma gcd_greatest_common_divisor_witness :
  (6 | -12) /\ (6 | 18) /\ (6 | gcd (-12) 18).
Proof.
  assert (H1 : (6 | -12)) by (exists (-2); reflexivity).
  assert (H2 : (6 | 18)) by (exists 3; reflexivity).
  split; [exact H1 | split; [exact H2|]].
  exact (proj1 (proj2 (proj2 (proj2 (gcd_greatest_common_divisor (-12) 18)))) 6 H1 H2).
Defined.

(** X10 (zero denominator): [simplify] does not reject a denominator of 0. A
    nonzero numerator over 0 becomes its sign over 0; 0 over 0 throws at the
    first division, by the greatest common divisor 0. *)
Theorem simplify_zero_denominator (n : Z) :
  n <> 0 ->
  simplify n 0 = mkRun 2 (Normal (Z.sgn n, 0))
  /\ simplify 0 0 = mkRun 1 (Throw RangeError_DivisionByZero).
Proof.
  intros Hn. split; [|reflexivity].
  unfold simplify. change (0 <? 0) with false. cbv iota beta.
  rewrite negate_if_negative, gcd_correct, Z.gcd_0_r, Z.abs_idemp.
  unfold bigint_div. destruct (Z.eqb_spec (Z.abs n) 0) as [H0|_]; [lia|].
  cbn [bind ret run_monad outcome divisions]. f_equal. f_equal. f_equal.
  transitivity (Z.quot (Z.sgn n * Z.abs n) (Z.abs n)).
  - f_equal. rewrite Z.mul_comm. symmetry. apply Z.abs_sgn.
  - apply Z.quot_mul. lia.
Qed.

Lemma simplify_zero_denominator_witness :
  -6 <> 0 /\ simplify (-6) 0 = mkRun 2 (Normal (-1, 0)).
Proof.
  assert (H : -6 <> 0) by lia.
  split; [exact H|]. exact (proj1 (simplify_zero_denominator (-6) H)).
Defined.

Lemma canonical_unique (n d n' d' : Z) :
  canonical n d -> canonical n' d' -> (toQ (n, d) == toQ (n', d'))%Q ->
  n = n' /\ d = d'.
Proof.
  intros Hc Hc' Heq.
  destruct (canonical_Qred n d (toQ (n, d)) Hc (Qeq_refl _)) as [H1 H2].
  destruct (canonical_Qred n' d' (toQ (n, d)) Hc') as [H3 H4]; [now symmetry|].
  split; congruence.
Qed.

Lemma simplify_canonical (n d : Z) :
  canonical n d -> simplify n d = mkRun 2 (Normal (n, d)).
Proof.
  intros Hc. destruct (simplify_exact n d) as [n' [d' [E [Hc' Hq]]]];
    [now apply canonical_nonzero in Hc|].
  destruct (canonical_unique n' d' n d Hc' Hc Hq) as [-> ->]. exact E.
Qed.

(** X11 (exact arithmetic): on nonzero denominators [simplify] keeps the
    rational value, [addFrac] returns the sum and [mulFrac] the product, each
    as the one canonical pair of that value; a canonical pair is left as it
    is. *)
Theorem fractions_exact (n1 d1 n2 d2 : Z) :
  d1 <> 0 -> d2 <> 0 ->
  (exists n d, outcome (simplify n1 d1) = Normal (n, d) /\ canonical n d
               /\ (toQ (n, d) == toQ (n1, d1))%Q)
  /\ (exists n d, outcome (addFrac (n1, d1) (n2, d2)) = Normal (n, d) /\ canonical n d
                  /\ (toQ (n, d) == toQ (n1, d1) + toQ (n2, d2))%Q)
  /\ (exists n d, outcome (mulFrac (n1, d1) (n2, d2)) = Normal (n, d) /\ canonical n d
                  /\ (toQ (n, d) == toQ (n1, d1) * toQ (n2, d2))%Q)
  /\ (canonical n1 d1 -> outcome (simplify n1 d1) = Normal (n1, d1)).
Proof.
  intros H1 H2. split; [|split; [|split]].
  - destruct (simplify_exact n1 d1 H1) as [n [d [E H]]].
    exists n, d. now rewrite E.
  - destruct (addFrac_exact n1 d1 n2 d2 H1 H2) as [n [d [E H]]].
    exists n, d. now rewrite E.
  - destruct (mulFrac_exact n1 d1 n2 d2 H1 H2) as [n [d [E H]]].
    exists n, d. now rewrite E.
  - intros Hc. now rewrite (simplify_canonical n1 d1 Hc).
Qed.

Lemma fractions_exact_witness :
  6 <> 0 /\ -4 <> 0 /\
  exists n d, outcome (addFrac (9, 6) (10, -4)) = Normal (n, d) /\ canonical n d
              /\ (toQ (n, d) == toQ (9, 6)%Z + toQ (10, -4)%Z)%Q.
Proof.
  assert (H1 : 6 <> 0) by lia.
  assert (H2 : -4 <> 0) by lia.
  split; [exact H1 | split; [exact H2|]].
  exact (proj1 (proj2 (fractions_exact 9 6 10 (-4) H1 H2))).
Defined.

End FractionsMore.

(** ** When the interpolation and the vote return *)

Section Returns.

(** Abscissas are pairwise distinct, or two points share one. *)
Lemma distinct_or_duplicate (points : list point) :
  distinct_x points \/ duplicate_x points.
Proof.
  induction points as [|a l IH]; [left; constructor|].
  destruct IH as [Hd|[i [j [pi [pj [Hne [Hi [Hj Hx]]]]]]]].
  - destruct (in_dec Z.eq_dec (x a) (map x l)) as [Hin|Hnin].
    + right. apply in_map_iff in Hin. destruct Hin as [p [Hp Hin]].
      apply In_nth_error in Hin. destruct Hin as [j Hj].
      exists 0%nat, (S j), a, p. repeat split; auto.
    + left. unfold distinct_x. simpl. now constructor.
  - right. exists (S i), (S j), pi, pj. repeat split; auto.
Qed.

(** X12 (when the interpolation returns): [lagrangeAtZero] returns a value
    exactly when the abscissas are pairwise distinct; otherwise it throws the
    division's RangeError. *)
Theorem lagrangeAtZero_returns_iff (points : list point) :
  ((exists v, outcome (lagrangeAtZero points) = Normal v) <-> distinct_x points)
  /\ (~ distinct_x points ->
      outcome (lagrangeAtZero points) = Throw RangeError_DivisionByZero).
Proof.
  split; [split|].
  - intros [v Hv]. destruct (distinct_or_duplicate points) as [Hd|Hdup]; [exact Hd|].
    rewrite (lagrangeAtZero_duplicate_throws points Hdup) in Hv. discriminate Hv.
  - intros Hd. rewrite (lagrangeAtZero_exact points Hd). now eexists.
  - intros Hnd. destruct (distinct_or_duplicate points) as [Hd|Hdup]; [contradiction|].
    exact (lagrangeAtZero_duplicate_throws points Hdup).
Qed.

Lemma lagrangeAtZero_returns_iff_witness :
  distinct_x [mkPoint 0 4; mkPoint 2 8]
  /\ exists v, outcome (lagrangeAtZero [mkPoint 0 4; mkPoint 2 8]) = Normal v.
Proof.
  assert (Hd : distinct_x [mkPoint 0 4; mkPoint 2 8]).
  { unfold distinct_x. simpl.
    repeat (apply NoDup_cons; [simpl; lia|]). apply NoDup_nil. }
  split; [exact Hd|].
  exact (proj2 (proj1 (lagrangeAtZero_returns_iff _)) Hd).
Defined.

Lemma truncated_error (q : Q) :
  (Qabs (q - inject_Z (truncated q)) < 1)%Q
  /\ ((0 <= q)%Q -> (0 <= inject_Z (truncated q) <= q)%Q)
  /\ ((q <= 0)%Q -> (q <= inject_Z (truncated q) <= 0)%Q).
Proof.
  unfold truncated. pose proof (Qred_correct q) as Hq.
  destruct (Qred q) as [n d]. simpl Qnum. simpl Qden.
  rewrite <- Hq. clear Hq q.
  pose proof (Z.quot_rem' n (Z.pos d)) as Hqr.
  assert (Hd : 0 < Z.pos d) by lia.
  split; [|split].
  - apply Qabs_Qlt_condition. unfold Qlt, Qminus, Qplus, Qopp, inject_Z. simpl.
    rewrite ?Pos.mul_1_r, ?Z.mul_1_r. change (Z.neg d) with (- Z.pos d).
    destruct (Z_le_gt_dec 0 n) as [Hn|Hn].
    + pose proof (Z.rem_bound_pos n (Z.pos d) Hn Hd) as Hr.
      remember (n ÷ Z.pos d) as qv. remember (Z.rem n (Z.pos d)) as r. nia.
    + assert (Hneg : n <= 0) by lia.
      pose proof (Z.rem_bound_pos_neg n (Z.pos d) Hd Hneg) as Hr.
      remember (n ÷ Z.pos d) as qv. remember (Z.rem n (Z.pos d)) as r. nia.
  - unfold Qle, inject_Z. simpl. rewrite ?Pos.mul_1_r, ?Z.mul_1_r. intros Hn.
    assert (Hnn : 0 <= n) by lia.
    pose proof (Z.rem_bound_pos n (Z.pos d) Hnn Hd) as Hr.
    pose proof (Z.quot_pos n (Z.pos d) Hnn Hd) as Hq.
    remember (n ÷ Z.pos d) as qv. remember (Z.rem n (Z.pos d)) as r. split; nia.
  - unfold Qle, inject_Z. simpl. rewrite ?Pos.mul_1_r, ?Z.mul_1_r. intros Hn.
    assert (Hneg : n <= 0) by lia.
    pose proof (Z.rem_bound_pos_neg n (Z.pos d) Hd Hneg) as Hr.
    assert (Hq : n ÷ Z.pos d <= 0).
    { rewrite <- (Z.opp_involutive n), Z.quot_opp_l, Z.opp_nonpos_nonneg by lia.
      apply Z.quot_pos; lia. }
    remember (n ÷ Z.pos d) as qv. remember (Z.rem n (Z.pos d)) as r. split; nia.
Qed.

(** X13 (truncation): on pairwise distinct abscissas the integer returned
    differs from the exact Lagrange sum by less than 1 and lies between 0 and
    the sum: the sum is rounded toward zero. *)
Theorem lagrangeAtZero_rounds_toward_zero (points : list point) :
  distinct_x points ->
  exists v,
    outcome (lagrangeAtZero points) = Normal v
    /\ (Qabs (lagrange_sum points - inject_Z v) < 1)%Q
    /\ ((0 <= lagrange_sum points)%Q -> (0 <= inject_Z v <= lagrange_sum points)%Q)
    /\ ((lagrange_sum points <= 0)%Q -> (lagrange_sum points <= inject_Z v <= 0)%Q).
Proof.
  intros Hd. exists (truncated (lagrange_sum points)).
  rewrite (lagrangeAtZero_exact points Hd). split; [reflexivity|].
  apply truncated_error.
Qed.

Lemma lagrangeAtZero_rounds_toward_zero_witness :
  distinct_x [mkPoint 1 5; mkPoint 4 99]
  /\ exists v,
       outcome (lagrangeAtZero [mkPoint 1 5; mkPoint 4 99]) = Normal v
       /\ (Qabs (lagrange_sum [mkPoint 1 5; mkPoint 4 99] - inject_Z v) < 1)%Q.
Proof.
  assert (Hd : distinct_x [mkPoint 1 5; mkPoint 4 99]).
  { unfold distinct_x. simpl.
    repeat (apply NoDup_cons; [simpl; lia|]). apply NoDup_nil. }
  split; [exact Hd|].
  destruct (lagrangeAtZero_rounds_toward_zero _ Hd) as [v [E [H _]]].
  exists v. split; [exact E | exact H].
Defined.

Lemma Forall2_In_r {A B : Type} (R : A -> B -> Prop) (l : list A) (l' : list B) (b : B) :
  Forall2 R l l' -> In b l' -> exists a, In a l /\ R a b.
Proof.
  induction 1 as [|a b' l l' Hab _ IH]; intros Hin; [contradiction|].
  destruct Hin as [->|Hin].
  - exists a. split; [now left | assumption].
  - destruct (IH Hin) as [a' [Ha' HR]]. exists a'. split; [now right | assumption].
Qed.

(** What a returned result says. *)
Lemma findSecret_Normal (points : list point) (k : Z) (r : RecoveryResult) :
  outcome (findSecret points k) = Normal r ->
  0 <= k <= Z.of_nat (List.length points)
  /\ exists combos results,
       combinations points k = Normal combos
       /\ Forall2 (fun combo v => outcome (lagrangeAtZero combo) = Normal v)
                  combos results
       /\ total r = List.length combos
       /\ count r = count_occ Z.eq_dec results (secret r)
       /\ In (secret r) results.
Proof.
  intros H.
  destruct (Z_lt_ge_dec k 0) as [Hneg|Hnn].
  { unfold findSecret in H. rewrite combinations_negative in H by assumption.
    discriminate H. }
  destruct (Z_lt_ge_dec (Z.of_nat (List.length points)) k) as [Hbig|Hfit].
  { unfold findSecret in H. rewrite combinations_too_many in H by assumption.
    discriminate H. }
  split; [lia|].
  destruct (combinations_nonneg points k) as [combos [Hcombos _]]; [lia|].
  assert (Hne : combos <> [])
    by (apply (combinations_nonempty points k); [lia | assumption]).
  destruct (tally_loop_cases combos []) as [E|[results Hres]].
  - unfold findSecret in H. rewrite Hcombos, outcome_bind in H.
    cbn [lift outcome] in H. rewrite outcome_bind in H.
    change (tally_of []) with (@nil (string * nat)) in E.
    unfold Map in E. rewrite E in H. discriminate H.
  - assert (Hr : results <> []).
    { intros ->. inversion Hres; subst. now apply Hne. }
    destruct (best_loop_tally results Hr) as [s [c [pre [post [B [Hsplit [_ [Hc _]]]]]]]].
    rewrite (findSecret_outcome points k combos results s c Hcombos Hres B) in H.
    injection H as <-. exists combos, results. simpl.
    split; [exact Hcombos | split; [exact Hres | split; [reflexivity | split; [exact Hc|]]]].
    rewrite Hsplit. apply in_or_app. right. now left.
Qed.

(** X14 (what a result says): whenever [findSecret] returns, [0 <= k <= n],
    [total] is the binomial of [n] and [k], [count] is between 1 and [total]
    and is the number of subsets whose value is [secret], and some subset has
    that value. *)
Theorem findSecret_result (points : list point) (k : Z) (r : RecoveryResult) :
  outcome (findSecret points k) = Normal r ->
  0 <= k <= Z.of_nat (List.length points)
  /\ total r = binomial (List.length points) (Z.to_nat k)
  /\ (1 <= count r <= total r)%nat
  /\ exists combos results,
       combinations points k = Normal combos
       /\ Forall2 (fun combo v => outcome (lagrangeAtZero combo) = Normal v)
                  combos results
       /\ count r = count_occ Z.eq_dec results (secret r)
       /\ exists combo, In combo combos
                        /\ outcome (lagrangeAtZero combo) = Normal (secret r).
Proof.
  intros H.
  destruct (findSecret_Normal points k r H)
    as [Hk [combos [results [E [Hres [Ht [Hc Hin]]]]]]].
  destruct (combinations_nonneg points k) as [combos' [E' [L _]]]; [lia|].
  rewrite E in E'. injection E' as <-.
  split; [exact Hk | split; [now rewrite Ht|]]. split.
  - rewrite Hc, Ht, (Forall2_length Hres).
    split; [|apply count_occ_bound].
    apply (count_occ_In Z.eq_dec) in Hin. lia.
  - exists combos, results.
    split; [exact E | split; [exact Hres | split; [exact Hc|]]].
    exact (Forall2_In_r _ _ _ _ Hres Hin).
Qed.

Lemma findSecret_result_witness :
  outcome (findSecret [mkPoint 1 5; mkPoint 2 7; mkPoint 3 9; mkPoint 4 99] 2)
  = Normal (mkResult 3 3 6)
  /\ total (mkResult 3 3 6)
     = binomial (List.length [mkPoint 1 5; mkPoint 2 7; mkPoint 3 9; mkPoint 4 99])
                (Z.to_nat 2)
  /\ (1 <= count (mkResult 3 3 6) <= total (mkResult 3 3 6))%nat.
Proof.
  assert (H : outcome (findSecret [mkPoint 1 5; mkPoint 2 7; mkPoint 3 9; mkPoint 4 99] 2)
              = Normal (mkResult 3 3 6)) by (vm_compute; reflexivity).
  split; [exact H|].
  destruct (findSecret_result _ 2 _ H) as [_ [Ht [Hc _]]].
  split; [exact Ht | exact Hc].
Defined.

(** X15 (when the vote returns): for [2 <= k <= n], [findSecret] returns a
    result exactly when the abscissas of the points are pairwise distinct;
    otherwise it throws the division's RangeError. *)
Theorem findSecret_returns_iff (points : list point) (k : Z) :
  2 <= k <= Z.of_nat (List.length points) ->
  ((exists r, outcome (findSecret points k) = Normal r) <-> distinct_x points)
  /\ (~ distinct_x points ->
      outcome (findSecret points k) = Throw RangeError_DivisionByZero).
Proof.
  intros Hk. split; [split|].
  - intros [r Hr]. destruct (distinct_or_duplicate points) as [Hd|Hdup]; [exact Hd|].
    rewrite (findSecret_throws_on_duplicate points k Hdup Hk) in Hr. discriminate Hr.
  - intros Hd.
    destruct (combinations_nonneg points k) as [combos [E _]]; [lia|].
    destruct (combinations_values points k combos Hd) as [Hres _]; [lia | exact E|].
    assert (Hne : map (fun combo => truncated (lagrange_sum combo)) combos <> []).
    { intros H0. apply map_eq_nil in H0.
      now apply (combinations_nonempty points k combos); [lia | |]. }
    destruct (best_loop_tally _ Hne) as [s [c [pre [post [B _]]]]].
    eexists. exact (findSecret_outcome points k combos _ s c E Hres B).
  - intros Hnd. destruct (distinct_or_duplicate points) as [Hd|Hdup]; [contradiction|].
    exact (findSecret_throws_on_duplicate points k Hdup Hk).
Qed.

Lemma findSecret_returns_iff_witness :
  2 <= 3 <= Z.of_nat (List.length [mkPoint 1 5; mkPoint 2 7; mkPoint 3 9])
  /\ ((exists r, outcome (findSecret [mkPoint 1 5; mkPoint 2 7; mkPoint 3 9] 3) = Normal r)
      <-> distinct_x [mkPoint 1 5; mkPoint 2 7; mkPoint 3 9]).
Proof.
  assert (Hk : 2 <= 3 <= Z.of_nat (List.length [mkPoint 1 5; mkPoint 2 7; mkPoint 3 9]))
    by (simpl; lia).
  split; [exact Hk|].
  exact (proj1 (findSecret_returns_iff _ 3 Hk)).
Defined.

End Returns.

(** ** The Java [Fraction] and the computation of [main] *)

Import LagrangePolynomial.

Section Java.

Lemma new_Fraction_exact (n d : Z) :
  d <> 0 ->
  exists f, new_Fraction n d = Normal f /\ canonical (num f) (den f)
            /\ (ratio f == toQ (n, d))%Q.
Proof.
  intros Hd. destruct (new_Fraction_nonzero n d Hd) as [f [E [Hc Hx]]].
  exists f. split; [exact E | split; [exact Hc|]].
  unfold ratio. apply toQ_cross; [now apply canonical_nonzero in Hc | assumption | assumption].
Qed.

(** The constructor leaves a canonical pair as it is. *)
Lemma new_Fraction_canonical (n d : Z) :
  canonical n d -> new_Fraction n d = Normal (mkFraction n d).
Proof.
  intros Hc. destruct (new_Fraction_exact n d) as [f [E [Hc' Hq]]];
    [now apply canonical_nonzero in Hc|].
  destruct (canonical_unique _ _ _ _ Hc' Hc Hq) as [Hn Hd].
  rewrite E. destruct f as [fn fd]. simpl in *. now subst.
Qed.

Lemma canonical_integer (n : Z) : canonical n 1.
Proof. split; [lia | apply Z.gcd_1_r]. Qed.

Lemma new_Fraction_throws (n d : Z) (e : exception) :
  new_Fraction n d = Throw e -> e = ArithmeticException_DenominatorZero.
Proof.
  intros H. destruct (Z.eq_dec d 0) as [->|Hd].
  - rewrite new_Fraction_zero in H. now injection H.
  - destruct (new_Fraction_nonzero n d Hd) as [f [E _]]. congruence.
Qed.

Lemma add_exact (f g : Fraction) :
  den f <> 0 -> den g <> 0 ->
  exists h, add f g = Normal h /\ canonical (num h) (den h)
            /\ (ratio h == ratio f + ratio g)%Q.
Proof.
  intros Hf Hg. unfold add.
  destruct (new_Fraction_exact (num f * den g + num g * den f) (den f * den g))
    as [h [E [Hc Hq]]]; [nia|].
  exists h. split; [exact E | split; [exact Hc|]].
  rewrite Hq. unfold ratio, toQ. simpl. rewrite inject_Z_plus, !inject_Z_mult.
  apply inject_Z_nonzero in Hf, Hg. field. split; assumption.
Qed.

Lemma multiply_exact (f g : Fraction) :
  den f <> 0 -> den g <> 0 ->
  exists h, multiply f g = Normal h /\ canonical (num h) (den h)
            /\ (ratio h == ratio f * ratio g)%Q.
Proof.
  intros Hf Hg. unfold multiply.
  destruct (new_Fraction_exact (num f * num g) (den f * den g))
    as [h [E [Hc Hq]]]; [nia|].
  exists h. split; [exact E | split; [exact Hc|]].
  rewrite Hq. unfold ratio, toQ. simpl. rewrite !inject_Z_mult.
  apply inject_Z_nonzero in Hf, Hg. field. split; assumption.
Qed.

Lemma subtract_exact (f g : Fraction) :
  den f <> 0 -> den g <> 0 ->
  exists h, subtract f g = Normal h /\ canonical (num h) (den h)
            /\ (ratio h == ratio f - ratio g)%Q.
Proof.
  intros Hf Hg. unfold subtract.
  destruct (new_Fraction_exact (- num g) (den g) Hg) as [ng [E [Hc Hq]]].
  rewrite E. simpl bind.
  destruct (add_exact f ng Hf) as [h [E' [Hc' Hq']]];
    [now apply canonical_nonzero in Hc|].
  exists h. split; [exact E' | split; [exact Hc'|]].
  rewrite Hq', Hq. unfold ratio, toQ. simpl. rewrite inject_Z_opp.
  apply inject_Z_nonzero in Hf, Hg. field. split; assumption.
Qed.

Lemma divide_exact (f g : Fraction) :
  den f <> 0 -> den g <> 0 -> num g <> 0 ->
  exists h, divide f g = Normal h /\ canonical (num h) (den h)
            /\ (ratio h == ratio f / ratio g)%Q.
Proof.
  intros Hf Hg Hn. unfold divide.
  destruct (new_Fraction_exact (num f * den g) (den f * num g))
    as [h [E [Hc Hq]]]; [nia|].
  exists h. split; [exact E | split; [exact Hc|]].
  rewrite Hq. unfold ratio, toQ. simpl. rewrite !inject_Z_mult.
  apply inject_Z_nonzero in Hf, Hg, Hn. field. repeat split; assumption.
Qed.

Lemma divide_by_zero (f g : Fraction) :
  num g = 0 -> divide f g = Throw ArithmeticException_DenominatorZero.
Proof.
  intros H. unfold divide. rewrite H, Z.mul_0_r. apply new_Fraction_zero.
Qed.

(** X16 (exact arithmetic of [Fraction]): on operands with nonzero
    denominators, [add], [multiply], [subtract] and [divide] return the sum,
    the product, the difference and the quotient of the operands' rational
    values; [divide] by a fraction of numerator 0 throws. *)
Theorem Fraction_arithmetic_exact (f g : Fraction) :
  den f <> 0 -> den g <> 0 ->
  (exists h, add f g = Normal h /\ (ratio h == ratio f + ratio g)%Q)
  /\ (exists h, multiply f g = Normal h /\ (ratio h == ratio f * ratio g)%Q)
  /\ (exists h, subtract f g = Normal h /\ (ratio h == ratio f - ratio g)%Q)
  /\ (num g <> 0 ->
      exists h, divide f g = Normal h /\ (ratio h == ratio f / ratio g)%Q)
  /\ (num g = 0 -> divide f g = Throw ArithmeticException_DenominatorZero).
Proof.
  intros Hf Hg. split; [|split; [|split; [|split]]].
  - destruct (add_exact f g Hf Hg) as [h [E [_ Hq]]]. now exists h.
  - destruct (multiply_exact f g Hf Hg) as [h [E [_ Hq]]]. now exists h.
  - destruct (subtract_exact f g Hf Hg) as [h [E [_ Hq]]]. now exists h.
  - intros Hn. destruct (divide_exact f g Hf Hg Hn) as [h [E [_ Hq]]]. now exists h.
  - apply divide_by_zero.
Qed.

Lemma Fraction_arithmetic_exact_witness :
  den (mkFraction 3 4) <> 0 /\ den (mkFraction 5 (-6)) <> 0
  /\ exists h, subtract (mkFraction 3 4) (mkFraction 5 (-6)) = Normal h
               /\ (ratio h == ratio (mkFraction 3 4) - ratio (mkFraction 5 (-6)))%Q.
Proof.
  assert (H1 : den (mkFraction 3 4) <> 0) by (simpl; lia).
  assert (H2 : den (mkFraction 5 (-6)) <> 0) by (simpl; lia).
  split; [exact H1 | split; [exact H2|]].
  exact (proj1 (proj2 (proj2 (Fraction_arithmetic_exact _ _ H1 H2)))).
Defined.

(** A fraction in canonical form is determined by its rational value. *)
Lemma Fraction_canonical_unique (f g : Fraction) :
  canonical (num f) (den f) -> canonical (num g) (den g) ->
  (ratio f == ratio g)%Q -> f = g.
Proof.
  intros Hf Hg Hq. destruct (canonical_unique _ _ _ _ Hf Hg Hq) as [Hn Hd].
  destruct f, g. simpl in *. now subst.
Qed.

(** X17 (laws of [Fraction]): [ZERO] and [ONE] are what the constructor
    builds; on a canonical fraction [f], adding [ZERO] and multiplying by
    [ONE] return [f] itself, [f] minus [f] is [ZERO] and, when [f] is not
    zero, [f] divided by [f] is [ONE]; [add] and [multiply] do not depend on
    the order of their operands. *)
Theorem Fraction_laws (f g : Fraction) :
  canonical (num f) (den f) ->
  new_Fraction 0 1 = Normal ZERO
  /\ new_Fraction 1 1 = Normal ONE
  /\ add f ZERO = Normal f
  /\ multiply f ONE = Normal f
  /\ subtract f f = Normal ZERO
  /\ (num f <> 0 -> divide f f = Normal ONE)
  /\ add f g = add g f
  /\ multiply f g = multiply g f.
Proof.
  intros Hc. pose proof (canonical_nonzero _ _ Hc) as Hd.
  assert (Hz : canonical (num ZERO) (den ZERO)) by (split; [simpl; lia | reflexivity]).
  assert (Ho : canonical (num ONE) (den ONE)) by (split; [simpl; lia | reflexivity]).
  split; [reflexivity | split; [reflexivity|]].
  split; [|split; [|split; [|split; [|split]]]].
  - destruct (add_exact f ZERO Hd) as [h [E [Hh Hq]]]; [simpl; lia|].
    rewrite E. f_equal. apply Fraction_canonical_unique; [assumption | assumption|].
    rewrite Hq. unfold ratio, toQ. simpl. apply inject_Z_nonzero in Hd. field. exact Hd.
  - destruct (multiply_exact f ONE Hd) as [h [E [Hh Hq]]]; [simpl; lia|].
    rewrite E. f_equal. apply Fraction_canonical_unique; [assumption | assumption|].
    rewrite Hq. unfold ratio, toQ. simpl. apply inject_Z_nonzero in Hd. field. exact Hd.
  - destruct (subtract_exact f f Hd Hd) as [h [E [Hh Hq]]].
    rewrite E. f_equal. apply Fraction_canonical_unique; [assumption | assumption|].
    rewrite Hq. unfold ratio, toQ. simpl. apply inject_Z_nonzero in Hd. field. exact Hd.
  - intros Hn. destruct (divide_exact f f Hd Hd Hn) as [h [E [Hh Hq]]].
    rewrite E. f_equal. apply Fraction_canonical_unique; [assumption | assumption|].
    rewrite Hq. unfold ratio, toQ. simpl.
    apply inject_Z_nonzero in Hd, Hn. field. split; assumption.
  - unfold add. f_equal; ring.
  - unfold multiply. f_equal; ring.
Qed.

Lemma Fraction_laws_witness :
  canonical (num (mkFraction (-3) 4)) (den (mkFraction (-3) 4))
  /\ add (mkFraction (-3) 4) ZERO = Normal (mkFraction (-3) 4)
  /\ subtract (mkFraction (-3) 4) (mkFraction (-3) 4) = Normal ZERO.
Proof.
  assert (Hc : canonical (num (mkFraction (-3) 4)) (den (mkFraction (-3) 4)))
    by (split; [simpl; lia | reflexivity]).
  pose proof (Fraction_laws (mkFraction (-3) 4) ONE Hc) as H.
  split; [exact Hc | split].
  - exact (proj1 (proj2 (proj2 H))).
  - exact (proj1 (proj2 (proj2 (proj2 (proj2 H))))).
Defined.

Lemma new_Fraction_integer (n : Z) : new_Fraction n 1 = Normal (mkFraction n 1).
Proof. apply new_Fraction_canonical, canonical_integer. Qed.

(** The inner loop of [main] multiplies [li] by the basis value, as long as no
    other entry has the abscissa [xi]. *)
Lemma li_loop_exact (xi : Z) (i : nat) (used : list (Z * Z)) :
  forall j li,
    canonical (num li) (den li) ->
    (forall k e, nth_error used k = Some e -> (j + k)%nat <> i -> fst e <> xi) ->
    exists li',
      li_loop xi i j used li = Normal li' /\ canonical (num li') (den li') /\
      (ratio li' == ratio li * basis_product xi i j (map point_of used))%Q.
Proof.
  induction used as [|[xj yj] used IH]; intros j li Hc Hother.
  - exists li. split; [reflexivity | split; [assumption|]]. simpl. ring.
  - assert (Hrest : forall k e, nth_error used k = Some e ->
                                (S j + k)%nat <> i -> fst e <> xi).
    { intros k e Hk Hne. apply (Hother (S k) e); [exact Hk | lia]. }
    cbn [li_loop map basis_product]. rewrite (Nat.eqb_sym j i).
    destruct (Nat.eqb_spec i j) as [Heq|Hne].
    + destruct (IH (S j) li Hc Hrest) as [li' [E [Hc' Hq]]].
      exists li'. split; [exact E | split; [exact Hc'|]]. rewrite Hq. ring.
    + assert (Hx : xi - xj <> 0).
      { specialize (Hother 0%nat (xj, yj) eq_refl). simpl in Hother. lia. }
      rewrite !new_Fraction_integer. cbn [bind completion_monad].
      destruct (multiply_exact li (mkFraction (- xj) 1)) as [p [Ep [Hp Hqp]]];
        [now apply canonical_nonzero in Hc | simpl; lia|].
      rewrite Ep.
      destruct (divide_exact p (mkFraction (xi - xj) 1)) as [q [Eq' [Hq Hqq]]];
        [now apply canonical_nonzero in Hp | simpl; lia | exact Hx|].
      rewrite Eq'.
      destruct (IH (S j) q Hq Hrest) as [li' [E [Hc' Hli]]].
      exists li'. split; [exact E | split; [exact Hc'|]].
      rewrite Hli, Hqq, Hqp. unfold ratio, toQ, basis_factor, point_of. simpl.
      change (inject_Z 1) with 1%Q.
      apply canonical_nonzero in Hc. apply inject_Z_nonzero in Hc, Hx.
      field. split; assumption.
Qed.

Lemma constantTerm_loop_exact (used : list (Z * Z)) :
  NoDup (map fst used) ->
  forall rest i ct,
    (forall k e, nth_error rest k = Some e -> nth_error used (i + k) = Some e) ->
    canonical (num ct) (den ct) ->
    exists f,
      constantTerm_loop used i rest ct = Normal f /\ canonical (num f) (den f) /\
      (ratio f == ratio ct + sum_from (map point_of used) i (map point_of rest))%Q.
Proof.
  intros Hnd. induction rest as [|[xi yi] rest IH]; intros i ct Hrest Hc.
  - exists ct. split; [reflexivity | split; [assumption|]]. simpl. ring.
  - assert (Hi : nth_error used i = Some (xi, yi)).
    { rewrite <- (Nat.add_0_r i). now apply Hrest. }
    cbn [constantTerm_loop map sum_from].
    destruct (li_loop_exact xi i used 0 ONE) as [li [El [Hl Hql]]].
    { split; [simpl; lia | reflexivity]. }
    { intros k e Hk Hne Hx. apply Hne. simpl.
      rewrite NoDup_nth_error in Hnd. apply Hnd.
      - rewrite length_map. apply nth_error_Some. congruence.
      - rewrite (map_nth_error fst k used Hk), (map_nth_error fst i used Hi).
        simpl. now rewrite Hx. }
    rewrite El, new_Fraction_integer. cbn [bind completion_monad].
    destruct (multiply_exact (mkFraction yi 1) li) as [t [Et [Ht Hqt]]];
      [simpl; lia | now apply canonical_nonzero in Hl|].
    rewrite Et.
    destruct (add_exact ct t) as [ct' [Ea [Ha Hqa]]];
      [now apply canonical_nonzero in Hc | now apply canonical_nonzero in Ht|].
    rewrite Ea.
    destruct (IH (S i) ct') as [f [E [Hf Hqf]]]; [|exact Ha|].
    { intros k e Hk. replace (S i + k)%nat with (i + S k)%nat by lia.
      now apply Hrest. }
    exists f. split; [exact E | split; [exact Hf|]].
    rewrite Hqf, Hqa, Hqt, Hql. unfold ratio, toQ, point_of. simpl. field.
    apply inject_Z_nonzero. now apply canonical_nonzero in Hc.
Qed.

Lemma insert_by_key_perm (e : Z * Z) (l : list (Z * Z)) :
  Permutation (insert_by_key e l) (e :: l).
Proof.
  induction l as [|a l IH]; simpl; [reflexivity|].
  destruct (fst e <=? fst a); [reflexivity|].
  rewrite IH. apply perm_swap.
Qed.

Lemma sort_by_key_perm (l : list (Z * Z)) : Permutation (sort_by_key l) l.
Proof.
  induction l as [|e l IH]; simpl; [reflexivity|].
  rewrite insert_by_key_perm. now constructor.
Qed.

Lemma subseq_firstn {A : Type} (n : nat) (l : list A) : subseq (firstn n l) l.
Proof.
  revert n. induction l as [|a l IH]; intros [|n]; simpl.
  - constructor.
  - constructor.
  - apply subseq_nil_l.
  - apply subseq_take, IH.
Qed.

Lemma used_roots_distinct (roots : list (Z * Z)) (k : Z) :
  NoDup (map fst roots) -> NoDup (map fst (used_roots roots k)).
Proof.
  intros Hnd. unfold used_roots. cbv zeta.
  eapply subseq_NoDup; [apply subseq_map, subseq_firstn|].
  eapply Permutation_NoDup; [|exact Hnd].
  apply Permutation_map, Permutation_sym, sort_by_key_perm.
Qed.

Lemma length_used_roots (roots : list (Z * Z)) (k : Z) :
  List.length (used_roots roots k) = Z.to_nat (Z.min k (Z.of_nat (List.length roots))).
Proof.
  unfold used_roots. cbv zeta.
  pose proof (Permutation_length (sort_by_key_perm roots)) as Hlen.
  rewrite Hlen. apply firstn_length_le. rewrite Hlen. lia.
Qed.

(** What [main] computes on entries of pairwise distinct abscissas. *)
Lemma constantTerm_distinct (roots : list (Z * Z)) (k : Z) :
  NoDup (map fst roots) ->
  exists f,
    constantTerm roots k = Normal f /\ canonical (num f) (den f) /\
    (ratio f == lagrange_sum (map point_of (used_roots roots k)))%Q.
Proof.
  intros Hnd. unfold constantTerm. cbv zeta.
  destruct (constantTerm_loop_exact (used_roots roots k)
              (used_roots_distinct roots k Hnd) (used_roots roots k) 0%nat ZERO)
    as [f [E [Hc Hq]]].
  - intros j e Hj. exact Hj.
  - split; [simpl; lia | reflexivity].
  - exists f. split; [exact E | split; [exact Hc|]].
    rewrite Hq. unfold lagrange_sum, ratio, toQ. simpl. field.
Qed.

(** X18 (what [main] computes): on entries of pairwise distinct abscissas
    [main] ends with the exact Lagrange sum at zero of the
    [min(k, n)] entries of smallest abscissa, as a canonical fraction; on the
    same points [lagrangeAtZero] of [index.js] returns that fraction's
    numerator divided by its denominator, truncated. *)
Theorem constantTerm_exact (roots : list (Z * Z)) (k : Z) :
  NoDup (map fst roots) ->
  exists f,
    constantTerm roots k = Normal f
    /\ canonical (num f) (den f)
    /\ (ratio f == lagrange_sum (map point_of (used_roots roots k)))%Q
    /\ List.length (used_roots roots k)
       = Z.to_nat (Z.min k (Z.of_nat (List.length roots)))
    /\ outcome (lagrangeAtZero (map point_of (used_roots roots k)))
       = Normal (Z.quot (num f) (den f)).
Proof.
  intros Hnd. destruct (constantTerm_distinct roots k Hnd) as [f [E [Hc Hq]]].
  exists f. split; [exact E | split; [exact Hc | split; [exact Hq|]]].
  split; [apply length_used_roots|].
  assert (Hd : distinct_x (map point_of (used_roots roots k))).
  { unfold distinct_x. rewrite map_map. simpl.
    exact (used_roots_distinct roots k Hnd). }
  rewrite (lagrangeAtZero_exact _ Hd). cbn [outcome]. f_equal.
  destruct (canonical_Qred _ _ _ Hc Hq) as [Hn Hden].
  unfold truncated. now rewrite Hn, Hden.
Qed.

Lemma constantTerm_exact_witness :
  NoDup (map fst [(4, 99); (1, 5); (2, 7)])
  /\ exists f,
       constantTerm [(4, 99); (1, 5); (2, 7)] 2 = Normal f
       /\ outcome (lagrangeAtZero (map point_of (used_roots [(4, 99); (1, 5); (2, 7)] 2)))
          = Normal (Z.quot (num f) (den f)).
Proof.
  assert (Hnd : NoDup (map fst [(4, 99); (1, 5); (2, 7)])).
  { simpl. repeat (apply NoDup_cons; [simpl; lia|]). apply NoDup_nil. }
  split; [exact Hnd|].
  destruct (constantTerm_exact [(4, 99); (1, 5); (2, 7)] 2 Hnd) as [f [E [_ [_ [_ H]]]]].
  exists f. split; [exact E | exact H].
Defined.

Lemma insert_by_key_sorted (e : Z * Z) (l : list (Z * Z)) :
  StronglySorted le_key l -> StronglySorted le_key (insert_by_key e l).
Proof.
  induction l as [|a l IH]; intros Hs; simpl.
  - repeat constructor.
  - inversion Hs as [|? ? Hs' Ha]; subst.
    destruct (Z.leb_spec (fst e) (fst a)) as [Hle|Hgt].
    + constructor; [exact Hs|]. constructor; [exact Hle|].
      eapply Forall_impl; [|exact Ha]. unfold le_key. intros b Hb. lia.
    + constructor; [now apply IH|].
      eapply Permutation_Forall; [apply Permutation_sym, insert_by_key_perm|].
      constructor; [unfold le_key; lia | exact Ha].
Qed.

Lemma sort_by_key_sorted (l : list (Z * Z)) : StronglySorted le_key (sort_by_key l).
Proof.
  induction l as [|e l IH]; simpl; [constructor | now apply insert_by_key_sorted].
Qed.

(** Two sorted lists of the same entries, no abscissa twice, are the same
    list. *)
Lemma sorted_unique (l1 : list (Z * Z)) :
  forall l2,
    StronglySorted le_key l1 -> StronglySorted le_key l2 ->
    Permutation l1 l2 -> NoDup (map fst l1) -> l1 = l2.
Proof.
  induction l1 as [|a l1 IH]; intros l2 H1 H2 Hp Hnd.
  - apply Permutation_nil in Hp. now subst.
  - destruct l2 as [|b l2]; [apply Permutation_sym, Permutation_nil in Hp; discriminate|].
    inversion H1 as [|? ? H1' Ha]; subst. inversion H2 as [|? ? H2' Hb]; subst.
    inversion Hnd as [|? ? Hnin Hnd']; subst.
    rewrite Forall_forall in Ha, Hb.
    assert (Hab : a = b).
    { assert (Hina : In a (b :: l2))
        by (eapply Permutation_in; [exact Hp | now left]).
      assert (Hinb : In b (a :: l1))
        by (eapply Permutation_in; [apply Permutation_sym, Hp | now left]).
      destruct Hina as [Heq|Hina]; [now symmetry|].
      destruct Hinb as [Heq|Hinb]; [assumption|].
      exfalso. apply Hnin.
      assert (Hk : fst a = fst b).
      { specialize (Ha b Hinb). specialize (Hb a Hina). unfold le_key in *. lia. }
      rewrite Hk. now apply in_map. }
    subst b. f_equal. apply IH; try assumption.
    now apply Permutation_cons_inv in Hp.
Qed.

Lemma sort_by_key_unique (roots roots' : list (Z * Z)) :
  NoDup (map fst roots) -> Permutation roots roots' ->
  sort_by_key roots = sort_by_key roots'.
Proof.
  intros Hnd Hp. apply sorted_unique.
  - apply sort_by_key_sorted.
  - apply sort_by_key_sorted.
  - rewrite sort_by_key_perm, Hp. apply Permutation_sym, sort_by_key_perm.
  - eapply Permutation_NoDup; [|exact Hnd].
    apply Permutation_map, Permutation_sym, sort_by_key_perm.
Qed.

(** X19 (order of the entries): on pairwise distinct abscissas the result of
    [main] does not depend on the order in which the entries are listed. *)
Theorem constantTerm_order_invariant (roots roots' : list (Z * Z)) (k : Z) :
  NoDup (map fst roots) -> Permutation roots roots' ->
  used_roots roots' k = used_roots roots k
  /\ constantTerm roots' k = constantTerm roots k.
Proof.
  intros Hnd Hp.
  assert (Hu : used_roots roots' k = used_roots roots k).
  { unfold used_roots. cbv zeta. now rewrite (sort_by_key_unique roots roots' Hnd Hp). }
  split; [exact Hu|]. unfold constantTerm. cbv zeta. now rewrite Hu.
Qed.

Lemma constantTerm_order_invariant_witness :
  NoDup (map fst [(4, 99); (1, 5); (2, 7)])
  /\ Permutation [(4, 99); (1, 5); (2, 7)] [(1, 5); (2, 7); (4, 99)]
  /\ constantTerm [(1, 5); (2, 7); (4, 99)] 3 = constantTerm [(4, 99); (1, 5); (2, 7)] 3.
Proof.
  assert (Hnd : NoDup (map fst [(4, 99); (1, 5); (2, 7)])).
  { simpl. repeat (apply NoDup_cons; [simpl; lia|]). apply NoDup_nil. }
  assert (Hp : Permutation [(4, 99); (1, 5); (2, 7)] [(1, 5); (2, 7); (4, 99)]).
  { apply (Permutation_cons_app [(1, 5); (2, 7)] [] (4, 99)).
    rewrite app_nil_r. apply Permutation_refl. }
  split; [exact Hnd | split; [exact Hp|]].
  exact (proj2 (constantTerm_order_invariant _ _ 3 Hnd Hp)).
Defined.

Lemma multiply_throws (f g : Fraction) (e : exception) :
  multiply f g = Throw e -> e = ArithmeticException_DenominatorZero.
Proof. apply new_Fraction_throws. Qed.

Lemma divide_throws (f g : Fraction) (e : exception) :
  divide f g = Throw e -> e = ArithmeticException_DenominatorZero.
Proof. apply new_Fraction_throws. Qed.

Lemma add_throws (f g : Fraction) (e : exception) :
  add f g = Throw e -> e = ArithmeticException_DenominatorZero.
Proof. apply new_Fraction_throws. Qed.

Lemma li_loop_throws (xi : Z) (i : nat) (used : list (Z * Z)) :
  forall j li e,
    li_loop xi i j used li = Throw e -> e = ArithmeticException_DenominatorZero.
Proof.
  induction used as [|[xj yj] used IH]; intros j li e H; [discriminate H|].
  cbn [li_loop] in H. destruct (Nat.eqb i j); [eapply IH, H|].
  rewrite !new_Fraction_integer in H. cbn [bind completion_monad] in H.
  destruct (multiply li _) as [p|e'] eqn:Ep;
    [|injection H as <-; eapply multiply_throws, Ep].
  destruct (divide p _) as [q|e'] eqn:Eq';
    [|injection H as <-; eapply divide_throws, Eq'].
  eapply IH, H.
Qed.

(** An entry of abscissa [xi] at another index than [i] stops the inner loop:
    the constructor refuses the denominator 0 that [divide] hands it. *)
Lemma li_loop_duplicate (xi : Z) (i : nat) (used : list (Z * Z)) :
  forall j li,
    (exists k e, nth_error used k = Some e /\ (j + k)%nat <> i /\ fst e = xi) ->
    li_loop xi i j used li = Throw ArithmeticException_DenominatorZero.
Proof.
  induction used as [|[xj yj] used IH]; intros j li [k [e [Hk [Hne Hx]]]].
  - destruct k; discriminate Hk.
  - cbn [li_loop]. destruct (Nat.eqb_spec i j) as [Heq|Hij].
    + destruct k as [|k]; [lia|]. apply IH. exists k, e.
      split; [exact Hk | split; [lia | exact Hx]].
    + rewrite !new_Fraction_integer. cbn [bind completion_monad].
      destruct (multiply li _) as [p|e'] eqn:Ep;
        [|f_equal; eapply multiply_throws, Ep].
      destruct k as [|k].
      * injection Hk as <-. simpl in Hx. subst xj.
        rewrite Z.sub_diag, divide_by_zero by reflexivity. reflexivity.
      * destruct (divide p _) as [q|e'] eqn:Eq';
          [|f_equal; eapply divide_throws, Eq'].
        apply IH. exists k, e. split; [exact Hk | split; [lia | exact Hx]].
Qed.

Lemma constantTerm_loop_throws (used rest : list (Z * Z)) :
  forall i ct e,
    constantTerm_loop used i rest ct = Throw e ->
    e = ArithmeticException_DenominatorZero.
Proof.
  induction rest as [|[xi yi] rest IH]; intros i ct e H; [discriminate H|].
  cbn [constantTerm_loop bind completion_monad] in H.
  destruct (li_loop xi i 0 used ONE) as [li|e'] eqn:El;
    [|injection H as <-; eapply li_loop_throws, El].
  rewrite new_Fraction_integer in H. cbn [bind completion_monad] in H.
  destruct (multiply _ li) as [t|e'] eqn:Et;
    [|injection H as <-; eapply multiply_throws, Et].
  destruct (add ct t) as [ct'|e'] eqn:Ea;
    [|injection H as <-; eapply add_throws, Ea].
  eapply IH, H.
Qed.

Lemma constantTerm_loop_duplicate (used rest : list (Z * Z)) :
  forall i ct,
    (exists k ek j ej, nth_error rest k = Some ek /\ nth_error used j = Some ej /\
                       j <> (i + k)%nat /\ fst ej = fst ek) ->
    constantTerm_loop used i rest ct = Throw ArithmeticException_DenominatorZero.
Proof.
  induction rest as [|[xi yi] rest IH]; intros i ct [k [ek [j [ej [Hk [Hj [Hne Hx]]]]]]].
  - destruct k; discriminate Hk.
  - cbn [constantTerm_loop]. destruct k as [|k].
    + injection Hk as <-. simpl in Hx.
      rewrite li_loop_duplicate; [reflexivity|].
      exists j, ej. split; [exact Hj | split; [simpl; lia | exact Hx]].
    + cbn [bind completion_monad].
      destruct (li_loop xi i 0 used ONE) as [li|e'] eqn:El;
        [|f_equal; eapply li_loop_throws, El].
      rewrite new_Fraction_integer. cbn [bind completion_monad].
      destruct (multiply _ li) as [t|e'] eqn:Et;
        [|f_equal; eapply multiply_throws, Et].
      destruct (add ct t) as [ct'|e'] eqn:Ea;
        [|f_equal; eapply add_throws, Ea].
      apply IH. exists k, ek, j, ej.
      split; [exact Hk | split; [exact Hj | split; [lia | exact Hx]]].
Qed.

(** X20 (a repeated abscissa in [main]): [main] computes a result exactly
    when the entries it uses have pairwise distinct abscissas; otherwise, and
    in no other case, it throws, and what it throws is the constructor's
    "Denominator zero", raised before any division by zero. *)
Theorem constantTerm_returns_iff (roots : list (Z * Z)) (k : Z) :
  ((exists f, constantTerm roots k = Normal f)
   <-> NoDup (map fst (used_roots roots k)))
  /\ (forall e, constantTerm roots k = Throw e ->
                e = ArithmeticException_DenominatorZero).
Proof.
  assert (Hmap : map x (map point_of (used_roots roots k))
                 = map fst (used_roots roots k)).
  { rewrite map_map. apply map_ext. reflexivity. }
  split; [split|].
  - intros [f Hf].
    destruct (distinct_or_duplicate (map point_of (used_roots roots k)))
      as [Hd|[i [j [pi [pj [Hne [Hi [Hj Hx]]]]]]]].
    + unfold distinct_x in Hd. now rewrite Hmap in Hd.
    + exfalso. rewrite nth_error_map in Hi, Hj.
      destruct (nth_error (used_roots roots k) i) as [ei|] eqn:Ei; [|discriminate Hi].
      destruct (nth_error (used_roots roots k) j) as [ej|] eqn:Ej; [|discriminate Hj].
      injection Hi as <-. injection Hj as <-. simpl in Hx.
      unfold constantTerm in Hf. cbv zeta in Hf.
      rewrite constantTerm_loop_duplicate in Hf; [discriminate Hf|].
      exists i, ei, j, ej.
      split; [exact Ei | split; [exact Ej | split; [simpl; lia | now symmetry]]].
  - intros Hnd. unfold constantTerm. cbv zeta.
    destruct (constantTerm_loop_exact (used_roots roots k) Hnd
                (used_roots roots k) 0%nat ZERO) as [f [E _]].
    + intros j e Hj. exact Hj.
    + split; [simpl; lia | reflexivity].
    + now exists f.
  - intros e H. unfold constantTerm in H. cbv zeta in H.
    eapply constantTerm_loop_throws, H.
Qed.

Lemma constantTerm_returns_iff_witness :
  NoDup (map fst (used_roots [(4, 99); (1, 5); (4, 3)] 2))
  /\ exists f, constantTerm [(4, 99); (1, 5); (4, 3)] 2 = Normal f.
Proof.
  assert (Hnd : NoDup (map fst (used_roots [(4, 99); (1, 5); (4, 3)] 2))).
  { vm_compute. repeat (apply NoDup_cons; [simpl; lia|]). apply NoDup_nil. }
  split; [exact Hnd|].
  exact (proj2 (proj1 (constantTerm_returns_iff _ 2)) Hnd).
Defined.

(** On the graph of a polynomial the interpolation of [main] ends with the
    constant term over 1. *)
Lemma constantTerm_poly (coeffs : list Z) (roots : list (Z * Z)) (k : Z) :
  NoDup (map fst roots) ->
  Forall (fun e => on_poly coeffs (point_of e)) roots ->
  Z.of_nat (List.length coeffs) <= k <= Z.of_nat (List.length roots) ->
  constantTerm roots k = Normal (mkFraction (eval_poly coeffs 0) 1).
Proof.
  intros Hnd Hon Hk.
  destruct (constantTerm_distinct roots k Hnd) as [f [E [Hc Hq]]].
  rewrite E. f_equal. apply Fraction_canonical_unique.
  - exact Hc.
  - apply canonical_integer.
  - rewrite Hq, (lagrange_sum_poly coeffs).
    + unfold ratio, toQ. simpl. field.
    + unfold distinct_x. rewrite map_map.
      exact (used_roots_distinct roots k Hnd).
    + apply Forall_forall. intros p Hp. apply in_map_iff in Hp.
      destruct Hp as [e [<- He]]. rewrite Forall_forall in Hon. apply Hon.
      eapply Permutation_in; [apply sort_by_key_perm|].
      eapply subseq_In; [apply subseq_firstn | exact He].
    + rewrite length_map, length_used_roots. lia.
Qed.

(** X21 (reconstruction by [main]): when the entries have pairwise distinct
    abscissas and lie on a polynomial with integer coefficients, at most [k]
    of them, and [k <= n], [main] ends with the constant term over 1 and
    prints its decimal numeral. *)
Theorem constantTerm_recovers (coeffs : list Z) (roots : list (Z * Z)) (k : Z) :
  NoDup (map fst roots) ->
  Forall (fun e => on_poly coeffs (point_of e)) roots ->
  Z.of_nat (List.length coeffs) <= k <= Z.of_nat (List.length roots) ->
  constantTerm roots k = Normal (mkFraction (eval_poly coeffs 0) 1)
  /\ toString (mkFraction (eval_poly coeffs 0) 1) = IndexJs.toString (eval_poly coeffs 0).
Proof.
  intros Hnd Hon Hk. split.
  - apply constantTerm_poly; assumption.
  - unfold toString. cbn [den num]. reflexivity.
Qed.

Lemma constantTerm_recovers_witness :
  NoDup (map fst [(3, 9); (1, 5); (2, 7)])
  /\ Forall (fun e => on_poly [3; 2] (point_of e)) [(3, 9); (1, 5); (2, 7)]
  /\ Z.of_nat (List.length [3; 2]) <= 2 <= Z.of_nat (List.length [(3, 9); (1, 5); (2, 7)])
  /\ constantTerm [(3, 9); (1, 5); (2, 7)] 2 = Normal (mkFraction 3 1).
Proof.
  assert (Hnd : NoDup (map fst [(3, 9); (1, 5); (2, 7)])).
  { simpl. repeat (apply NoDup_cons; [simpl; lia|]). apply NoDup_nil. }
  assert (Hon : Forall (fun e => on_poly [3; 2] (point_of e)) [(3, 9); (1, 5); (2, 7)]).
  { repeat (apply Forall_cons; [reflexivity|]). apply Forall_nil. }
  assert (Hk : Z.of_nat (List.length [3; 2])
               <= 2 <= Z.of_nat (List.length [(3, 9); (1, 5); (2, 7)]))
    by (simpl; lia).
  split; [exact Hnd | split; [exact Hon | split; [exact Hk|]]].
  exact (proj1 (constantTerm_recovers [3; 2] _ 2 Hnd Hon Hk)).
Defined.

End Java.

(** ** The JSON reader and [main] of [LagrangePolynomial] *)

Import SimpleJSON JsonText Main.

Section Json.

(** *** Strings *)

Lemma trim_leading_whitespace (ws t : JavaString) :
  forallb is_whitespace ws = true -> trim_leading (ws ++ t) = trim_leading t.
Proof.
  induction ws as [|c ws IH]; simpl; [reflexivity|].
  intros H. apply andb_true_iff in H as [Hc Hws]. rewrite Hc. now apply IH.
Qed.

Lemma trim_leading_first (t : JavaString) :
  first_is (fun c => negb (is_whitespace c)) t = true -> trim_leading t = t.
Proof.
  destruct t as [|c t]; simpl; [discriminate|].
  intros H. apply negb_true_iff in H. now rewrite H.
Qed.

Lemma first_is_app (p : ascii -> bool) (s t : JavaString) :
  first_is p s = true -> first_is p (s ++ t) = true.
Proof. destruct s; simpl; [discriminate | trivial]. Qed.

Lemma forallb_rev {A} (p : A -> bool) (l : list A) :
  forallb p l = true -> forallb p (rev l) = true.
Proof.
  rewrite !forallb_forall. intros H a Ha. apply H. now apply in_rev.
Qed.

Lemma trim_tight (ws1 ws2 t : JavaString) :
  forallb is_whitespace ws1 = true -> forallb is_whitespace ws2 = true ->
  tight t = true ->
  trim (ws1 ++ t ++ ws2) = t.
Proof.
  intros H1 H2 Ht. apply andb_true_iff in Ht as [Hfirst Hlast].
  unfold trim. rewrite trim_leading_whitespace by exact H1.
  rewrite (trim_leading_first (t ++ ws2)) by now apply first_is_app.
  rewrite rev_app_distr, trim_leading_whitespace by now apply forallb_rev.
  rewrite (trim_leading_first (rev t)) by exact Hlast. apply rev_involutive.
Qed.

Lemma trim_tight_id (t : JavaString) : tight t = true -> trim t = t.
Proof.
  intros Ht. rewrite <- (trim_tight [] [] t) at 2 by (trivial || reflexivity).
  now rewrite app_nil_r.
Qed.

Lemma tight_ends (a b : ascii) (t : JavaString) :
  is_whitespace a = false -> is_whitespace b = false -> tight (a :: t ++ [b]) = true.
Proof.
  intros Ha Hb. unfold tight. simpl. rewrite Ha. simpl.
  rewrite rev_app_distr. simpl. now rewrite Hb.
Qed.

Lemma substring_middle (pre t post : JavaString) :
  substring (pre ++ t ++ post) (List.length pre) (List.length pre + List.length t)
  = Returns t.
Proof.
  unfold substring.
  assert (H1 : (List.length pre <=? List.length pre + List.length t)%nat = true)
    by (apply Nat.leb_le; lia).
  assert (H2 : (List.length pre + List.length t <=? List.length (pre ++ t ++ post))%nat
               = true) by (apply Nat.leb_le; rewrite !length_app; lia).
  rewrite H1, H2. simpl. f_equal.
  rewrite skipn_app, skipn_all, Nat.sub_diag. simpl.
  replace (List.length pre + List.length t - List.length pre)%nat
    with (List.length t + 0)%nat by lia.
  now rewrite firstn_app_2, firstn_O, app_nil_r.
Qed.

Lemma indexOf_first (pre post : JavaString) (ch : ascii) :
  forallb (fun c => negb (Ascii.eqb c ch)) pre = true ->
  indexOf (pre ++ ch :: post) ch = Some (List.length pre).
Proof.
  induction pre as [|c pre IH]; simpl.
  - now rewrite Ascii.eqb_refl.
  - intros H. apply andb_true_iff in H as [Hc Hpre].
    apply negb_true_iff in Hc. rewrite Hc, IH by exact Hpre. reflexivity.
Qed.

(** *** The loop of [parse] *)

Lemma whitespace_not_special (c : ascii) :
  is_whitespace c = true -> special c = false /\ Ascii.eqb c ":" = false.
Proof.
  destruct c as [[] [] [] [] [] [] [] []]; intros H; try discriminate H;
    split; reflexivity.
Qed.

Lemma numeral_char_not_special (c : ascii) :
  numeral_char c = true ->
  special c = false /\ is_whitespace c = false /\ Ascii.eqb c "+" = false
  /\ Ascii.eqb c "{" = false /\ Ascii.eqb c quote = false
  /\ Ascii.eqb c "t" = false /\ Ascii.eqb c "f" = false /\ Ascii.eqb c "n" = false.
Proof.
  destruct c as [[] [] [] [] [] [] [] []]; intros H; try discriminate H;
    repeat split; reflexivity.
Qed.

Ltac loop_step :=
  cbn [app parse_loop escape inString SimpleJSON.braceCount SimpleJSON.start
       SimpleJSON.result];
  unfold quote, backslash;
  repeat match goal with
         | |- context [Ascii.eqb ?a ?b] =>
             let v := eval vm_compute in (Ascii.eqb a b) in
             change (Ascii.eqb a b) with v
         end;
  cbn [andb negb orb].

Lemma parse_loop_plain addPair json i c rest braceCount start result :
  special c = false ->
  parse_loop addPair json i (c :: rest) (mkScanner braceCount start false false result)
  = parse_loop addPair json (S i) rest (mkScanner braceCount start false false result).
Proof.
  unfold special. intros H.
  apply orb_false_iff in H as [H Hcomma]. apply orb_false_iff in H as [H Hclose].
  apply orb_false_iff in H as [H Hopen]. apply orb_false_iff in H as [Hback Hquote].
  cbn [parse_loop escape inString SimpleJSON.braceCount SimpleJSON.start SimpleJSON.result].
  now rewrite Hback, Hquote, Hopen, Hclose, Hcomma.
Qed.

Lemma parse_loop_in_string addPair json braceCount start result (n : nat) :
  forall s i rest,
    (List.length s <= n)%nat -> escaped s = true ->
    parse_loop addPair json i (s ++ rest) (mkScanner braceCount start true false result)
    = parse_loop addPair json (i + List.length s) rest
        (mkScanner braceCount start true false result).
Proof.
  induction n as [|n IH]; intros s i rest Hlen H.
  - destruct s; [|simpl in Hlen; lia]. simpl. now rewrite Nat.add_0_r.
  - destruct s as [|c s]; [simpl; now rewrite Nat.add_0_r|].
    cbn [escaped] in H.
    cbn [app parse_loop escape inString SimpleJSON.braceCount SimpleJSON.start
         SimpleJSON.result].
    destruct (Ascii.eqb c backslash).
    + destruct s as [|c' s]; [discriminate|].
      cbn [app parse_loop escape inString SimpleJSON.braceCount SimpleJSON.start
           SimpleJSON.result].
      rewrite IH by (simpl in Hlen; lia || exact H).
      simpl. f_equal. lia.
    + apply andb_true_iff in H as [Hquote Hs]. apply negb_true_iff in Hquote.
      rewrite Hquote, IH by (simpl in Hlen; lia || exact Hs).
      simpl. f_equal. lia.
Qed.

Lemma neutral_nil (depth : Z) : neutral depth [].
Proof. intros ap json i rest bc st r _. simpl. now rewrite Nat.add_0_r. Qed.

Lemma neutral_app (depth : Z) (s t : JavaString) :
  neutral depth s -> neutral depth t -> neutral depth (s ++ t).
Proof.
  intros Hs Ht ap json i rest bc st r Hbc.
  rewrite <- app_assoc, Hs, Ht by exact Hbc.
  now rewrite length_app, Nat.add_assoc.
Qed.

Lemma neutral_deeper (depth depth' : Z) (t : JavaString) :
  depth <= depth' -> neutral depth t -> neutral depth' t.
Proof. intros Hle Ht ap json i rest bc st r Hbc. apply Ht. lia. Qed.

Lemma neutral_plain (depth : Z) (t : JavaString) :
  forallb (fun c => negb (special c)) t = true -> neutral depth t.
Proof.
  induction t as [|c t IH]; intros H.
  - apply neutral_nil.
  - simpl in H. apply andb_true_iff in H as [Hc Ht]. apply negb_true_iff in Hc.
    intros ap json i rest bc st r Hbc.
    cbn [app]. rewrite parse_loop_plain by exact Hc.
    rewrite (IH Ht) by exact Hbc. simpl. now rewrite Nat.add_succ_r.
Qed.

Lemma neutral_whitespace (depth : Z) (ws : JavaString) :
  forallb is_whitespace ws = true -> neutral depth ws.
Proof.
  intros H. apply neutral_plain. rewrite forallb_forall in *.
  intros c Hc. apply negb_true_iff. now apply whitespace_not_special, H.
Qed.

Lemma neutral_quoted (depth : Z) (s : JavaString) :
  escaped s = true -> neutral depth (quote :: s ++ [quote]).
Proof.
  intros Hs ap json i rest bc st r Hbc.
  rewrite <- app_comm_cons, <- app_assoc.
  assert (Hin := parse_loop_in_string ap json bc st r (List.length s) s (S i)
                   ([quote] ++ rest) (Nat.le_refl _) Hs).
  unfold quote in *. cbn [app] in Hin. loop_step. rewrite Hin. loop_step.
  f_equal. simpl. rewrite length_app. simpl. lia.
Qed.

Lemma neutral_comma (depth : Z) : 1 <= depth -> neutral depth [","%char].
Proof.
  intros Hd ap json i rest bc st r Hbc. loop_step.
  assert (H0 : (bc =? 0) = false) by (apply Z.eqb_neq; lia).
  rewrite H0. f_equal. simpl. lia.
Qed.

Lemma neutral_braces (depth : Z) (t : JavaString) :
  0 <= depth -> neutral (depth + 1) t -> neutral depth ("{"%char :: t ++ ["}"%char]).
Proof.
  intros Hd Ht ap json i rest bc st r Hbc.
  rewrite <- app_comm_cons, <- app_assoc. loop_step.
  rewrite Ht by lia. loop_step.
  replace (bc + 1 - 1) with bc by lia.
  f_equal. simpl. rewrite length_app. simpl. lia.
Qed.

Lemma neutral_join (depth : Z) (texts : list JavaString) :
  1 <= depth -> Forall (neutral depth) texts -> neutral depth (join texts).
Proof.
  intros Hd H. induction H as [|t texts Ht _ IH].
  - apply neutral_nil.
  - destruct texts as [|t' texts]; [exact Ht|].
    change (join (t :: t' :: texts)) with (t ++ [","%char] ++ join (t' :: texts)).
    apply neutral_app; [exact Ht|].
    apply neutral_app; [now apply neutral_comma | exact IH].
Qed.

Lemma plain_key_plain (k : JavaString) :
  plain_key k = true ->
  escaped k = true /\ forallb (fun c => negb (Ascii.eqb c ":")) k = true.
Proof. intros H. now apply andb_true_iff in H. Qed.

Lemma neutral_member (depth : Z) (ws key value : JavaString) :
  forallb is_whitespace ws = true -> plain_key key = true ->
  neutral depth value -> neutral depth (member ws key value).
Proof.
  intros Hws Hkey Hvalue. apply plain_key_plain in Hkey as [Hkey _].
  unfold member, pair_text.
  change (ws ++ (quote :: key ++ quote :: ws ++ ":"%char :: ws ++ value) ++ ws)
    with (ws ++ ((quote :: key ++ [quote] ++ ws ++ [":"%char] ++ ws ++ value) ++ ws)).
  apply neutral_app; [now apply neutral_whitespace|].
  apply neutral_app; [|now apply neutral_whitespace].
  rewrite app_comm_cons, (app_assoc (quote :: key)).
  apply neutral_app; [now apply neutral_quoted|].
  apply neutral_app; [now apply neutral_whitespace|].
  apply neutral_app; [now apply neutral_plain|].
  apply neutral_app; [now apply neutral_whitespace | exact Hvalue].
Qed.

(** *** The text of a value *)

Lemma digits_numeral (d : Decimal.uint) :
  forallb numeral_char (str (NilEmpty.string_of_uint d)) = true.
Proof. induction d; simpl; auto. Qed.

Lemma numeral_chars (n : Z) :
  exists c t, str (IndexJs.toString n) = c :: t
              /\ forallb numeral_char (c :: t) = true.
Proof.
  assert (Hu : forall d, exists c t, str (NilZero.string_of_uint d) = c :: t
                                     /\ forallb numeral_char (c :: t) = true).
  { intros d. pose proof (digits_numeral d) as Hd.
    destruct d; simpl in *; eexists; eexists; split; try reflexivity; exact Hd. }
  unfold IndexJs.toString. destruct (Z.to_int n) as [d|d]; simpl.
  - apply Hu.
  - destruct (Hu d) as (c & t & Heq & Hall).
    exists "-"%char, (c :: t). unfold str in *. simpl. rewrite Heq. split; [reflexivity|].
    exact Hall.
Qed.

Lemma first_is_all (p : ascii -> bool) (c : ascii) (t : JavaString) :
  forallb p (c :: t) = true ->
  first_is p (c :: t) = true /\ first_is p (rev (c :: t)) = true.
Proof.
  intros H. split.
  - simpl in *. now apply andb_true_iff in H.
  - apply forallb_rev in H. destruct (rev (c :: t)) as [|a l] eqn:Hrev.
    + apply (f_equal (@List.length ascii)) in Hrev. rewrite length_rev in Hrev.
      discriminate.
    + simpl in *. now apply andb_true_iff in H.
Qed.

Lemma tight_numeral (n : Z) : tight (str (IndexJs.toString n)) = true.
Proof.
  destruct (numeral_chars n) as (c & t & -> & Hall). unfold tight.
  assert (H : forallb (fun c => negb (is_whitespace c)) (c :: t) = true).
  { rewrite forallb_forall in *. intros a Ha. apply negb_true_iff.
    now apply numeral_char_not_special, Hall. }
  apply first_is_all in H as [H1 H2]. now rewrite H1, H2.
Qed.

Lemma tight_render (ws : JavaString) (v : json_value) : tight (render ws v) = true.
Proof.
  destruct v as [|[]|n|s|members]; try reflexivity.
  - apply tight_numeral.
  - apply (tight_ends quote quote s); reflexivity.
  - apply (tight_ends "{" "}"); reflexivity.
Qed.

Lemma readable_members (members : list (JavaString * json_value)) (kv : JavaString * json_value) :
  readable (JObject members) = true -> In kv members ->
  plain_key (fst kv) = true /\ readable (snd kv) = true.
Proof.
  simpl. rewrite forallb_forall. intros H Hin.
  apply andb_true_iff. now apply H.
Qed.

Lemma neutral_render (ws : JavaString) (v : json_value) :
  forallb is_whitespace ws = true -> readable v = true ->
  forall depth, 0 <= depth -> neutral depth (render ws v).
Proof.
  intros Hws. induction v as [|b|n|s|members IH] using json_value_induction;
    intros Hv depth Hdepth.
  - now apply neutral_plain.
  - destruct b; now apply neutral_plain.
  - destruct (numeral_chars n) as (c & t & Heq & Hall). simpl. rewrite Heq.
    apply neutral_plain. rewrite forallb_forall in *. intros a Ha.
    apply negb_true_iff. now apply numeral_char_not_special, Hall.
  - now apply neutral_quoted.
  - apply neutral_braces; [exact Hdepth|].
    apply neutral_join; [lia|]. apply Forall_map.
    rewrite Forall_forall in *. intros kv Hin.
    destruct (readable_members members kv Hv Hin) as [Hkey Hval].
    apply neutral_member; [exact Hws | exact Hkey |].
    apply (IH kv Hin Hval). lia.
Qed.

(** *** [addPair] on the text of a member *)

Lemma substring_prefix (pre post : JavaString) :
  substring (pre ++ post) 0 (List.length pre) = Returns pre.
Proof.
  pose proof (substring_middle [] pre post) as H. simpl in H. exact H.
Qed.

Lemma substring_suffix (pre post : JavaString) (c : ascii) :
  substring (pre ++ c :: post) (List.length pre + 1) (List.length (pre ++ c :: post))
  = Returns post.
Proof.
  pose proof (substring_middle (pre ++ [c]) post []) as H.
  rewrite app_nil_r, <- app_assoc in H. simpl in H.
  rewrite !length_app in *. simpl in *.
  replace (List.length pre + S (List.length post))%nat
    with (List.length pre + 1 + List.length post)%nat by lia.
  exact H.
Qed.

Lemma substring_unquote (s : JavaString) :
  substring (quote :: s ++ [quote]) 1 (List.length (quote :: s ++ [quote]) - 1)
  = Returns s.
Proof.
  pose proof (substring_middle [quote] s [quote]) as H. simpl in *.
  rewrite length_app. simpl.
  replace (List.length s + 1 - 0)%nat with (S (List.length s)) by lia.
  exact H.
Qed.

Lemma equals_first (c d : ascii) (t u : JavaString) :
  Ascii.eqb c d = false -> equals (c :: t) (d :: u) = false.
Proof.
  intros H. unfold equals. destruct (list_eq_dec ascii_dec (c :: t) (d :: u)) as [E|E].
  - injection E as -> _. now rewrite Ascii.eqb_refl in H.
  - reflexivity.
Qed.

Lemma decimal_numeral (n : Z) : decimal (str (IndexJs.toString n)) = Some n.
Proof.
  destruct (numeral_chars n) as (c & t & Heq & Hall).
  unfold decimal. rewrite Heq.
  assert (Hplus : Ascii.eqb c "+" = false).
  { simpl in Hall. apply andb_true_iff in Hall as [Hc _].
    now apply numeral_char_not_special in Hc. }
  rewrite Hplus, <- Heq. unfold str. rewrite string_of_list_ascii_of_string.
  pose proof (BigInt_of_toString n) as H. unfold IndexJs.BigInt_of_string in H.
  destruct (NilZero.int_of_string (IndexJs.toString n)); [|discriminate].
  injection H as H. simpl. now rewrite H.
Qed.

Lemma endsWith_quote (s : JavaString) : endsWith (quote :: s ++ [quote]) [quote] = true.
Proof.
  unfold endsWith. cbn [rev]. rewrite rev_app_distr. reflexivity.
Qed.

Lemma pair_text_split (ws key value : JavaString) :
  pair_text ws key value = (quote :: key ++ quote :: ws) ++ ":"%char :: ws ++ value.
Proof.
  unfold pair_text. rewrite <- app_comm_cons, <- app_assoc. reflexivity.
Qed.

Lemma tight_suffix (a : ascii) (pre t : JavaString) :
  is_whitespace a = false -> tight t = true -> tight (a :: pre ++ t) = true.
Proof.
  intros Ha Ht. unfold tight in *. apply andb_true_iff in Ht as [_ Hlast].
  apply andb_true_iff. split; [simpl; now rewrite Ha|].
  cbn [rev]. rewrite rev_app_distr, <- app_assoc. now apply first_is_app.
Qed.

Lemma tight_pair_text (ws key value : JavaString) :
  tight value = true -> tight (pair_text ws key value) = true.
Proof.
  intros H. rewrite pair_text_split.
  replace ((quote :: key ++ quote :: ws) ++ ":"%char :: ws ++ value)
    with (quote :: (key ++ quote :: ws ++ ":"%char :: ws) ++ value).
  - now apply tight_suffix.
  - simpl. f_equal. rewrite <- !app_assoc. simpl. f_equal. f_equal.
    rewrite <- app_assoc. reflexivity.
Qed.

Lemma addPair_pair_text (parse : JavaString -> call Map) (ws key : JavaString)
  (v : json_value) (map : Map) :
  forallb is_whitespace ws = true -> plain_key key = true -> readable v = true ->
  (forall members, v = JObject members ->
     parse (render ws v) = Returns (collect (List.map (fun kv => (fst kv, value_of (snd kv))) members))) ->
  addPair parse map (pair_text ws key (render ws v))
  = Returns (put map key (value_of v)).
Proof.
  intros Hws Hkey Hv Hparse. apply plain_key_plain in Hkey as [Hplain Hcolon].
  unfold addPair. rewrite pair_text_split, indexOf_first.
  2:{ simpl. rewrite forallb_app. simpl. rewrite Hcolon. simpl.
      rewrite forallb_forall in *. intros c Hc. apply negb_true_iff.
      now apply whitespace_not_special, Hws. }
  rewrite substring_prefix, substring_suffix.
  cbn [bind call_monad].
  replace (trim (quote :: key ++ quote :: ws)) with (quote :: key ++ [quote]).
  2:{ symmetry.
      change (quote :: key ++ quote :: ws) with ((quote :: key) ++ [quote] ++ ws).
      rewrite app_assoc.
      apply (trim_tight [] ws ((quote :: key) ++ [quote])); [reflexivity | exact Hws |].
      apply (tight_ends quote quote key); reflexivity. }
  replace (trim (ws ++ render ws v)) with (render ws v).
  2:{ symmetry. rewrite <- (app_nil_r (render ws v)) at 1.
      apply trim_tight; [exact Hws | reflexivity | apply tight_render]. }
  rewrite endsWith_quote.
  change (startsWith (quote :: key ++ [quote]) [quote]) with true. cbn [andb].
  rewrite substring_unquote. cbn [bind call_monad].
  destruct v as [|[]|n|s|members]; try reflexivity.
  - (* a number *)
    destruct (numeral_chars n) as (c & t & Heq & Hall).
    assert (Hc : numeral_char c = true) by (simpl in Hall; now apply andb_true_iff in Hall).
    apply numeral_char_not_special in Hc as (_ & _ & _ & Hopen & Hquote & Ht & Hf & Hn).
    pose proof (decimal_numeral n) as Hdec.
    cbn [render] in *. rewrite Heq in *.
    unfold str at 1. cbn [list_ascii_of_string startsWith]. rewrite Hopen. cbn [andb].
    cbn [startsWith]. rewrite Hquote. cbn [andb].
    change (str "true") with ("t"%char :: str "rue").
    change (str "false") with ("f"%char :: str "alse").
    change (str "null") with ("n"%char :: str "ull").
    rewrite !equals_first by assumption.
    unfold Integer_parseInt, Long_parseLong. rewrite Hdec.
    cbn [readable value_of] in *.
    destruct ((- 2 ^ 31 <=? n) && (n <? 2 ^ 31)); [reflexivity|].
    rewrite Hv. reflexivity.
  - (* a string *)
    cbn [render value_of]. change (startsWith (quote :: s ++ [quote]) (str "{")) with false.
    change (startsWith (quote :: s ++ [quote]) [quote]) with true. cbv iota.
    rewrite substring_unquote. reflexivity.
  - (* an object *)
    rewrite (Hparse members eq_refl). reflexivity.
Qed.

(** *** [parse] on the text of an object *)

Lemma join_cons (t : JavaString) (texts : list JavaString) :
  texts <> [] -> join (t :: texts) = t ++ ","%char :: join texts.
Proof. destruct texts; [congruence | reflexivity]. Qed.

Lemma parse_loop_comma addPair json i rest start result pair result' :
  substring json start i = Returns pair ->
  addPair result (trim pair) = Returns result' ->
  parse_loop addPair json i (","%char :: rest) (mkScanner 0 start false false result)
  = parse_loop addPair json (S i) rest (mkScanner 0 (i + 1) false false result').
Proof.
  intros Hpair Hadd. loop_step. change (0 =? 0) with true. cbv iota.
  rewrite Hpair. cbn [bind call_monad]. rewrite Hadd. reflexivity.
Qed.

Lemma neutral_member_text (ws : JavaString) (kv : JavaString * json_value) :
  forallb is_whitespace ws = true ->
  plain_key (fst kv) = true -> readable (snd kv) = true ->
  neutral 0 (member_text ws kv).
Proof.
  intros Hws Hkey Hval. apply neutral_member; [exact Hws | exact Hkey |].
  apply neutral_render; [exact Hws | exact Hval | lia].
Qed.

Lemma trim_member_text (ws : JavaString) (kv : JavaString * json_value) :
  forallb is_whitespace ws = true ->
  trim (member_text ws kv) = pair_text ws (fst kv) (render ws (snd kv)).
Proof.
  intros Hws. apply trim_tight; try exact Hws. apply tight_pair_text, tight_render.
Qed.

(** Over the members of an object the loop adds all pairs but the last, at
    whose first char it leaves [start]. *)
Lemma parse_loop_members (parse : JavaString -> call Map) (ws json : JavaString)
  (init : list (JavaString * json_value)) :
  forallb is_whitespace ws = true ->
  forall (final : JavaString * json_value) (pre post : JavaString) (map : Map),
    json = pre ++ join (List.map (member_text ws) (init ++ [final])) ++ post ->
    (forall kv, In kv (init ++ [final]) ->
       plain_key (fst kv) = true /\ readable (snd kv) = true) ->
    (forall kv map, In kv init ->
       addPair parse map (pair_text ws (fst kv) (render ws (snd kv)))
       = Returns (put map (fst kv) (value_of (snd kv)))) ->
    exists p,
      join (List.map (member_text ws) (init ++ [final])) = p ++ member_text ws final
      /\ parse_loop (addPair parse) json (List.length pre)
           (join (List.map (member_text ws) (init ++ [final])))
           (mkScanner 0 (List.length pre) false false map)
         = Returns (mkScanner 0 (List.length pre + List.length p) false false
                      (fold_left (fun m kv => put m (fst kv) (value_of (snd kv)))
                                 init map)).
Proof.
  intros Hws. induction init as [|kv init IH]; intros final pre post map Hjson Hall Hadd.
  - exists []. split; [reflexivity|]. cbn [app List.map join fold_left].
    rewrite <- (app_nil_r (member_text ws final)) at 1.
    destruct (Hall final (or_introl eq_refl)) as [Hkey Hval].
    rewrite (neutral_member_text ws final Hws Hkey Hval) by lia.
    cbn [parse_loop]. now rewrite Nat.add_0_r.
  - cbn [app List.map] in *.
    assert (Hne : List.map (member_text ws) (init ++ [final]) <> []).
    { rewrite map_app. simpl. now destruct (List.map (member_text ws) init). }
    rewrite join_cons in * by exact Hne.
    destruct (Hall kv (or_introl eq_refl)) as [Hkey Hval].
    rewrite (neutral_member_text ws kv Hws Hkey Hval) by lia.
    assert (Hsub : substring json (List.length pre)
                     (List.length pre + List.length (member_text ws kv))
                   = Returns (member_text ws kv)).
    { rewrite Hjson, <- app_assoc. apply substring_middle. }
    erewrite parse_loop_comma;
      [| exact Hsub | rewrite trim_member_text by exact Hws; apply Hadd; now left].
    destruct (IH final (pre ++ member_text ws kv ++ [","%char]) post
                 (put map (fst kv) (value_of (snd kv)))) as (p & Hp & Hloop).
    + rewrite Hjson, <- !app_assoc. reflexivity.
    + intros kv' Hin. apply Hall. now right.
    + intros kv' map' Hin. apply Hadd. now right.
    + exists (member_text ws kv ++ ","%char :: p). split.
      * rewrite Hp, <- app_assoc. reflexivity.
      * rewrite !length_app in Hloop. cbn [List.length] in Hloop.
        replace (S (List.length pre + List.length (member_text ws kv)))
          with (List.length pre + (List.length (member_text ws kv) + 1))%nat by lia.
        replace (List.length pre + List.length (member_text ws kv) + 1)%nat
          with (List.length pre + (List.length (member_text ws kv) + 1))%nat by lia.
        rewrite Hloop. cbn [fold_left]. rewrite (length_app (member_text ws kv)).
        cbn [List.length]. do 2 f_equal. lia.
Qed.

Lemma collect_members (A : Type) (g : A -> JavaString * Object) (l : list A) (map : Map) :
  fold_left (fun m e => put m (fst e) (snd e)) (List.map g l) map
  = fold_left (fun m a => put m (fst (g a)) (snd (g a))) l map.
Proof.
  revert map. induction l as [|a l IH]; intros map; simpl; [reflexivity | apply IH].
Qed.

Lemma render_object (ws : JavaString) (members : list (JavaString * json_value)) :
  render ws (JObject members)
  = "{"%char :: join (List.map (member_text ws) members) ++ ["}"%char].
Proof. reflexivity. Qed.

Lemma firstn_length_app {A} (l l' : list A) : firstn (List.length l) (l ++ l') = l.
Proof.
  rewrite firstn_app, firstn_all, Nat.sub_diag, firstn_O. apply app_nil_r.
Qed.

(** The body of [parse] on the text of an object, given that the calls on the
    member objects return what they stand for. *)
Lemma parse_body_render (parse : JavaString -> call Map) (ws w1 w2 : JavaString)
  (members : list (JavaString * json_value)) :
  forallb is_whitespace ws = true ->
  forallb is_whitespace w1 = true -> forallb is_whitespace w2 = true ->
  readable (JObject members) = true ->
  (forall kv members', In kv members -> snd kv = JObject members' ->
     parse (render ws (snd kv))
     = Returns (collect (List.map (fun kv => (fst kv, value_of (snd kv))) members'))) ->
  parse_body parse (w1 ++ render ws (JObject members) ++ w2)
  = Returns (collect (List.map (fun kv => (fst kv, value_of (snd kv))) members)).
Proof.
  intros Hws Hw1 Hw2 Hreadable Hnested.
  assert (Hadd : forall kv map, In kv members ->
            addPair parse map (pair_text ws (fst kv) (render ws (snd kv)))
            = Returns (put map (fst kv) (value_of (snd kv)))).
  { intros kv map Hin. destruct (readable_members members kv Hreadable Hin) as [Hkey Hval].
    apply addPair_pair_text; try assumption.
    intros members' Heq. rewrite Heq. rewrite <- Heq at 1. now apply Hnested. }
  unfold parse_body. rewrite trim_tight by (assumption || apply tight_render).
  rewrite render_object. set (J := join (List.map (member_text ws) members)).
  assert (Hstart : startsWith ("{"%char :: J ++ ["}"%char]) (str "{") = true) by reflexivity.
  assert (Hend : endsWith ("{"%char :: J ++ ["}"%char]) (str "}") = true).
  { unfold endsWith. cbn [rev]. rewrite rev_app_distr. reflexivity. }
  rewrite Hstart, Hend. cbn [negb orb].
  assert (Hinterior : firstn (List.length ("{"%char :: J ++ ["}"%char]) - 2)
                        (skipn 1 ("{"%char :: J ++ ["}"%char])) = J).
  { cbn [skipn List.length]. rewrite length_app. cbn [List.length].
    replace (S (List.length J + 1) - 2)%nat with (List.length J) by lia.
    apply firstn_length_app. }
  rewrite Hinterior.
  destruct members as [|kv0 members0] using rev_ind; [reflexivity|]. clear IHmembers0.
  rename members0 into init, kv0 into final.
  destruct (parse_loop_members parse ws ("{"%char :: J ++ ["}"%char]) init Hws final
              ["{"%char] ["}"%char] []) as (p & Hp & Hloop).
  - reflexivity.
  - intros kv Hin. now apply (readable_members (init ++ [final])).
  - intros kv map Hin. apply Hadd. apply in_or_app. now left.
  - fold J in Hp, Hloop. cbn [List.length] in Hloop. rewrite Hloop.
    cbn [bind call_monad start result].
    assert (Hsub : substring ("{"%char :: J ++ ["}"%char]) (1 + List.length p)
                     (List.length ("{"%char :: J ++ ["}"%char]) - 1)
                   = Returns (member_text ws final)).
    { pose proof (substring_middle ("{"%char :: p) (member_text ws final) ["}"%char]) as H.
      rewrite Hp. rewrite <- app_assoc. cbn [List.length app] in *.
      rewrite !length_app. cbn [List.length].
      replace (S (List.length p + (List.length (member_text ws final) + 1)) - 1)%nat
        with (S (List.length p) + List.length (member_text ws final))%nat by lia.
      exact H. }
    rewrite Hsub. rewrite trim_member_text by exact Hws.
    change (isEmpty (pair_text ws (fst final) (render ws (snd final)))) with false.
    cbn [negb]. rewrite Hadd by (apply in_or_app; right; now left).
    f_equal. unfold collect. rewrite !collect_members, fold_left_app. reflexivity.
Qed.

Lemma length_join_In (t : JavaString) (texts : list JavaString) :
  In t texts -> (List.length t <= List.length (join texts))%nat.
Proof.
  induction texts as [|t' texts IH]; [contradiction|].
  intros [->|Hin].
  - destruct texts; [apply Nat.le_refl|].
    rewrite join_cons by discriminate. rewrite length_app. lia.
  - destruct texts as [|t'' texts]; [contradiction|].
    rewrite join_cons by discriminate. rewrite length_app. cbn [List.length].
    specialize (IH Hin). lia.
Qed.

Lemma length_render_member (ws : JavaString) (members : list (JavaString * json_value))
  (kv : JavaString * json_value) :
  In kv members ->
  (List.length (render ws (snd kv)) < List.length (render ws (JObject members)))%nat.
Proof.
  intros Hin. rewrite render_object. cbn [List.length]. rewrite length_app.
  pose proof (length_join_In (member_text ws kv) (List.map (member_text ws) members)
                (in_map _ _ _ Hin)) as H.
  unfold member_text at 1 in H. unfold member, pair_text in H.
  repeat first [rewrite length_app in H | progress (cbn [List.length] in H)].
  cbn [List.length]. lia.
Qed.

Lemma parse_depth_render (ws : JavaString) :
  forallb is_whitespace ws = true ->
  forall (depth : nat) (members : list (JavaString * json_value)) (w1 w2 : JavaString),
    forallb is_whitespace w1 = true -> forallb is_whitespace w2 = true ->
    readable (JObject members) = true ->
    (List.length (render ws (JObject members)) < depth)%nat ->
    parse_depth depth (w1 ++ render ws (JObject members) ++ w2)
    = Returns (collect (List.map (fun kv => (fst kv, value_of (snd kv))) members)).
Proof.
  intros Hws. induction depth as [|depth IH]; intros members w1 w2 Hw1 Hw2 Hreadable Hlen;
    [lia|].
  cbn [parse_depth]. apply parse_body_render; try assumption.
  intros kv members' Hin Heq.
  pose proof (length_render_member ws members kv Hin) as Hshorter.
  destruct (readable_members members kv Hreadable Hin) as [_ Hval].
  rewrite Heq in *.
  rewrite <- (app_nil_r (render ws (JObject members'))).
  apply (IH members' [] []); try reflexivity; [exact Hval | lia].
Qed.

(** *** The recursion of [parse] *)

Lemma length_trim_leading (s : JavaString) :
  (List.length (trim_leading s) <= List.length s)%nat.
Proof.
  induction s as [|c s IH]; simpl; [lia|]. destruct (is_whitespace c); simpl; lia.
Qed.

Lemma length_trim (s : JavaString) : (List.length (trim s) <= List.length s)%nat.
Proof.
  unfold trim. rewrite length_rev.
  pose proof (length_trim_leading (rev (trim_leading s))) as H1.
  pose proof (length_trim_leading s) as H2. rewrite length_rev in H1. lia.
Qed.

Lemma length_substring (s t : JavaString) (b e : nat) :
  substring s b e = Returns t ->
  (List.length t = e - b /\ b <= e <= List.length s)%nat.
Proof.
  unfold substring.
  destruct (b <=? e)%nat eqn:Hbe; [|discriminate].
  destruct (e <=? List.length s)%nat eqn:Hes; [|discriminate].
  apply Nat.leb_le in Hbe, Hes. cbn [andb]. intros [= <-].
  rewrite length_firstn, length_skipn. lia.
Qed.

(** [addPair] calls [parse] on proper parts of the pair only. *)
Lemma addPair_calls (parse1 parse2 : JavaString -> call Map) (map : Map)
  (pair : JavaString) :
  (forall v, (List.length v < List.length pair)%nat -> parse1 v = parse2 v) ->
  addPair parse1 map pair = addPair parse2 map pair.
Proof.
  intros H. unfold addPair. destruct (indexOf pair ":") as [colonIndex|]; [|reflexivity].
  destruct (substring pair 0 colonIndex) as [key|]; [|reflexivity].
  cbn [bind call_monad].
  destruct (substring pair (colonIndex + 1) (List.length pair)) as [value|] eqn:Hvalue;
    [|reflexivity].
  cbn [bind call_monad]. apply length_substring in Hvalue.
  pose proof (length_trim value) as Htrim.
  rewrite (H (trim value)) by lia. reflexivity.
Qed.

Lemma parse_loop_calls (parse1 parse2 : JavaString -> call Map) (json rest : JavaString) :
  (forall v, (List.length v < List.length json)%nat -> parse1 v = parse2 v) ->
  forall i st,
    parse_loop (addPair parse1) json i rest st = parse_loop (addPair parse2) json i rest st.
Proof.
  intros H. induction rest as [|c rest IH]; intros i st; [reflexivity|].
  cbn [parse_loop]. rewrite !IH.
  destruct (substring json (start st) i) as [pair|] eqn:Hpair; [|reflexivity].
  cbn [bind call_monad]. apply length_substring in Hpair.
  pose proof (length_trim pair) as Htrim.
  rewrite (addPair_calls parse1 parse2 (result st) (trim pair))
    by (intros v Hv; apply H; lia).
  destruct (addPair parse2 (result st) (trim pair)); cbn [bind call_monad];
    [now rewrite IH | reflexivity].
Qed.

Lemma parse_body_calls (parse1 parse2 : JavaString -> call Map) (json : JavaString) :
  (forall v, (List.length v < List.length json)%nat -> parse1 v = parse2 v) ->
  parse_body parse1 json = parse_body parse2 json.
Proof.
  intros H. unfold parse_body. pose proof (length_trim json) as Htrim.
  destruct (negb (startsWith (trim json) (str "{")) || negb (endsWith (trim json) (str "}")));
    [reflexivity|].
  rewrite (parse_loop_calls parse1 parse2 (trim json)) by (intros v Hv; apply H; lia).
  destruct (parse_loop (addPair parse2) (trim json) 1 _ _) as [st|]; [|reflexivity].
  cbn [bind call_monad].
  destruct (substring (trim json) (start st) (List.length (trim json) - 1))
    as [lastPair|] eqn:Hlast; [|reflexivity].
  cbn [bind call_monad]. apply length_substring in Hlast.
  pose proof (length_trim lastPair) as Htrim'.
  rewrite (addPair_calls parse1 parse2 (result st) (trim lastPair))
    by (intros v Hv; apply H; lia).
  reflexivity.
Qed.

Lemma parse_depth_enough (depth1 depth2 : nat) (json : JavaString) :
  (List.length json < depth1)%nat -> (List.length json < depth2)%nat ->
  parse_depth depth1 json = parse_depth depth2 json.
Proof.
  revert depth2 json. induction depth1 as [|depth1 IH]; intros depth2 json H1 H2; [lia|].
  destruct depth2 as [|depth2]; [lia|]. cbn [parse_depth].
  apply parse_body_calls. intros v Hv. apply IH; lia.
Qed.

(** [parse] is the function that its source defines by recursion. *)
Lemma parse_unfold (json : JavaString) : parse json = parse_body parse json.
Proof.
  unfold parse at 1. cbn [parse_depth]. apply parse_body_calls.
  intros v Hv. unfold parse. apply parse_depth_enough; lia.
Qed.

(** *** What [parse] throws *)

Lemma substring_throws (s : JavaString) (b e : nat) (x : throwable) :
  substring s b e = Throws x -> x = StringIndexOutOfBoundsException.
Proof.
  unfold substring. destruct ((b <=? e)%nat && (e <=? List.length s)%nat); [discriminate|].
  now intros [= <-].
Qed.

Lemma addPair_throws (parse : JavaString -> call Map) (map : Map) (pair : JavaString)
  (e : throwable) :
  addPair parse map pair = Throws e ->
  e = StringIndexOutOfBoundsException
  \/ exists v, (List.length v < List.length pair)%nat /\ parse v = Throws e.
Proof.
  unfold addPair. destruct (indexOf pair ":") as [colonIndex|]; [|discriminate].
  destruct (substring pair 0 colonIndex) as [key|x] eqn:Hkey; cbn [bind call_monad].
  2:{ intros [= <-]. left. eapply substring_throws, Hkey. }
  destruct (substring pair (colonIndex + 1) (List.length pair)) as [value|x] eqn:Hvalue;
    cbn [bind call_monad].
  2:{ intros [= <-]. left. eapply substring_throws, Hvalue. }
  apply length_substring in Hvalue. pose proof (length_trim value) as Htrim.
  destruct (if startsWith (trim key) [quote] && endsWith (trim key) [quote]
            then substring (trim key) 1 (List.length (trim key) - 1)
            else Returns (trim key)) as [key'|x] eqn:Hkey'; cbn [bind call_monad].
  2:{ intros [= <-]. left.
      destruct (startsWith (trim key) [quote] && endsWith (trim key) [quote]);
        [eapply substring_throws, Hkey' | discriminate]. }
  destruct (startsWith (trim value) (str "{")).
  { destruct (parse (trim value)) as [object|x] eqn:Hparse; cbn [bind call_monad];
      [discriminate|].
    intros [= <-]. right. exists (trim value). split; [lia | exact Hparse]. }
  destruct (startsWith (trim value) [quote]).
  { destruct (substring (trim value) 1 (List.length (trim value) - 1)) as [s|x] eqn:Hs;
      cbn [bind call_monad]; [discriminate|].
    intros [= <-]. left. eapply substring_throws, Hs. }
  destruct (equals (trim value) (str "true")); [discriminate|].
  destruct (equals (trim value) (str "false")); [discriminate|].
  destruct (equals (trim value) (str "null")); [discriminate|].
  destruct (Integer_parseInt (trim value)); [discriminate|].
  destruct (Long_parseLong (trim value)); discriminate.
Qed.

Lemma parse_loop_throws (parse : JavaString -> call Map) (json rest : JavaString)
  (e : throwable) :
  forall i st,
    parse_loop (addPair parse) json i rest st = Throws e ->
    e = StringIndexOutOfBoundsException
    \/ exists v, (List.length v < List.length json)%nat /\ parse v = Throws e.
Proof.
  induction rest as [|c rest IH]; intros i st; [discriminate|].
  cbn [parse_loop].
  destruct (escape st); [apply IH|].
  destruct (Ascii.eqb c backslash); [apply IH|].
  destruct (Ascii.eqb c quote); [apply IH|].
  destruct (inString st); [apply IH|].
  cbv zeta.
  destruct (Ascii.eqb c "," && _); [|apply IH].
  destruct (substring json (start st) i) as [pair|x] eqn:Hpair; cbn [bind call_monad].
  2:{ intros [= <-]. left. eapply substring_throws, Hpair. }
  apply length_substring in Hpair. pose proof (length_trim pair) as Htrim.
  destruct (addPair parse (result st) (trim pair)) as [result'|x] eqn:Hadd;
    cbn [bind call_monad]; [apply IH|].
  intros [= <-]. apply addPair_throws in Hadd as [->|(v & Hv & Hparse)];
    [now left | right]. exists v. split; [lia | exact Hparse].
Qed.

Lemma parse_body_throws (parse : JavaString -> call Map) (json : JavaString)
  (e : throwable) :
  parse_body parse json = Throws e ->
  e = RuntimeException_InvalidJSON \/ e = StringIndexOutOfBoundsException
  \/ exists v, (List.length v < List.length json)%nat /\ parse v = Throws e.
Proof.
  unfold parse_body. pose proof (length_trim json) as Htrim.
  destruct (negb (startsWith (trim json) (str "{")) || negb (endsWith (trim json) (str "}"))).
  { intros [= <-]. now left. }
  destruct (parse_loop (addPair parse) (trim json) 1 _ _) as [st|x] eqn:Hloop;
    cbn [bind call_monad].
  2:{ intros [= <-]. right. apply parse_loop_throws in Hloop as [->|(v & Hv & Hparse)];
        [now left | right]. exists v. split; [lia | exact Hparse]. }
  destruct (substring (trim json) (start st) (List.length (trim json) - 1))
    as [lastPair|x] eqn:Hlast; cbn [bind call_monad].
  2:{ intros [= <-]. right. left. eapply substring_throws, Hlast. }
  apply length_substring in Hlast. pose proof (length_trim lastPair) as Htrim'.
  destruct (negb (isEmpty (trim lastPair))); [|discriminate].
  intros Hadd. right. apply addPair_throws in Hadd as [->|(v & Hv & Hparse)];
    [now left | right]. exists v. split; [lia | exact Hparse].
Qed.

Lemma parse_depth_throws (depth : nat) (json : JavaString) (e : throwable) :
  (List.length json < depth)%nat ->
  parse_depth depth json = Throws e ->
  e = RuntimeException_InvalidJSON \/ e = StringIndexOutOfBoundsException.
Proof.
  revert json. induction depth as [|depth IH]; intros json Hlen; [lia|].
  cbn [parse_depth]. intros H.
  apply parse_body_throws in H as [->|[->|(v & Hv & Hparse)]];
    [now left | now right |]. apply (IH v); [lia | exact Hparse].
Qed.

(** X22 ([parse] reads back what is written): the text of an object whose
    keys and strings are escaped and whose numbers fit in 64 bits, with
    objects nested to any depth and the same whitespace [ws] around every
    token, is parsed into the object it stands for: strings as they are
    written (escapes are not decoded), a number as an [Integer] when it fits
    in 32 bits and as a [Long] otherwise, the members in their order. *)
Theorem parse_reads_back (ws w1 w2 : JavaString)
  (members : list (JavaString * json_value)) :
  forallb is_whitespace ws = true ->
  forallb is_whitespace w1 = true -> forallb is_whitespace w2 = true ->
  readable (JObject members) = true ->
  exists object,
    parse (w1 ++ render ws (JObject members) ++ w2) = Returns object
    /\ value_of (JObject members) = OMap object.
Proof.
  intros Hws Hw1 Hw2 Hreadable. eexists. split; [|reflexivity].
  unfold parse. apply parse_depth_render; try assumption.
  rewrite !length_app. lia.
Qed.

Lemma parse_reads_back_witness :
  exists object,
    parse (str " " ++
           render (str " ")
             (JObject [(str "keys", JObject [(str "n", JNumber 4); (str "k", JNumber 3)]);
                       (str "1", JObject [(str "base", JString (str "16"));
                                          (str "value", JString (str "fF"))]);
                       (str "big", JNumber 4294967296)])
           ++ [])
    = Returns object
    /\ value_of
         (JObject [(str "keys", JObject [(str "n", JNumber 4); (str "k", JNumber 3)]);
                   (str "1", JObject [(str "base", JString (str "16"));
                                      (str "value", JString (str "fF"))]);
                   (str "big", JNumber 4294967296)])
       = OMap object.
Proof.
  apply (parse_reads_back (str " ") (str " ") []); reflexivity.
Defined.

(** X23 (what [parse] throws): [parse] is the function its source defines by
    recursion, no nesting exhausts it, and whenever it does not return a map
    it throws the RuntimeException "Invalid JSON" or the
    StringIndexOutOfBoundsException of [substring]: a value that is no
    number is kept as a string and throws nothing. *)
Theorem parse_throws (json : JavaString) :
  parse json = parse_body parse json
  /\ forall e, parse json = Throws e ->
               e = RuntimeException_InvalidJSON \/ e = StringIndexOutOfBoundsException.
Proof.
  split; [apply parse_unfold|]. intros e. unfold parse. apply parse_depth_throws. lia.
Qed.

Lemma parse_throws_witness :
  parse ("{"%char :: quote :: "a"%char :: quote :: ":"%char :: quote :: ["}"%char])
  = Throws StringIndexOutOfBoundsException
  /\ (StringIndexOutOfBoundsException = RuntimeException_InvalidJSON
      \/ StringIndexOutOfBoundsException = StringIndexOutOfBoundsException).
Proof.
  assert (H : parse ("{"%char :: quote :: "a"%char :: quote :: ":"%char :: quote :: ["}"%char])
              = Throws StringIndexOutOfBoundsException) by reflexivity.
  split; [exact H|].
  exact (proj2 (parse_throws _) _ H).
Defined.

(** *** Maps with distinct keys *)

Lemma equals_refl (s : JavaString) : equals s s = true.
Proof. unfold equals. now destruct (list_eq_dec ascii_dec s s). Qed.

Lemma equals_false (s t : JavaString) : s <> t -> equals s t = false.
Proof. intros H. unfold equals. now destruct (list_eq_dec ascii_dec s t). Qed.

Lemma put_fresh (map : Map) (key : JavaString) (value : Object) :
  ~ In key (List.map fst map) -> put map key value = map ++ [(key, value)].
Proof.
  induction map as [|[k v] map IH]; simpl; intros H; [reflexivity|].
  rewrite equals_false by tauto. rewrite IH by tauto. reflexivity.
Qed.

Lemma collect_distinct (entries : list (JavaString * Object)) :
  NoDup (List.map fst entries) -> collect entries = entries.
Proof.
  unfold collect. enough (H : forall acc, NoDup (List.map fst (acc ++ entries)) ->
    fold_left (fun m e => put m (fst e) (snd e)) entries acc = acc ++ entries)
    by (intros Hnd; exact (H [] Hnd)).
  induction entries as [|[k v] entries IH]; intros acc Hnd; simpl.
  - now rewrite app_nil_r.
  - rewrite put_fresh.
    + rewrite IH by now rewrite <- app_assoc. now rewrite <- app_assoc.
    + rewrite map_app in Hnd. simpl in Hnd. apply NoDup_remove_2 in Hnd.
      intros Hin. apply Hnd. apply in_or_app. now left.
Qed.

Lemma get_distinct (entries : list (JavaString * Object)) (key : JavaString)
  (value : Object) :
  NoDup (List.map fst entries) -> In (key, value) entries -> get entries key = value.
Proof.
  induction entries as [|[k v] entries IH]; simpl; intros Hnd Hin; [contradiction|].
  inversion Hnd as [|? ? Hnotin Hnd']; subst.
  destruct Hin as [[= -> ->]|Hin].
  - now rewrite equals_refl.
  - rewrite equals_false; [now apply IH|].
    intros ->. apply Hnotin. apply in_map_iff. now exists (key, value).
Qed.

(** *** Numerals *)

Lemma magnitude_loop_uint (d : Decimal.uint) (acc : positive) :
  magnitude_loop 10 (str (NilEmpty.string_of_uint d)) (Z.pos acc)
  = Returns (Z.pos (Pos.of_uint_acc d acc)).
Proof.
  revert acc. induction d; intros acc; cbn [NilEmpty.string_of_uint str
    list_ascii_of_string magnitude_loop Pos.of_uint_acc]; [reflexivity|..];
    match goal with
    | |- context [Character_digit ?c 10] =>
        let v := eval vm_compute in (Character_digit c 10) in
        change (Character_digit c 10) with v
    end; cbv iota; fold (str (NilEmpty.string_of_uint d));
    match goal with
    | |- magnitude_loop 10 _ ?a = Returns (Z.pos (Pos.of_uint_acc d ?b)) =>
        replace a with (Z.pos b) by lia
    end; apply IHd.
Qed.

Lemma magnitude_loop_zero (d : Decimal.uint) :
  magnitude_loop 10 (str (NilEmpty.string_of_uint d)) 0
  = Returns (Z.of_N (Pos.of_uint d)).
Proof.
  induction d; cbn [NilEmpty.string_of_uint str list_ascii_of_string magnitude_loop
                    Pos.of_uint]; [reflexivity|..];
    match goal with
    | |- context [Character_digit ?c 10] =>
        let v := eval vm_compute in (Character_digit c 10) in
        change (Character_digit c 10) with v
    end; cbv iota; fold (str (NilEmpty.string_of_uint d));
    [exact IHd | apply (magnitude_loop_uint d) ..].
Qed.

Lemma new_BigInteger_uint (d : Decimal.uint) :
  new_BigInteger (str (NilZero.string_of_uint d)) 10 = Returns (Z.of_N (Pos.of_uint d)).
Proof.
  rewrite <- magnitude_loop_zero. destruct d; reflexivity.
Qed.

Lemma new_BigInteger_numeral (n : Z) :
  new_BigInteger (str (IndexJs.toString n)) 10 = Returns n.
Proof.
  unfold IndexJs.toString. rewrite <- (DecimalZ.of_to n) at 2.
  destruct (Z.to_int n) as [d|d]; cbn [NilZero.string_of_int Z.of_int].
  - apply new_BigInteger_uint.
  - pose proof (new_BigInteger_uint d) as H.
    unfold str in *. cbn [list_ascii_of_string]. unfold new_BigInteger in *.
    change ((10 <? 2) || (36 <? 10)) with false in *. cbv iota in *.
    change (Ascii.eqb "-" "-") with true. cbv iota.
    destruct (list_ascii_of_string (NilZero.string_of_uint d)) as [|c digits] eqn:Hd;
      [discriminate|].
    assert (Hc : numeral_char c = true /\ Ascii.eqb c "-" = false).
    { destruct d; cbn in Hd; injection Hd as <- _; split; reflexivity. }
    destruct Hc as [Hc Hminus]. rewrite Hminus in H.
    apply numeral_char_not_special in Hc as (_ & _ & Hplus & _). rewrite Hplus in H.
    rewrite H. reflexivity.
Qed.

(** *** The text of a test case *)

Lemma numeral_char_key (c : ascii) :
  numeral_char c = true ->
  Ascii.eqb c "k" = false
  /\ negb (Ascii.eqb c quote) && negb (Ascii.eqb c backslash) = true
  /\ negb (Ascii.eqb c ":") = true.
Proof.
  destruct c as [[] [] [] [] [] [] [] []]; intros H; try discriminate H;
    repeat split; reflexivity.
Qed.

Lemma escaped_plain (s : JavaString) :
  forallb (fun c => negb (Ascii.eqb c quote) && negb (Ascii.eqb c backslash)) s = true ->
  escaped s = true.
Proof.
  induction s as [|c s IH]; [reflexivity|]. cbn [forallb escaped]. intros H.
  apply andb_true_iff in H as [Hc Hs]. apply andb_true_iff in Hc as [Hquote Hback].
  apply negb_true_iff in Hback. rewrite Hback, Hquote. now apply IH.
Qed.

Lemma plain_key_numeral (n : Z) : plain_key (str (IndexJs.toString n)) = true.
Proof.
  destruct (numeral_chars n) as (c & t & -> & Hall). rewrite forallb_forall in Hall.
  unfold plain_key. apply andb_true_iff. split.
  - apply escaped_plain. apply forallb_forall. intros a Ha.
    now apply numeral_char_key, Hall.
  - apply forallb_forall. intros a Ha. now apply numeral_char_key, Hall.
Qed.

Lemma numeral_not_keys (n : Z) : str (IndexJs.toString n) <> str "keys".
Proof.
  destruct (numeral_chars n) as (c & t & -> & Hall). cbn [forallb] in Hall.
  apply andb_true_iff in Hall as [Hc _]. apply numeral_char_key in Hc as [Hk _].
  intros [= -> _]. discriminate Hk.
Qed.

Lemma str_injective (s t : string) : str s = str t -> s = t.
Proof.
  intros H. apply (f_equal string_of_list_ascii) in H. unfold str in H.
  now rewrite !string_of_list_ascii_of_string in H.
Qed.

Lemma Character_digit_plain (c : ascii) (radix d : Z) :
  Character_digit c radix = Some d ->
  negb (Ascii.eqb c quote) && negb (Ascii.eqb c backslash) = true.
Proof.
  destruct c as [[] [] [] [] [] [] [] []]; intros H; try reflexivity; discriminate H.
Qed.

Lemma magnitude_loop_plain (radix : Z) (digits : JavaString) :
  forall acc y,
    magnitude_loop radix digits acc = Returns y ->
    forallb (fun c => negb (Ascii.eqb c quote) && negb (Ascii.eqb c backslash)) digits
    = true.
Proof.
  induction digits as [|c digits IH]; intros acc y H; [reflexivity|].
  cbn [magnitude_loop forallb] in *.
  destruct (Character_digit c radix) as [d|] eqn:Hc; [|discriminate].
  rewrite (Character_digit_plain c radix d Hc). exact (IH _ _ H).
Qed.

Lemma magnitude_plain (radix : Z) (digits : JavaString) (y : Z) :
  magnitude radix digits = Returns y ->
  forallb (fun c => negb (Ascii.eqb c quote) && negb (Ascii.eqb c backslash)) digits
  = true.
Proof.
  destruct digits; [discriminate|]. apply magnitude_loop_plain.
Qed.

(** What [convertBase] accepts has a base in 2..36 and can stand between
    quotes. *)
Lemma convertBase_accepts (value : JavaString) (base y : Z) :
  convertBase value base = Returns y -> 2 <= base <= 36 /\ escaped value = true.
Proof.
  unfold convertBase, new_BigInteger.
  destruct ((base <? 2) || (36 <? base)) eqn:Hbase; [discriminate|].
  apply orb_false_iff in Hbase as [H2 H36]. apply Z.ltb_ge in H2, H36.
  intros H. split; [lia|]. apply escaped_plain.
  destruct value as [|c digits]; [discriminate|].
  destruct (Ascii.eqb c "-") eqn:Hminus.
  { apply Ascii.eqb_eq in Hminus as ->.
    destruct (magnitude base digits) as [m|] eqn:Hm; [|discriminate].
    cbn [forallb]. now rewrite (magnitude_plain base digits m Hm). }
  destruct (Ascii.eqb c "+") eqn:Hplus.
  { apply Ascii.eqb_eq in Hplus as ->. cbn [forallb].
    now rewrite (magnitude_plain base digits y H). }
  exact (magnitude_plain base (c :: digits) y H).
Qed.

(** The shares of a test case and the roots they stand for. *)
Lemma readable_share (share : Z * Z * JavaString) (y : Z) :
  convertBase (snd share) (snd (fst share)) = Returns y ->
  plain_key (fst (share_member share)) = true
  /\ readable (snd (share_member share)) = true.
Proof.
  destruct share as [[x base] digits]. cbn [fst snd share_member]. intros H.
  apply convertBase_accepts in H as [_ Hdigits]. split; [apply plain_key_numeral|].
  cbn [readable forallb fst snd]. rewrite Hdigits.
  pose proof (plain_key_numeral base) as Hbase. apply plain_key_plain in Hbase as [-> _].
  reflexivity.
Qed.

Lemma value_of_share (share : Z * Z * JavaString) :
  value_of (snd (share_member share))
  = OMap [(str "base", OString (str (IndexJs.toString (snd (fst share)))));
          (str "value", OString (snd share))].
Proof.
  destruct share as [[x base] digits]. cbn [fst snd share_member value_of List.map].
  f_equal.
Qed.

(** *** [main] on the text of a test case *)

Lemma Integer_parseInt_numeral (n : Z) :
  - 2 ^ 31 <= n < 2 ^ 31 -> Integer_parseInt (str (IndexJs.toString n)) = Returns n.
Proof.
  intros Hn. unfold Integer_parseInt. rewrite decimal_numeral.
  assert (H : (- 2 ^ 31 <=? n) && (n <? 2 ^ 31) = true)
    by (apply andb_true_iff; split; [apply Z.leb_le | apply Z.ltb_lt]; lia).
  now rewrite H.
Qed.

(** The loop over the keys, on the keys of the shares. *)
Lemma roots_loop_shares (json : Map) (shares : list (Z * Z * JavaString))
  (roots : list (Z * Z)) :
  Forall2 (fun share root =>
             fst (fst share) = fst root
             /\ convertBase (snd share) (snd (fst share)) = Returns (snd root))
          shares roots ->
  (forall share, In share shares ->
     get json (fst (share_member share)) = value_of (snd (share_member share))) ->
  forall acc,
    roots_loop json (List.map (fun share => fst (share_member share)) shares) acc
    = Returns (acc ++ roots).
Proof.
  intros H. induction H as [|share root shares roots [Hx Hy] _ IH]; intros Hget acc.
  - cbn [List.map roots_loop]. now rewrite app_nil_r.
  - cbn [List.map roots_loop].
    pose proof (Hget share (or_introl eq_refl)) as Hroot.
    rewrite value_of_share in Hroot.
    destruct share as [[x base] digits], root as [x' y]. cbn [fst snd share_member] in *.
    subst x'. rewrite equals_false by apply numeral_not_keys.
    rewrite new_BigInteger_numeral. cbn [bind call_monad].
    unfold getObject, getString. rewrite Hroot. cbn [bind call_monad get].
    rewrite equals_refl. cbn [Object_toString String_valueOf bind call_monad].
    destruct (convertBase_accepts digits base y Hy) as [Hbase _].
    rewrite Integer_parseInt_numeral by lia. cbn [bind call_monad].
    rewrite (equals_false (str "base") (str "value")) by discriminate.
    rewrite equals_refl. cbn [Object_toString String_valueOf bind call_monad].
    rewrite Hy. cbn [bind call_monad].
    rewrite IH by (intros share Hin; apply Hget; now right).
    now rewrite <- app_assoc.
Qed.

Lemma share_keys_distinct (shares : list (Z * Z * JavaString)) (roots : list (Z * Z)) :
  Forall2 (fun share root =>
             fst (fst share) = fst root
             /\ convertBase (snd share) (snd (fst share)) = Returns (snd root))
          shares roots ->
  NoDup (List.map fst roots) ->
  NoDup (str "keys" :: List.map (fun share => fst (share_member share)) shares).
Proof.
  intros H Hnd.
  assert (Hx : List.map (fun share => fst (share_member share)) shares
               = List.map (fun x => str (IndexJs.toString x)) (List.map fst roots)).
  { induction H as [|[[x base] digits] [x' y] shares roots [Hx _] _ IH]; [reflexivity|].
    cbn [List.map fst snd share_member] in *. subst x'. f_equal.
    apply IH. now inversion Hnd. }
  rewrite Hx. apply NoDup_cons.
  - intros Hin. apply in_map_iff in Hin as (x & Heq & _).
    now apply numeral_not_keys in Heq.
  - apply Injective_map_NoDup; [|exact Hnd].
    intros a b Hab. now apply toString_inj, str_injective.
Qed.

Lemma Forall2_In_left {A B} (R : A -> B -> Prop) (l : list A) (l' : list B) (a : A) :
  Forall2 R l l' -> In a l -> exists b, In b l' /\ R a b.
Proof.
  intros H. induction H as [|a0 b0 l l' HR _ IH]; intros Hin; [contradiction|].
  destruct Hin as [->|Hin].
  - exists b0. split; [now left | exact HR].
  - destruct (IH Hin) as (b & Hb & HRb). exists b. split; [now right | exact HRb].
Qed.

(** From the text of a test case to the printed line. *)
Lemma main_testcase (ws w1 w2 : JavaString) (lines : list JavaString) (n k : Z)
  (shares : list (Z * Z * JavaString)) (roots : list (Z * Z)) :
  forallb is_whitespace ws = true ->
  forallb is_whitespace w1 = true -> forallb is_whitespace w2 = true ->
  List.concat lines = w1 ++ render ws (testcase n k shares) ++ w2 ->
  - 2 ^ 63 <= n < 2 ^ 63 -> - 2 ^ 31 <= k < 2 ^ 31 ->
  Forall2 (fun share root =>
             fst (fst share) = fst root
             /\ convertBase (snd share) (snd (fst share)) = Returns (snd root))
          shares roots ->
  NoDup (List.map fst roots) ->
  main lines
  = match constantTerm roots k with
    | Normal f => Prints (toString f)
    | Throw e => UncaughtArithmetic e
    end.
Proof.
  intros Hws Hw1 Hw2 Hlines Hn Hk Hshares Hnd. unfold main. cbv zeta. rewrite Hlines.
  pose proof (share_keys_distinct shares roots Hshares Hnd) as Hkeys.
  assert (Hreadable : readable (testcase n k shares) = true).
  { cbn [testcase readable forallb fst snd].
    assert (Hn' : (- 2 ^ 63 <=? n) && (n <? 2 ^ 63) = true)
      by (apply andb_true_iff; split; [apply Z.leb_le | apply Z.ltb_lt]; lia).
    assert (Hk' : (- 2 ^ 63 <=? k) && (k <? 2 ^ 63) = true)
      by (apply andb_true_iff; split; [apply Z.leb_le | apply Z.ltb_lt]; lia).
    rewrite Hn', Hk'. cbn [plain_key escaped forallb andb].
    change (plain_key (str "keys")) with true. change (plain_key (str "n")) with true.
    change (plain_key (str "k")) with true. cbn [andb].
    apply forallb_forall. intros kv Hin. apply in_map_iff in Hin as (share & <- & Hin).
    destruct (Forall2_In_left _ _ _ _ Hshares Hin) as (root & _ & _ & Hy).
    apply andb_true_iff. exact (readable_share share (snd root) Hy). }
  unfold parse. unfold testcase in *.
  rewrite parse_depth_render by (assumption || (rewrite !length_app; lia)).
  cbn [bind call_monad]. rewrite collect_distinct.
  2:{ rewrite map_map. cbn [List.map]. rewrite map_map. exact Hkeys. }
  cbn [List.map fst snd]. unfold getObject at 1. cbn [get].
  rewrite equals_refl. cbn [value_of List.map fst snd].
  rewrite collect_distinct.
  2:{ cbn [List.map fst]. apply NoDup_cons; [intros [H|[]]; discriminate H|].
      apply NoDup_cons; [intros []|apply NoDup_nil]. }
  cbn [bind call_monad]. unfold getInt. cbn [get].
  rewrite (equals_false (str "n") (str "k")) by discriminate. rewrite equals_refl.
  assert (Hk' : (- 2 ^ 31 <=? k) && (k <? 2 ^ 31) = true)
    by (apply andb_true_iff; split; [apply Z.leb_le | apply Z.ltb_lt]; lia).
  rewrite Hk'. cbn [bind call_monad roots_loop]. rewrite equals_refl.
  rewrite !map_map. cbn [fst].
  rewrite (roots_loop_shares _ shares roots Hshares).
  - reflexivity.
  - intros share Hin. apply get_distinct.
    + cbn [List.map fst]. rewrite map_map. exact Hkeys.
    + right. apply in_map_iff. now exists share.
Qed.

(** X24 ([main], from the text to the printed line): let the standard input
    hold the text of a test case whose shares have pairwise distinct
    abscissas, values that [convertBase] accepts, and lie on a polynomial with
    integer coefficients, at most [k] of them, with [k] no more than the
    number of shares. Then [main] prints the decimal numeral of the constant
    term; the entry [n] is not used. *)
Theorem main_prints_secret (ws w1 w2 : JavaString) (lines : list JavaString) (n k : Z)
  (shares : list (Z * Z * JavaString)) (roots : list (Z * Z)) (coeffs : list Z) :
  forallb is_whitespace ws = true ->
  forallb is_whitespace w1 = true -> forallb is_whitespace w2 = true ->
  List.concat lines = w1 ++ render ws (testcase n k shares) ++ w2 ->
  - 2 ^ 63 <= n < 2 ^ 63 -> k < 2 ^ 31 ->
  Forall2 (fun share root =>
             fst (fst share) = fst root
             /\ convertBase (snd share) (snd (fst share)) = Returns (snd root))
          shares roots ->
  NoDup (List.map fst roots) ->
  Forall (fun e => on_poly coeffs (point_of e)) roots ->
  Z.of_nat (List.length coeffs) <= k <= Z.of_nat (List.length roots) ->
  main lines = Prints (IndexJs.toString (eval_poly coeffs 0)).
Proof.
  intros Hws Hw1 Hw2 Hlines Hn Hk Hshares Hnd Hon Hlen.
  rewrite (main_testcase ws w1 w2 lines n k shares roots) by (assumption || lia).
  rewrite (constantTerm_poly coeffs) by assumption. reflexivity.
Qed.

Lemma main_prints_secret_witness :
  main [str "  ";
        render (str " ")
          (testcase 4 3 [(1, 10, str "4"); (2, 2, str "111");
                         (3, 10, str "12"); (6, 4, str "213")])]
  = Prints "3".
Proof.
  apply (main_prints_secret (str " ") (str "  ") [] _ 4 3
           [(1, 10, str "4"); (2, 2, str "111"); (3, 10, str "12"); (6, 4, str "213")]
           [(1, 4); (2, 7); (3, 12); (6, 39)] [3; 0; 1]).
  all: try reflexivity; try lia.
  - repeat (apply Forall2_cons; [split; reflexivity|]). apply Forall2_nil.
  - cbn [List.map fst]. repeat (apply NoDup_cons; [simpl; lia|]). apply NoDup_nil.
  - repeat (apply Forall_cons; [reflexivity|]). apply Forall_nil.
  - simpl. lia.
Defined.

(** *** [convertBase] and [decodeValue] *)





(** *** [getInt] on what [parse] returns *)

Lemma parse_single (ws key : JavaString) (v : json_value) :
  forallb is_whitespace ws = true -> plain_key key = true -> readable v = true ->
  parse (render ws (JObject [(key, v)])) = Returns [(key, value_of v)].
Proof.
  intros Hws Hkey Hv.
  pose proof (parse_depth_render ws Hws (S (List.length (render ws (JObject [(key, v)]))))
                [(key, v)] [] [] eq_refl eq_refl) as H.
  rewrite app_nil_r in H. unfold parse. cbn [app] in H. rewrite H; [reflexivity | | lia].
  cbn [readable forallb fst snd]. now rewrite Hkey, Hv.
Qed.

Lemma Long_intValue_small (n : Z) : - 2 ^ 31 <= n < 2 ^ 31 -> Long_intValue n = n.
Proof. intros H. unfold Long_intValue. rewrite Z.mod_small; lia. Qed.

(** X26 ([getInt] after [parse]): a number of a parsed object is read by
    [getInt] as its low 32 bits, signed: it is the number itself when it fits
    in 32 bits, and a larger one, which [parse] keeps as a [Long], is
    truncated without an error. A string that holds the decimal numeral of a
    32-bit number is read as that number. *)
Theorem getInt_of_parsed (ws key : JavaString) (n : Z) :
  forallb is_whitespace ws = true -> plain_key key = true ->
  (- 2 ^ 63 <= n < 2 ^ 63 ->
   (object <- parse (render ws (JObject [(key, JNumber n)])) ;; getInt object key)
   = Returns (Long_intValue n))
  /\ (- 2 ^ 31 <= n < 2 ^ 31 ->
      Long_intValue n = n
      /\ (object <- parse (render ws (JObject [(key, JString (str (IndexJs.toString n)))])) ;;
          getInt object key)
         = Returns n).
Proof.
  intros Hws Hkey. split.
  - intros Hn. rewrite parse_single; try assumption.
    + cbn [bind call_monad]. unfold getInt. cbn [get]. rewrite equals_refl.
      cbn [value_of].
      destruct ((- 2 ^ 31 <=? n) && (n <? 2 ^ 31)) eqn:Hint; [|reflexivity].
      apply andb_true_iff in Hint as [H1 H2]. apply Z.leb_le in H1. apply Z.ltb_lt in H2.
      now rewrite Long_intValue_small by lia.
    + cbn [readable]. apply andb_true_iff. split; [apply Z.leb_le | apply Z.ltb_lt]; lia.
  - intros Hn. split; [now apply Long_intValue_small|].
    rewrite parse_single; try assumption.
    + cbn [bind call_monad]. unfold getInt. cbn [get]. rewrite equals_refl.
      cbn [value_of Object_toString String_valueOf bind call_monad].
      now apply Integer_parseInt_numeral.
    + cbn [readable]. pose proof (plain_key_numeral n) as H.
      now apply plain_key_plain in H.
Qed.

Lemma getInt_of_parsed_witness :
  (object <- parse (render (str " ") (JObject [(str "k", JNumber 4294967299)])) ;;
   getInt object (str "k"))
  = Returns 3.
Proof.
  assert (Hn : - 2 ^ 63 <= 4294967299 < 2 ^ 63) by lia.
  exact (proj1 (getInt_of_parsed (str " ") (str "k") 4294967299 eq_refl eq_refl) Hn).
Defined.

(** X27 (what [main] prints): on the text of a test case whose shares have
    pairwise distinct abscissas and values that [convertBase] accepts, [main]
    prints the exact Lagrange sum at zero of the [min(k, n)] shares of
    smallest abscissa, as a fraction in lowest terms; the other shares have
    no part in it. *)
Theorem main_prints_interpolation (ws w1 w2 : JavaString) (lines : list JavaString)
  (n k : Z) (shares : list (Z * Z * JavaString)) (roots : list (Z * Z)) :
  forallb is_whitespace ws = true ->
  forallb is_whitespace w1 = true -> forallb is_whitespace w2 = true ->
  List.concat lines = w1 ++ render ws (testcase n k shares) ++ w2 ->
  - 2 ^ 63 <= n < 2 ^ 63 -> - 2 ^ 31 <= k < 2 ^ 31 ->
  Forall2 (fun share root =>
             fst (fst share) = fst root
             /\ convertBase (snd share) (snd (fst share)) = Returns (snd root))
          shares roots ->
  NoDup (List.map fst roots) ->
  exists f,
    main lines = Prints (toString f)
    /\ canonical (num f) (den f)
    /\ (ratio f == lagrange_sum (List.map point_of (used_roots roots k)))%Q.
Proof.
  intros Hws Hw1 Hw2 Hlines Hn Hk Hshares Hnd.
  destruct (constantTerm_distinct roots k Hnd) as (f & Hf & Hcanonical & Hratio).
  exists f. split; [|split; assumption].
  rewrite (main_testcase ws w1 w2 lines n k shares roots) by assumption.
  now rewrite Hf.
Qed.

Lemma main_prints_interpolation_witness :
  exists f,
    main [render [] (testcase 3 2 [(4, 10, str "35"); (1, 16, str "1"); (3, 2, str "10")])]
    = Prints (toString f)
    /\ canonical (num f) (den f)
    /\ (ratio f == lagrange_sum (List.map point_of
                                   (used_roots [(4, 35); (1, 1); (3, 2)]%Z 2%Z)))%Q.
Proof.
  apply (main_prints_interpolation [] [] [] _ 3 2
           [(4, 10, str "35"); (1, 16, str "1"); (3, 2, str "10")]
           [(4, 35); (1, 1); (3, 2)]).
  all: try reflexivity; try lia.
  - repeat (apply Forall2_cons; [split; reflexivity|]). apply Forall2_nil.
  - cbn [List.map fst]. repeat (apply NoDup_cons; [simpl; lia|]). apply NoDup_nil.
Defined.

End Json.

(** ** Decoding in both programs *)

Section Decoders.






End Decoders.
